(** * cc-slash-agents: discovery, naming, generation and sync

    A shallow embedding of the file-discovery and generation pipeline of
    cc-slash-agents (FileDiscovery, PathUtils, the [generate] and [sync]
    commands) together with the properties stated about it.

    Strings are sequences of code units below 256 ([string]); the file
    system is a finite map from paths to nodes; code that can throw runs in
    a small state-and-exception monad over the file system and the console. *)

From stdpp Require Import base gmap list strings pretty.
From Stdlib Require Import Ascii.

Local Open Scope stdpp_scope.

#[local] Set Warnings "-clear-no-such-hyp".

(** ** JavaScript string primitives *)

Module Js.

Definition code (c : ascii) : nat := nat_of_ascii c.

Definition between (lo hi : nat) (c : ascii) : bool :=
  (lo <=? code c) && (code c <=? hi).

Definition isDigit (c : ascii) : bool := between 48 57 c.
Definition isUpper (c : ascii) : bool := between 65 90 c.
Definition isLower (c : ascii) : bool := between 97 122 c.

(** [\w] of a regular expression: [A-Za-z0-9_]. *)
Definition isWord (c : ascii) : bool :=
  isDigit c || isUpper c || isLower c || Ascii.eqb c "_".

(** [\s] of a regular expression, on code units below 256:
    TAB, LF, VT, FF, CR, SPACE and NBSP. *)
Definition isSpace (c : ascii) : bool :=
  between 9 13 c || Ascii.eqb c " " || (code c =? 160).

(** [.] of a regular expression: anything but a line terminator. *)
Definition isDot (c : ascii) : bool :=
  negb (Ascii.eqb c "010" || Ascii.eqb c "013").

Definition toLowerChar (c : ascii) : ascii :=
  if isUpper c then ascii_of_nat (code c + 32) else c.

Fixpoint toLowerCase (s : string) : string :=
  match s with
  | EmptyString => EmptyString
  | String c t => String (toLowerChar c) (toLowerCase t)
  end.

(** [s.startsWith(p)] *)
Fixpoint startsWith (p s : string) : bool :=
  match p, s with
  | EmptyString, _ => true
  | String a p', String b s' => Ascii.eqb a b && startsWith p' s'
  | String _ _, EmptyString => false
  end.

(** [s.includes(p)] *)
Fixpoint includes (p s : string) : bool :=
  startsWith p s ||
  match s with
  | EmptyString => false
  | String _ s' => includes p s'
  end.

(** [s.indexOf(p)], [None] standing for [-1]. *)
Fixpoint indexOf (p s : string) : option nat :=
  if startsWith p s then Some 0
  else match s with
       | EmptyString => None
       | String _ s' => S <$> indexOf p s'
       end.

Fixpoint take (n : nat) (s : string) : string :=
  match n, s with
  | S n', String c t => String c (take n' t)
  | _, _ => EmptyString
  end.

Fixpoint drop (n : nat) (s : string) : string :=
  match n, s with
  | S n', String _ t => drop n' t
  | _, _ => s
  end.

(** [s.split(sep)] for a one-character separator. *)
Fixpoint split (sep : ascii) (s : string) : list string :=
  match s with
  | EmptyString => [EmptyString]
  | String c t =>
      if Ascii.eqb c sep then EmptyString :: split sep t
      else match split sep t with
           | [] => [String c EmptyString]
           | l :: ls => String c l :: ls
           end
  end.

(** [l.join(sep)] *)
Fixpoint join (sep : string) (l : list string) : string :=
  match l with
  | [] => EmptyString
  | [x] => x
  | x :: rest => x +:+ sep +:+ join sep rest
  end.

(** The longest prefix of [s] whose characters satisfy [p], and the rest. *)
Fixpoint span (p : ascii → bool) (s : string) : string * string :=
  match s with
  | EmptyString => (EmptyString, EmptyString)
  | String c t =>
      if p c then let '(a, b) := span p t in (String c a, b)
      else (EmptyString, s)
  end.

Fixpoint all (p : ascii → bool) (s : string) : bool :=
  match s with
  | EmptyString => true
  | String c t => p c && all p t
  end.

(** [GetSubstitution] of ECMAScript for a string pattern (no capture
    groups): in the replacement text [$$] stands for a dollar sign, [$&]
    for the matched text, [$`] for the text before the match and [$'] for
    the text after it; any other dollar sign is literal. *)
Fixpoint getSubstitution (matched before after tmpl : string) : string :=
  match tmpl with
  | EmptyString => EmptyString
  | String c t =>
      if Ascii.eqb c "$" then
        match t with
        | EmptyString => String c EmptyString
        | String d t' =>
            if Ascii.eqb d "$" then String "$" (getSubstitution matched before after t')
            else if Ascii.eqb d "&" then matched +:+ getSubstitution matched before after t'
            else if Ascii.eqb d "`" then before +:+ getSubstitution matched before after t'
            else if Ascii.eqb d "'" then after +:+ getSubstitution matched before after t'
            else String c (getSubstitution matched before after t)
        end
      else String c (getSubstitution matched before after t)
  end.

(** [s.replace(pat, rep)] with a string pattern: the first occurrence of
    [pat] is replaced by the expansion of [rep]. *)
Definition replace (pat rep s : string) : string :=
  match indexOf pat s with
  | None => s
  | Some i =>
      let before := take i s in
      let after := drop (i + String.length pat) s in
      before +:+ getSubstitution pat before after rep +:+ after
  end.

(** The global replacement of every double quote by a backslash and a
    double quote. *)
Fixpoint escapeQuotes (s : string) : string :=
  match s with
  | EmptyString => EmptyString
  | String c t =>
      if Ascii.eqb c "034" then String "\" (String c (escapeQuotes t))
      else String c (escapeQuotes t)
  end.

End Js.

(** ** The file system, exceptions and the console *)

(** A node of the file system: a regular file with its text and whether the
    process may read it and may modify or remove it, or a directory. *)
Inductive node :=
| File (content : string) (readable writable : bool)
| Directory.

(** A thrown [Error] object with its [message]. *)
Inductive exn := JsError (message : string).

Definition message (e : exn) : string := let 'JsError m := e in m.

(** The text of an error inside a template literal. *)
Definition errorText (e : exn) : string := "Error: " +:+ message e.

Inductive result (A : Type) :=
| Ok (a : A)
| Threw (e : exn).
Arguments Ok {A} a.
Arguments Threw {A} e.

Inductive level := LDebug | LWarning | LInfo.

(** The state a run acts on: the files, the calls made to the logger and the
    texts handed to the metadata decoder, both in order. *)
Record World := mkWorld {
  fs : gmap string node;
  console : list (level * string);
  decoded : list string
}.

(** Computations that read and write the world and may throw. *)
Definition M (A : Type) : Type := World → result A * World.

#[global] Instance M_ret : MRet M := λ A a w, (Ok a, w).

#[global] Instance M_bind : MBind M := λ A B k m w,
  match m w with
  | (Ok a, w') => k a w'
  | (Threw e, w') => (Threw e, w')
  end.

Definition throw {A} (e : exn) : M A := λ w, (Threw e, w).

(** [try { m } catch (e) { h e }] *)
Definition tryCatch {A} (m : M A) (h : exn → M A) : M A := λ w,
  match m w with
  | (Ok a, w') => (Ok a, w')
  | (Threw e, w') => h e w'
  end.

(** [for (const x of l) { acc = body acc x }] *)
Fixpoint forOf {A S} (l : list A) (body : S → A → M S) (acc : S) : M S :=
  match l with
  | [] => mret acc
  | x :: rest => acc' ← body acc x; forOf rest body acc'
  end.

Module Logger.
Definition log (lv : level) (msg : string) : M () := λ w,
  (Ok (), mkWorld (fs w) (console w ++ [(lv, msg)]) (decoded w)).
Definition debug := log LDebug.
Definition warning := log LWarning.
Definition info := log LInfo.
End Logger.

Module Fs.
Definition existsSync (path : string) : M bool := λ w,
  (Ok (bool_decide (is_Some (fs w !! path))), w).

Definition readFileSync (path : string) : M string := λ w,
  match fs w !! path with
  | Some (File c true _) => (Ok c, w)
  | Some (File _ false _) =>
      (Threw (JsError ("EACCES: permission denied, open " +:+ path)), w)
  | Some Directory =>
      (Threw (JsError "EISDIR: illegal operation on a directory, read"), w)
  | None =>
      (Threw (JsError ("ENOENT: no such file or directory, open " +:+ path)), w)
  end.

Definition writeFileSync (path content : string) : M () := λ w,
  match fs w !! path with
  | Some (File _ r true) =>
      (Ok (), mkWorld (<[path := File content r true]> (fs w)) (console w) (decoded w))
  | None =>
      (Ok (), mkWorld (<[path := File content true true]> (fs w)) (console w) (decoded w))
  | Some (File _ _ false) =>
      (Threw (JsError ("EACCES: permission denied, open " +:+ path)), w)
  | Some Directory =>
      (Threw (JsError ("EISDIR: illegal operation on a directory, open " +:+ path)), w)
  end.

Definition unlinkSync (path : string) : M () := λ w,
  match fs w !! path with
  | Some (File _ _ true) =>
      (Ok (), mkWorld (delete path (fs w)) (console w) (decoded w))
  | Some (File _ _ false) =>
      (Threw (JsError ("EACCES: permission denied, unlink " +:+ path)), w)
  | Some Directory =>
      (Threw (JsError ("EPERM: operation not permitted, unlink " +:+ path)), w)
  | None =>
      (Threw (JsError ("ENOENT: no such file or directory, unlink " +:+ path)), w)
  end.

(** [mkdirSync(path, { recursive: true })] *)
Definition mkdirSync (path : string) : M () := λ w,
  match fs w !! path with
  | Some Directory => (Ok (), w)
  | Some (File _ _ _) =>
      (Threw (JsError ("EEXIST: file already exists, mkdir " +:+ path)), w)
  | None =>
      (Ok (), mkWorld (<[path := Directory]> (fs w)) (console w) (decoded w))
  end.
End Fs.

(** ** Data model (types.ts) *)

Inductive Scope := project | user.

Inductive Tools :=
| ToolsString (s : string)
| ToolsList (l : list string).

(** The [data] object of a decoded header: every field may be absent. *)
Module Frontmatter.
Record t := mk {
  name : option string;
  description : option string;
  tools : option Tools;
  model : option string;
  argument_hint : option string;
  allowed_tools : option (list string)
}.
Definition empty : t := mk None None None None None None.
End Frontmatter.

(** What the metadata decoder returns for a text: the header's data and the
    text after the header. *)
Module GrayMatterFile.
Record t := mk { data : Frontmatter.t; content : string }.
End GrayMatterFile.

Module AgentFrontmatter.
Record t := mk {
  name : string;
  description : string;
  tools : option Tools;
  model : option string
}.
End AgentFrontmatter.

Module CommandFrontmatter.
Record t := mk {
  description : option string;
  argument_hint : option string;
  allowed_tools : option (list string);
  model : option string
}.
End CommandFrontmatter.

Module AgentFile.
Record t := mk {
  path : string;
  relativePath : string;
  frontmatter : AgentFrontmatter.t;
  content : string;
  scope : Scope
}.
Definition name (a : t) : string := AgentFrontmatter.name (frontmatter a).
End AgentFile.

Module CommandFile.
Record t := mk {
  path : string;
  relativePath : string;
  frontmatter : CommandFrontmatter.t;
  content : string;
  scope : Scope
}.
End CommandFile.

(** The options of the generate command. *)
Module GenerateOptions.
Record t := mk { scope : string; dryRun : bool; force : bool; verbose : bool }.
End GenerateOptions.

(** The options of the sync command. *)
Module SyncOptions.
Record t := mk { scope : string; clean : bool; verbose : bool }.
End SyncOptions.

(** The three classifications of a sync run. *)
Record SyncPlan := mkPlan {
  toUpdate : list (AgentFile.t * CommandFile.t);
  toCreate : list AgentFile.t;
  toDelete : list string
}.

(** What a run of [syncCommands] reports: the early exits, or the plan with
    the counters and the error lines of the summary. *)
Inductive SyncReport :=
| NoAgentsToSync
| UpToDate (plan : SyncPlan)
| Synced (plan : SyncPlan) (created updated deleted : nat) (errors : list string).

(** ** The host: working directory, home directory and library functions

    [glob] lists the files matching a pattern on the given disk or throws;
    [matter] (gray-matter) decodes a text or throws; [relative] is
    [path.relative]. *)
Record Host := mkHost {
  cwd : string;
  homedir : string;
  glob : gmap string node → string → result (list string);
  matter : string → result GrayMatterFile.t;
  relative : string → string → string
}.

Definition LF : string := String "010" EmptyString.
Definition DQ : string := String "034" EmptyString.

(** [path.join] of segments that are already normal. *)
Definition join (a b : string) : string := a +:+ "/" +:+ b.

(** The truth value of an optional string: absent and empty are false. *)
Definition truthy (o : option string) : bool :=
  match o with
  | Some (String _ _) => true
  | _ => false
  end.

(** [a || b] on strings. *)
Definition orElse (o : option string) (d : string) : string :=
  match o with
  | Some (String c t) => String c t
  | _ => d
  end.

Definition scopeText (s : Scope) : string :=
  match s with project => "project" | user => "user" end.

Section WithHost.
Context (host : Host).

(** ** PathUtils (utils/paths.ts) *)

Definition getUserClaudeDir : string := join (homedir host) ".claude".
Definition getProjectClaudeDir : string := join (cwd host) ".claude".
Definition getUserAgentsDir : string := join getUserClaudeDir "agents".
Definition getProjectAgentsDir : string := join getProjectClaudeDir "agents".
Definition getUserCommandsDir : string := join getUserClaudeDir "commands".
Definition getProjectCommandsDir : string := join getProjectClaudeDir "commands".

Definition scopeIs (scope : string) (a b : string) : bool :=
  String.eqb scope a || String.eqb scope b.

Definition getValidAgentsDirs (scope : string) : M (list (string * Scope)) :=
  dirs ← (if scopeIs scope "both" "project" then
            ex ← Fs.existsSync getProjectAgentsDir;
            mret (if ex : bool then [(getProjectAgentsDir, project)] else [])
          else mret []);
  if scopeIs scope "both" "user" then
    ex ← Fs.existsSync getUserAgentsDir;
    mret (if ex : bool then dirs ++ [(getUserAgentsDir, user)] else dirs)
  else mret dirs.

(** ** FileDiscovery (core/file-discovery.ts) *)

(** The header regular expression: the text between the opening line of
    three hyphens and the first following line break that is followed by
    three hyphens. *)
Definition matchHeader (content : string) : option string :=
  if Js.startsWith ("---" +:+ LF) content then
    let rest := Js.drop 4 content in
    match Js.indexOf (LF +:+ "---") rest with
    | Some i => Some (Js.take i rest)
    | None => None
    end
  else None.

Definition isKeyChar (c : ascii) : bool := Js.isWord c || Ascii.eqb c "-".

(** The key-value regular expression applied to one line: optional white
    space and a non-empty run of word characters and hyphens (the key), a
    colon, optional white space, and the rest of the line free of line
    terminators (the value). *)
Definition keyValMatch (line : string) : option (string * string) :=
  let '(indent, r1) := Js.span Js.isSpace line in
  let '(word, r2) := Js.span isKeyChar r1 in
  match word, r2 with
  | String _ _, String c r3 =>
      if Ascii.eqb c ":" then
        let '(_, value) := Js.span Js.isSpace r3 in
        if Js.all Js.isDot value then Some (indent +:+ word, value) else None
      else None
  | _, _ => None
  end.

(** The test under which a value is re-quoted. *)
Definition needsQuoting (value : string) : bool :=
  negb (String.eqb value EmptyString) &&
  negb (Js.startsWith DQ value) &&
  negb (Js.startsWith "'" value) &&
  negb (Js.startsWith "[" value) &&
  negb (Js.startsWith "{" value) &&
  (Js.includes ":" value || Js.includes "#" value).

Definition fixLine (line : string) : string :=
  match keyValMatch line with
  | Some (key, value) =>
      if needsQuoting value
      then key +:+ ": " +:+ DQ +:+ Js.escapeQuotes value +:+ DQ
      else line
  | None => line
  end.

Definition fixFrontmatter (content : string) : string :=
  match matchHeader content with
  | None => content
  | Some frontmatter =>
      let lines := Js.split "010" frontmatter in
      let fixedLines := fixLine <$> lines in
      let newFrontmatter := Js.join LF fixedLines in
      Js.replace frontmatter newFrontmatter content
  end.

(** A call of the metadata decoder, recorded in the world. *)
Definition callMatter (text : string) : M GrayMatterFile.t := λ w,
  (matter host text, mkWorld (fs w) (console w) (decoded w ++ [text])).

Definition parseAgentFile (filePath baseDir : string) (scope : Scope)
  : M (option AgentFile.t) :=
  ex ← Fs.existsSync filePath;
  if negb ex then mret None else
  content ← Fs.readFileSync filePath;
  parsed ← tryCatch (callMatter content)
    (λ error,
       tryCatch
         (let fixedContent := fixFrontmatter content in
          parsed ← callMatter fixedContent;
          Logger.debug ("Recovered malformed agent file: " +:+ filePath);;
          mret parsed)
         (λ retryError, throw error));
  let frontmatter := GrayMatterFile.data parsed in
  if negb (truthy (Frontmatter.name frontmatter) &&
           truthy (Frontmatter.description frontmatter)) then
    Logger.debug ("Skipping " +:+ filePath +:+
                  ": missing required frontmatter (name, description)");;
    mret None
  else
    mret (Some (AgentFile.mk filePath (relative host baseDir filePath)
                  (AgentFrontmatter.mk
                     (default EmptyString (Frontmatter.name frontmatter))
                     (default EmptyString (Frontmatter.description frontmatter))
                     (Frontmatter.tools frontmatter)
                     (Frontmatter.model frontmatter))
                  (GrayMatterFile.content parsed) scope)).

Definition parseCommandFile (filePath baseDir : string) (scope : Scope)
  : M (option CommandFile.t) :=
  ex ← Fs.existsSync filePath;
  if negb ex then mret None else
  content ← Fs.readFileSync filePath;
  parsed ← callMatter content;
  let d := GrayMatterFile.data parsed in
  mret (Some (CommandFile.mk filePath (relative host baseDir filePath)
                (CommandFrontmatter.mk (Frontmatter.description d)
                   (Frontmatter.argument_hint d) (Frontmatter.allowed_tools d)
                   (Frontmatter.model d))
                (GrayMatterFile.content parsed) scope)).

(** [await glob(pattern)] on the current disk. *)
Definition callGlob (pattern : string) : M (list string) := λ w,
  (glob host (fs w) pattern, w).

(** The global replacement of backslashes by slashes. *)
Fixpoint slashes (s : string) : string :=
  match s with
  | EmptyString => EmptyString
  | String c t => String (if Ascii.eqb c "\" then "/"%char else c) (slashes t)
  end.

Definition scanAgentFile (agentsDir : string) (dirScope : Scope)
  (agents : list AgentFile.t) (filePath : string) : M (list AgentFile.t) :=
  tryCatch
    (agent ← parseAgentFile filePath agentsDir dirScope;
     match agent with
     | Some a =>
         Logger.debug ("Found agent: " +:+ AgentFile.name a +:+
                       " (" +:+ scopeText dirScope +:+ ")");;
         mret (agents ++ [a])
     | None => mret agents
     end)
    (λ error,
       Logger.warning ("Failed to parse agent file " +:+ filePath +:+ ": " +:+
                       errorText error);;
       mret agents).

Definition scanAgentsDir (agents : list AgentFile.t) (dir : string * Scope)
  : M (list AgentFile.t) :=
  let agentsDir := dir.1 in
  let dirScope := dir.2 in
  tryCatch
    (Logger.debug ("Scanning agents directory: " +:+ agentsDir);;
     files ← callGlob (slashes (join agentsDir "**/*.md"));
     forOf files (scanAgentFile agentsDir dirScope) agents)
    (λ error,
       Logger.debug ("Error scanning " +:+ agentsDir +:+ ": " +:+ errorText error);;
       mret agents).

Definition discoverAgents (scope : string) : M (list AgentFile.t) :=
  agentsDirs ← getValidAgentsDirs scope;
  forOf agentsDirs scanAgentsDir [].

Definition scanCommandFile (commandsDir : string) (dirScope : Scope)
  (commands : list CommandFile.t) (filePath : string) : M (list CommandFile.t) :=
  tryCatch
    (command ← parseCommandFile filePath commandsDir dirScope;
     match command with
     | Some c =>
         Logger.debug ("Found command: " +:+ relative host commandsDir filePath +:+
                       " (" +:+ scopeText dirScope +:+ ")");;
         mret (commands ++ [c])
     | None => mret commands
     end)
    (λ error,
       Logger.warning ("Failed to parse command file " +:+ filePath +:+ ": " +:+
                       errorText error);;
       mret commands).

Definition scanCommandsDir (commands : list CommandFile.t) (dir : string * Scope)
  : M (list CommandFile.t) :=
  let commandsDir := dir.1 in
  let dirScope := dir.2 in
  tryCatch
    (Logger.debug ("Scanning commands directory: " +:+ commandsDir);;
     files ← callGlob (slashes (join commandsDir "**/*.md"));
     forOf files (scanCommandFile commandsDir dirScope) commands)
    (λ error,
       Logger.debug ("Error scanning " +:+ commandsDir +:+ ": " +:+ errorText error);;
       mret commands).

Definition getValidCommandsDirs (scope : string) : M (list (string * Scope)) :=
  dirs ← (if scopeIs scope "both" "project" then
            ex ← Fs.existsSync getProjectCommandsDir;
            mret (if ex : bool then [(getProjectCommandsDir, project)] else [])
          else mret []);
  if scopeIs scope "both" "user" then
    ex ← Fs.existsSync getUserCommandsDir;
    mret (if ex : bool then dirs ++ [(getUserCommandsDir, user)] else dirs)
  else mret dirs.

Definition discoverCommands (scope : string) : M (list CommandFile.t) :=
  commandsDirs ← getValidCommandsDirs scope;
  forOf commandsDirs scanCommandsDir [].

Definition humanMarker : string := "Generated by cc-slash-agents".
Definition machineMarker : string := "<!-- ccsa:generated -->".

Definition isGeneratedFile (filePath : string) : M bool :=
  ex ← Fs.existsSync filePath;
  if negb ex then mret false else
  tryCatch
    (content ← Fs.readFileSync filePath;
     mret (Js.includes humanMarker content || Js.includes machineMarker content))
    (λ _, mret false).

(** ** CommandGenerator (core/command-generator.ts) *)

(** Lower-case letters and digits. *)
Definition isLowerAlnum (c : ascii) : bool := Js.isDigit c || Js.isLower c.

(** Modelled from the spec: the collapsing step of the derived name, part
    of core/command-generator.ts, which is not among the sources. Every
    maximal run of characters other than lower-case letters and digits
    becomes one hyphen; [inRun] tells that the previous character belonged
    to such a run. *)
Fixpoint hyphenate (inRun : bool) (s : string) : string :=
  match s with
  | EmptyString => EmptyString
  | String c t =>
      if isLowerAlnum c then String c (hyphenate false t)
      else if inRun then hyphenate true t
      else String "-" (hyphenate true t)
  end.

(** Modelled from the spec: [generateCommandName] (the spec's deriveName) of
    core/command-generator.ts, which is not among the sources. The spec
    gives the rule as lower-casing followed by collapsing the characters that
    are not alphanumeric into hyphens. *)
Definition generateCommandName (agentName : string) : string :=
  hyphenate false (Js.toLowerCase agentName).

(** Modelled from the spec: the candidate with the numeric suffix [n], as
    in the spec's -2, -3 (core/command-generator.ts is not among the
    sources). *)
Definition suffixed (base : string) (n : nat) : string :=
  base +:+ "-" +:+ pretty n.

(** Modelled from the spec: the retry loop of the conflict resolution
    (core/command-generator.ts is not among the sources). While the
    candidate with the current counter is claimed, move to the next
    counter. The loop is run for at most as many steps as there are claimed
    names, after which the current candidate is returned;
    [unclaimed_fresh] shows that the result is never a claimed name, so the
    bound never cuts the loop short. *)
Fixpoint retry (fuel : nat) (usedNames : gset string) (base : string)
  (counter : nat) : string :=
  match fuel with
  | 0 => suffixed base counter
  | S fuel' =>
      if decide (suffixed base counter ∈ usedNames)
      then retry fuel' usedNames base (S counter)
      else suffixed base counter
  end.

(** Modelled from the spec: the identifier assigned to an agent whose
    derived name is [base], given the names claimed so far. *)
Definition unclaimed (usedNames : gset string) (base : string) : string :=
  if decide (base ∈ usedNames)
  then retry (size usedNames) usedNames base 2
  else base.

(** Modelled from the spec: one agent of the pass; the state is the map
    built so far and the set of claimed identifiers. *)
Definition resolveStep (st : gmap string string * gset string)
  (agent : AgentFile.t) : gmap string string * gset string :=
  let commandName := unclaimed st.2 (generateCommandName (AgentFile.name agent)) in
  (<[AgentFile.name agent := commandName]> st.1, {[commandName]} ∪ st.2).

(** Modelled from the spec: the pass over the agents in the given order. *)
Definition resolveFrom (st : gmap string string * gset string)
  (agents : list AgentFile.t) : gmap string string * gset string :=
  foldl resolveStep st agents.

(** Modelled from the spec: [resolveNamingConflicts] (the spec's
    resolveConflicts) of core/command-generator.ts, which is not among the
    sources. Agents are processed in the given order; each is assigned its
    derived name, or, when an earlier agent of the pass has claimed it, the
    derived name with the first unclaimed suffix among -2, -3, ...; the
    result maps the agent's logical name to the assigned identifier. *)
Definition resolveNamingConflicts (agents : list AgentFile.t)
  : gmap string string :=
  (resolveFrom (∅, ∅) agents).1.

(** The commands directory of a scope. *)
Definition commandsDirOf (s : Scope) : string :=
  match s with
  | project => getProjectCommandsDir
  | user => getUserCommandsDir
  end.

(** Modelled from the spec: the destination of the command generated for
    an agent, the target scope's commands directory joined with the derived
    name and the markdown extension (core/command-generator.ts is not among
    the sources). *)
Definition commandPathOf (agent : AgentFile.t) (targetScope : Scope) : string :=
  join (commandsDirOf targetScope)
       (generateCommandName (AgentFile.name agent) +:+ ".md").

(** Modelled from the spec: the text written for an agent, with a minimal
    header, the agent's text and both signature markers
    (core/command-generator.ts is not among the sources). *)
Definition renderCommand (agent : AgentFile.t) : string :=
  "---" +:+ LF +:+
  "description: " +:+ AgentFrontmatter.description (AgentFile.frontmatter agent) +:+ LF +:+
  "---" +:+ LF +:+ LF +:+
  AgentFile.content agent +:+ LF +:+ LF +:+
  machineMarker +:+ LF +:+
  humanMarker +:+ LF.

(** Modelled from the spec: the error of an existing destination; the spec
    fixes only that its message tells that the file already exists. *)
Definition alreadyExists (commandPath : string) : exn :=
  JsError ("Command file already exists: " +:+ commandPath +:+
           " (use --force to overwrite)").

(** Modelled from the spec: [generateCommand] (the spec's generate) of
    core/command-generator.ts, which is not among the sources. The
    destination is the target scope's commands directory joined with the
    derived name and the markdown extension; an existing destination
    without [force] fails with the already-exists error; otherwise the
    commands directory is created if absent and the text is written. *)
Definition generateCommand (agent : AgentFile.t) (targetScope : Scope)
  (force : bool) : M (string * string) :=
  let commandName := generateCommandName (AgentFile.name agent) in
  let commandPath := commandPathOf agent targetScope in
  ex ← Fs.existsSync commandPath;
  if ex && negb force then throw (alreadyExists commandPath)
  else
    Fs.mkdirSync (commandsDirOf targetScope);;
    Fs.writeFileSync commandPath (renderCommand agent);;
    mret (commandName, commandPath).

(** ** The generate command (commands/generate.ts)

    The lines that the command prints (spinner, lists, summary) are not
    modelled; the report returned stands for what the summary shows. *)

(** What a run of [generateCommands] reports: the early exits, or the names
    generated, the names skipped and the error lines of the summary. *)
Inductive GenerateReport :=
| NoAgentDirectories
| NoAgentsFound
| Preview (commandNames : list string)
| Generated (generated skipped errors : list string).

Definition validScope (scope : string) : bool :=
  bool_decide (scope ∈ ["project"; "user"; "both"]).

(** The target scope of a run, the project scope when both are selected;
    the scope is one of the three valid texts when this is reached. *)
Definition targetScopeOf (scope : string) : Scope :=
  if String.eqb scope "both" then project
  else if String.eqb scope "user" then user
  else project.

Definition generateOne (options : GenerateOptions.t)
  (nameMap : gmap string string)
  (acc : list string * list string * list string) (agent : AgentFile.t)
  : M (list string * list string * list string) :=
  let '(generated, skipped, errors) := acc in
  tryCatch
    (let targetScope := targetScopeOf (GenerateOptions.scope options) in
     result ← generateCommand agent targetScope (GenerateOptions.force options);
     mret (generated ++ [result.1], skipped, errors))
    (λ error,
       let commandName := orElse (nameMap !! AgentFile.name agent) (AgentFile.name agent) in
       if Js.includes "already exists" (message error)
       then mret (generated, skipped ++ [commandName], errors)
       else mret (generated, skipped, errors ++ [commandName +:+ ": " +:+ errorText error])).

Definition generateCommands (options : GenerateOptions.t) : M GenerateReport :=
  if negb (validScope (GenerateOptions.scope options)) then
    throw (JsError "Scope must be one of: project, user, both")
  else
  agentsDirs ← getValidAgentsDirs (GenerateOptions.scope options);
  if bool_decide (length agentsDirs = 0) then mret NoAgentDirectories else
  agents ← discoverAgents (GenerateOptions.scope options);
  if bool_decide (length agents = 0) then mret NoAgentsFound else
  let nameMap := resolveNamingConflicts agents in
  if GenerateOptions.dryRun options then
    mret (Preview ((λ agent, orElse (nameMap !! AgentFile.name agent) "unknown") <$> agents))
  else
  acc ← forOf agents (generateOne options nameMap) ([], [], []);
  mret (Generated acc.1.1 acc.1.2 acc.2).

(** ** The sync command (commands/sync.ts)

    As for generation, the report returned stands for what the command
    prints. *)

(** [l.filter(p)] for a predicate that reads the disk. *)
Fixpoint filterM {A} (p : A → M bool) (l : list A) : M (list A) :=
  match l with
  | [] => mret []
  | x :: rest =>
      keep ← p x;
      kept ← filterM p rest;
      mret (if keep : bool then x :: kept else kept)
  end.

(** [c.relativePath.replace('.md', '')] *)
Definition commandNameOf (c : CommandFile.t) : string :=
  Js.replace ".md" EmptyString (CommandFile.relativePath c).

Definition findCommand (generatedCommands : list CommandFile.t)
  (expectedCommandName : option string) : option CommandFile.t :=
  List.find (λ c, bool_decide (Some (commandNameOf c) = expectedCommandName))
            generatedCommands.

Definition classifyAgent (nameMap : gmap string string)
  (generatedCommands : list CommandFile.t)
  (acc : list (AgentFile.t * CommandFile.t) * list AgentFile.t)
  (agent : AgentFile.t) : list (AgentFile.t * CommandFile.t) * list AgentFile.t :=
  let expectedCommandName := nameMap !! AgentFile.name agent in
  match findCommand generatedCommands expectedCommandName with
  | Some existingCommand => (acc.1 ++ [(agent, existingCommand)], acc.2)
  | None => (acc.1, acc.2 ++ [agent])
  end.

Definition markOrphan (expectedCommands : gset string) (toDelete : list string)
  (command : CommandFile.t) : list string :=
  if decide (commandNameOf command ∈ expectedCommands) then toDelete
  else toDelete ++ [CommandFile.path command].

(** The classification of a run, from the agents and the generated commands. *)
Definition reconcile (clean : bool) (agents : list AgentFile.t)
  (generatedCommands : list CommandFile.t) : SyncPlan :=
  let nameMap := resolveNamingConflicts agents in
  let expectedCommands : gset string := map_img nameMap in
  let classified := foldl (classifyAgent nameMap generatedCommands) ([], []) agents in
  let toDelete :=
    if clean then foldl (markOrphan expectedCommands) [] generatedCommands else [] in
  mkPlan classified.1 classified.2 toDelete.

Definition createOne (scope : string) (acc : nat * list string)
  (agent : AgentFile.t) : M (nat * list string) :=
  tryCatch
    (generateCommand agent (targetScopeOf scope) true;;
     mret (S acc.1, acc.2))
    (λ error,
       mret (acc.1, acc.2 ++ ["Failed to create command for " +:+
                               AgentFile.name agent +:+ ": " +:+ errorText error])).

Definition updateOne (scope : string) (acc : nat * list string)
  (item : AgentFile.t * CommandFile.t) : M (nat * list string) :=
  tryCatch
    (generateCommand item.1 (targetScopeOf scope) true;;
     mret (S acc.1, acc.2))
    (λ error,
       mret (acc.1, acc.2 ++ ["Failed to update command for " +:+
                               AgentFile.name item.1 +:+ ": " +:+ errorText error])).

Definition deleteOne (acc : nat * list string) (path : string)
  : M (nat * list string) :=
  tryCatch
    (Fs.unlinkSync path;;
     mret (S acc.1, acc.2))
    (λ error,
       mret (acc.1, acc.2 ++ ["Failed to delete " +:+ path +:+ ": " +:+
                               errorText error])).

Definition syncCommands (options : SyncOptions.t) : M SyncReport :=
  let scope := SyncOptions.scope options in
  if negb (validScope scope) then
    throw (JsError "Scope must be one of: project, user, both")
  else
  agents ← discoverAgents scope;
  existingCommands ← discoverCommands scope;
  if bool_decide (length agents = 0) then mret NoAgentsToSync else
  generatedCommands ←
    filterM (λ c, isGeneratedFile (CommandFile.path c)) existingCommands;
  let plan := reconcile (SyncOptions.clean options) agents generatedCommands in
  if bool_decide (length (toCreate plan) = 0) &&
     bool_decide (length (toUpdate plan) = 0) &&
     bool_decide (length (toDelete plan) = 0)
  then mret (UpToDate plan) else
  created ← forOf (toCreate plan) (createOne scope) (0, []);
  updated ← forOf (toUpdate plan) (updateOne scope) (0, created.2);
  deleted ← (if SyncOptions.clean options
             then forOf (toDelete plan) deleteOne (0, updated.2)
             else mret (0, updated.2));
  mret (Synced plan created.1 updated.1 deleted.1 deleted.2).

End WithHost.

(** ** More string primitives

    The confirmation of the clean command lower-cases and trims what the
    user typed. *)

Module JsText.

(** [toLowerCase] of one code unit below 256: besides the letters A to Z,
    the capital letters of Latin-1 (codes 192 to 222, the multiplication
    sign 215 apart) have a lower-case form, 32 above. *)
Definition toLowerChar (c : ascii) : ascii :=
  if Js.isUpper c || (Js.between 192 222 c && negb (Js.code c =? 215))
  then ascii_of_nat (Js.code c + 32)
  else c.

Fixpoint toLowerCase (s : string) : string :=
  match s with
  | EmptyString => EmptyString
  | String c t => String (toLowerChar c) (toLowerCase t)
  end.

(** [trimStart], [trimEnd] and [trim]: white space and line terminators are
    removed, which below 256 are the code units of [Js.isSpace]. *)
Fixpoint trimStart (s : string) : string :=
  match s with
  | EmptyString => EmptyString
  | String c t => if Js.isSpace c then trimStart t else s
  end.

Fixpoint trimEnd (s : string) : string :=
  match s with
  | EmptyString => EmptyString
  | String c t =>
      match trimEnd t with
      | EmptyString => if Js.isSpace c then EmptyString else String c EmptyString
      | t' => String c t'
      end
  end.

Definition trim (s : string) : string := trimEnd (trimStart s).

End JsText.

(** ** The texts written by the init command (commands/init.ts) *)

(** The agent file that the project initialisation writes. *)
Definition exampleAgent : string :=
  "---" +:+ LF +:+
  "name: example-agent" +:+ LF +:+
  "description: Example agent demonstrating the basic structure and capabilities. Use PROACTIVELY for demonstration purposes." +:+ LF +:+
  "tools: Read, Write, Edit" +:+ LF +:+
  "---" +:+ LF +:+
  LF +:+
  "You are an example agent that demonstrates how to structure Claude Code agents." +:+ LF +:+
  LF +:+
  "## Your Role" +:+ LF +:+
  LF +:+
  "You help users understand:" +:+ LF +:+
  "- How to write effective agent prompts" +:+ LF +:+
  "- The importance of clear descriptions" +:+ LF +:+
  "- Best practices for tool selection" +:+ LF +:+
  LF +:+
  "## Instructions" +:+ LF +:+
  LF +:+
  "When invoked, you should:" +:+ LF +:+
  "1. Explain what you do" +:+ LF +:+
  "2. Show the user how agents work" +:+ LF +:+
  "3. Provide helpful examples" +:+ LF +:+
  "4. Guide them toward creating their own agents" +:+ LF +:+
  LF +:+
  "Remember to be educational and helpful in your responses." +:+ LF.

(** The README that the project initialisation writes. *)
Definition readme : string :=
  "# Claude Code Configuration" +:+ LF +:+
  LF +:+
  "This directory contains your Claude Code configuration:" +:+ LF +:+
  LF +:+
  "## Structure" +:+ LF +:+
  LF +:+
  "- `agents/` - Custom agents for specialized tasks" +:+ LF +:+
  "- `commands/` - Slash commands for quick actions" +:+ LF +:+
  LF +:+
  "## Getting Started" +:+ LF +:+
  LF +:+
  "1. **Create agents** in the `agents/` directory" +:+ LF +:+
  "2. **Generate commands** by running: `ccsa generate`" +:+ LF +:+
  "3. **Use commands** in Claude Code with `/command-name`" +:+ LF +:+
  LF +:+
  "## Agent Format" +:+ LF +:+
  LF +:+
  "```markdown" +:+ LF +:+
  "---" +:+ LF +:+
  "name: my-agent" +:+ LF +:+
  "description: What this agent does and when to use it" +:+ LF +:+
  "tools: Read, Write, Edit  # Optional" +:+ LF +:+
  "---" +:+ LF +:+
  LF +:+
  "Your agent's system prompt goes here..." +:+ LF +:+
  "```" +:+ LF +:+
  LF +:+
  "## Useful Commands" +:+ LF +:+
  LF +:+
  "- `ccsa list` - Show all agents and commands" +:+ LF +:+
  "- `ccsa generate` - Create slash commands from agents" +:+ LF +:+
  "- `ccsa sync` - Update commands when agents change" +:+ LF +:+
  "- `ccsa clean` - Remove generated commands" +:+ LF +:+
  LF +:+
  "## Learn More" +:+ LF +:+
  LF +:+
  "- [Claude Code Documentation](https://docs.anthropic.com/claude-code)" +:+ LF +:+
  "- [cc-slash-agents on GitHub](https://github.com/yourusername/cc-slash-agents)" +:+ LF.

(** The agent file that the user-level initialisation writes. *)
Definition productivityAgent : string :=
  "---" +:+ LF +:+
  "name: productivity-helper" +:+ LF +:+
  "description: Personal productivity assistant for task management, time tracking, and workflow optimization. Use PROACTIVELY for productivity-related requests." +:+ LF +:+
  "tools: Read, Write, Edit, Bash" +:+ LF +:+
  "---" +:+ LF +:+
  LF +:+
  "You are a personal productivity assistant focused on helping with:" +:+ LF +:+
  LF +:+
  "## Core Capabilities" +:+ LF +:+
  LF +:+
  "- **Task Management**: Breaking down complex projects into actionable steps" +:+ LF +:+
  "- **Time Estimation**: Helping estimate realistic timeframes for tasks" +:+ LF +:+
  "- **Workflow Optimization**: Suggesting improvements to development workflows" +:+ LF +:+
  "- **Documentation**: Creating clear, maintainable documentation" +:+ LF +:+
  "- **Planning**: Project planning and milestone setting" +:+ LF +:+
  LF +:+
  "## Your Approach" +:+ LF +:+
  LF +:+
  "- Always think about efficiency and sustainability" +:+ LF +:+
  "- Suggest automation where appropriate" +:+ LF +:+
  "- Focus on long-term maintainability" +:+ LF +:+
  "- Consider the human element in productivity systems" +:+ LF +:+
  LF +:+
  "## Example Uses" +:+ LF +:+
  LF +:+
  "- " +:+ DQ +:+ "Help me break down this feature into tasks" +:+ DQ +:+ LF +:+
  "- " +:+ DQ +:+ "Review my daily workflow for improvements" +:+ DQ +:+ "  " +:+ LF +:+
  "- " +:+ DQ +:+ "Create a project timeline for this feature" +:+ DQ +:+ LF +:+
  "- " +:+ DQ +:+ "Suggest documentation structure for this project" +:+ DQ +:+ LF.

(** ** The clean command (commands/clean.ts)

    As for generation and sync, the lines that the command prints are not
    modelled; the report returned stands for what it shows. *)

Module CleanOptions.
Record t := mk { scope : string; yes : bool }.
End CleanOptions.

(** What a run of [cleanCommands] reports: nothing to clean, a declined
    confirmation, or the counter of deleted files with the number of
    generated commands found and the error lines. *)
Inductive CleanReport :=
| NothingToClean
| CleanCancelled
| Cleaned (deleted total : nat) (errors : list string).

(** The answer that [confirmDeletion] resolves with, for the line that the
    user typed at the question. *)
Definition confirmDeletion (answer : string) : bool :=
  String.eqb (JsText.trim (JsText.toLowerCase answer)) "y" ||
  String.eqb (JsText.trim (JsText.toLowerCase answer)) "yes".

Definition unlinkOne (acc : nat * list string) (command : CommandFile.t)
  : M (nat * list string) :=
  tryCatch
    (Fs.unlinkSync (CommandFile.path command);;
     mret (S acc.1, acc.2))
    (λ error,
       mret (acc.1, acc.2 ++ ["Failed to delete " +:+
                               CommandFile.relativePath command +:+ ": " +:+
                               errorText error])).

Section Commands.
Context (host : Host).

(** [answer] is the line typed at the confirmation question, which is asked
    only without the [yes] option and when there is something to delete. *)
Definition cleanCommands (options : CleanOptions.t) (answer : string)
  : M CleanReport :=
  tryCatch
    (let scope := CleanOptions.scope options in
     if negb (validScope scope) then
       throw (JsError "Scope must be one of: project, user, both")
     else
     commands ← discoverCommands host scope;
     generatedCommands ←
       filterM (λ command, isGeneratedFile (CommandFile.path command)) commands;
     if bool_decide (length generatedCommands = 0) then mret NothingToClean else
     if negb (CleanOptions.yes options) && negb (confirmDeletion answer)
     then mret CleanCancelled else
     acc ← forOf generatedCommands unlinkOne (0, []);
     mret (Cleaned acc.1 (length generatedCommands) acc.2))
    (λ error, throw (JsError ("Clean failed: " +:+ errorText error))).

(** ** The init command (commands/init.ts)

    The printed lines are not modelled. *)

Definition initializeProjectStructure : M () :=
  let claudeDir := getProjectClaudeDir host in
  let agentsDir := getProjectAgentsDir host in
  let commandsDir := getProjectCommandsDir host in
  Fs.mkdirSync claudeDir;;
  Fs.mkdirSync agentsDir;;
  Fs.mkdirSync commandsDir;;
  let exampleAgentPath := agentsDir +:+ "/example-agent.md" in
  ex ← Fs.existsSync exampleAgentPath;
  (if negb ex then Fs.writeFileSync exampleAgentPath exampleAgent else mret ());;
  let readmePath := claudeDir +:+ "/README.md" in
  ex ← Fs.existsSync readmePath;
  if negb ex then Fs.writeFileSync readmePath readme else mret ().

Definition initializeUserStructure : M () :=
  let claudeDir := getUserClaudeDir host in
  let agentsDir := getUserAgentsDir host in
  let commandsDir := getUserCommandsDir host in
  Fs.mkdirSync claudeDir;;
  Fs.mkdirSync agentsDir;;
  Fs.mkdirSync commandsDir;;
  let productivityAgentPath := agentsDir +:+ "/productivity-helper.md" in
  ex ← Fs.existsSync productivityAgentPath;
  if negb ex then Fs.writeFileSync productivityAgentPath productivityAgent
  else mret ().

Definition initializeStructure (global : bool) : M () :=
  tryCatch
    (if global then initializeUserStructure else initializeProjectStructure)
    (λ error, throw (JsError ("Failed to initialize: " +:+ errorText error))).

End Commands.

(** ** Grouping of agents by directory (commands/interactive.ts)

    The grouping step of [exploreByCategory]; the prompts and the printed
    lines around it are not modelled. *)

(** The category of an agent: the first segment of its relative path when
    the path has a slash, the category of the top level otherwise. *)
Definition categoryOf (agent : AgentFile.t) : string :=
  if Js.includes "/" (AgentFile.relativePath agent)
  then default EmptyString (head (Js.split "/" (AgentFile.relativePath agent)))
  else "root".

(** The [Map] from categories to agents keeps its keys in the order of
    their insertion: an association list.  [pushTo] appends the agent to
    the list of its category, which it creates at the end when new. *)
Fixpoint pushTo (dir : string) (agent : AgentFile.t)
  (categories : list (string * list AgentFile.t))
  : list (string * list AgentFile.t) :=
  match categories with
  | [] => [(dir, [agent])]
  | (d, l) :: rest =>
      if String.eqb d dir then (d, l ++ [agent]) :: rest
      else (d, l) :: pushTo dir agent rest
  end.

Definition categoriesOf (agents : list AgentFile.t)
  : list (string * list AgentFile.t) :=
  foldl (λ categories agent, pushTo (categoryOf agent) agent categories) [] agents.

(** ** Notions used to state the properties *)


(** What the init command sets up, in the order of its steps: for the
    project, the three directories, the example agent and the README; for
    the user, the three directories and the productivity agent. *)
Definition projectStructure (host : Host) : list (string * node) :=
  [ (getProjectClaudeDir host, Directory);
    (getProjectAgentsDir host, Directory);
    (getProjectCommandsDir host, Directory);
    (getProjectAgentsDir host +:+ "/example-agent.md", File exampleAgent true true);
    (getProjectClaudeDir host +:+ "/README.md", File readme true true) ].

Definition userStructure (host : Host) : list (string * node) :=
  [ (getUserClaudeDir host, Directory);
    (getUserAgentsDir host, Directory);
    (getUserCommandsDir host, Directory);
    (getUserAgentsDir host +:+ "/productivity-helper.md",
       File productivityAgent true true) ].

Definition structureOf (host : Host) (global : bool) : list (string * node) :=
  if global then userStructure host else projectStructure host.

(** The directories among them. *)
Definition directoriesOf (host : Host) (global : bool) : list string :=
  (take 3 (structureOf host global)).*1.



(** The header data that [parseAgentFile] works with for the file at
    [path]: the file is readable and its text decodes to [g], either as it
    is or, when that fails, after the repair pass. *)
Definition decodesTo (host : Host) (disk : gmap string node) (path : string)
  (g : GrayMatterFile.t) : Prop :=
  ∃ content writable,
    disk !! path = Some (File content true writable) ∧
    (matter host content = Ok g ∨
     ∃ e, matter host content = Threw e ∧
          matter host (fixFrontmatter content) = Ok g).


Definition notChar (c : ascii) (x : ascii) : bool := negb (Ascii.eqb x c).

(** ** The decoder's reading of a double-quoted scalar

    The metadata decoder (gray-matter over js-yaml) is a library, not part
    of the program. The round trip of the repair pass is stated against
    the following model of how a YAML decoder reads a double-quoted scalar
    that stands alone on the rest of its line: a backslash followed by a
    double quote or by a backslash stands for that character, an unescaped
    double quote ends the scalar and must end the line, and a character
    that YAML does not count as printable is rejected. The other escape
    sequences and line folding are outside the model, which answers [None]
    for them as it does for the texts the decoder rejects. *)

(** The code units below 256 that the decoder accepts inside a line. *)
Definition isPrintable (c : ascii) : bool :=
  Ascii.eqb c "009" || Js.between 32 126 c || (Js.code c =? 133) ||
  Js.between 160 255 c.

Fixpoint readQuotedTail (s : string) : option string :=
  match s with
  | EmptyString => None
  | String c t =>
      if Ascii.eqb c "034" then
        match t with EmptyString => Some EmptyString | _ => None end
      else if Ascii.eqb c "\" then
        match t with
        | String d t' =>
            if Ascii.eqb d "034" || Ascii.eqb d "\"
            then String d <$> readQuotedTail t'
            else None
        | EmptyString => None
        end
      else if isPrintable c then String c <$> readQuotedTail t
      else None
  end.

Definition readDoubleQuoted (s : string) : option string :=
  match s with
  | String c t => if Ascii.eqb c "034" then readQuotedTail t else None
  | EmptyString => None
  end.

(** The characters that a double-quoted scalar carries as they are, the
    double quote included since the repair pass escapes it. *)
Definition isLiteral (c : ascii) : bool :=
  isPrintable c && negb (Ascii.eqb c "\").

(** ** Sample data *)

Definition sampleAgent (name : string) : AgentFile.t :=
  AgentFile.mk ("/work/.claude/agents/" +:+ name +:+ ".md") (name +:+ ".md")
    (AgentFrontmatter.mk name "A sample agent" None None)
    "Do the work." project.


(** A small host for the examples: [sampleGlob] lists the files of the disk
    below the directory of the pattern whose name ends in the markdown
    extension; [sampleMatter] reads the header lines of shape key, colon,
    value, keeps [name] and [description], strips the quotes of a quoted
    value and rejects an unquoted value that contains a colon followed by a
    space; [sampleRelative] drops the base directory and the separator. *)
Definition endsWith (suffix s : string) : bool :=
  Js.startsWith (String.rev suffix) (String.rev s).

Definition isFile (n : node) : bool :=
  match n with File _ _ _ => true | Directory => false end.

Definition sampleGlob (disk : gmap string node) (pattern : string)
  : result (list string) :=
  let root := Js.take (String.length pattern - 7) pattern in
  Ok ((map_to_list (filter (λ kv, isFile kv.2 = true ∧
                                  Js.startsWith root kv.1 = true ∧
                                  endsWith ".md" kv.1 = true) disk)).*1).

Definition setField (key value : string) (d : Frontmatter.t) : Frontmatter.t :=
  if String.eqb key "name" then
    Frontmatter.mk (Some value) (Frontmatter.description d) (Frontmatter.tools d)
      (Frontmatter.model d) (Frontmatter.argument_hint d) (Frontmatter.allowed_tools d)
  else if String.eqb key "description" then
    Frontmatter.mk (Frontmatter.name d) (Some value) (Frontmatter.tools d)
      (Frontmatter.model d) (Frontmatter.argument_hint d) (Frontmatter.allowed_tools d)
  else d.

Fixpoint sampleFields (lines : list string) (d : Frontmatter.t)
  : result Frontmatter.t :=
  match lines with
  | [] => Ok d
  | line :: rest =>
      match keyValMatch line with
      | Some (key, value) =>
          if Js.startsWith DQ value then
            sampleFields rest
              (setField key (Js.take (String.length value - 2) (Js.drop 1 value)) d)
          else if Js.includes ": " value then
            Threw (JsError ("bad indentation of a mapping entry: " +:+ line))
          else sampleFields rest (setField key value d)
      | None => sampleFields rest d
      end
  end.

Definition sampleMatter (text : string) : result GrayMatterFile.t :=
  match matchHeader text with
  | None => Ok (GrayMatterFile.mk Frontmatter.empty text)
  | Some header =>
      match sampleFields (Js.split "010" header) Frontmatter.empty with
      | Ok d => Ok (GrayMatterFile.mk d (Js.drop (String.length header + 9) text))
      | Threw e => Threw e
      end
  end.

Definition sampleRelative (base path : string) : string :=
  Js.drop (String.length base + 1) path.

Definition sampleHost : Host :=
  mkHost "/work" "/home/me" sampleGlob sampleMatter sampleRelative.

Definition agentText (name description body : string) : string :=
  "---" +:+ LF +:+ "name: " +:+ name +:+ LF +:+
  "description: " +:+ description +:+ LF +:+ "---" +:+ LF +:+ body.

(** A disk with four agent files (two well-formed, one without description,
    one that needs the repair pass) and three command files (one generated
    orphan, one hand-authored, one generated in a subdirectory). *)
Definition sampleDisk : gmap string node :=
  list_to_map [
    ("/work/.claude/agents", Directory);
    ("/work/.claude/agents/a.md", File (agentText "foo" "d" "A") true true);
    ("/work/.claude/agents/sub/b.md", File (agentText "bar" "d2" "B") true true);
    ("/work/.claude/agents/nodesc.md",
       File ("---" +:+ LF +:+ "name: lonely" +:+ LF +:+ "---" +:+ LF +:+ "N") true true);
    ("/work/.claude/agents/colon.md",
       File (agentText "colon" "Use when: always" "C") true true);
    ("/work/.claude/commands", Directory);
    ("/work/.claude/commands/old-agent.md",
       File ("Old" +:+ LF +:+ machineMarker) true true);
    ("/work/.claude/commands/notes.md", File "My notes" true true);
    ("/work/.claude/commands/sub/nested.md",
       File ("Nested" +:+ LF +:+ humanMarker) true true)
  ].

Definition sampleWorld : World := mkWorld sampleDisk [] [].

(** A text that the sample decoder rejects twice: the first line of the
    header is rejected as it is and accepted once re-quoted; the second
    line is left alone by the repair pass and rejected on the second
    attempt. *)
Definition brokenText : string :=
  "---" +:+ LF +:+ "name: x: y" +:+ LF +:+
  "description: [a: b" +:+ LF +:+ "---" +:+ LF +:+ "Body".





(** A disk without agent files that still holds a generated command, at the
    top of the commands directory and in a subdirectory. *)
Definition orphanDisk : gmap string node :=
  list_to_map [
    ("/work/.claude/agents", Directory);
    ("/work/.claude/commands", Directory);
    ("/work/.claude/commands/old-agent.md",
       File ("Old" +:+ LF +:+ machineMarker) true true);
    ("/work/.claude/commands/sub/nested.md",
       File ("Nested" +:+ LF +:+ humanMarker) true true)
  ].

Definition orphanWorld : World := mkWorld orphanDisk [] [].

(** A disk with failures in the middle of each batch: an unreadable agent
    file beside a well-formed one, and two generated orphans of which the
    first cannot be removed. *)
Definition lockedDisk : gmap string node :=
  list_to_map [
    ("/work/.claude/agents", Directory);
    ("/work/.claude/agents/a.md", File (agentText "foo" "d" "A") true true);
    ("/work/.claude/agents/b.md", File (agentText "bar" "d2" "B") false true);
    ("/work/.claude/commands", Directory);
    ("/work/.claude/commands/gone-1.md",
       File ("One" +:+ LF +:+ machineMarker) true false);
    ("/work/.claude/commands/gone-2.md",
       File ("Two" +:+ LF +:+ machineMarker) true true)
  ].

Definition lockedWorld : World := mkWorld lockedDisk [] [].

(** An agent text whose description holds a colon and a doubled dollar
    sign, and two texts whose descriptions differ only in the number of
    dollar signs. *)
Definition dollarText (value : string) : string :=
  "---" +:+ LF +:+ "name: price" +:+ LF +:+
  "description: " +:+ value +:+ LF +:+ "---" +:+ LF +:+ "Body".

(** Unfolding of the monad and of the primitives that only read. *)
Ltac unfold_M :=
  unfold mbind, M_bind, mret, M_ret, tryCatch, throw, callMatter, callGlob,
    Fs.existsSync, Fs.readFileSync, Logger.debug, Logger.warning, Logger.log in *.

(** * Properties *)

(** ** Strings *)

Lemma app_cons (c : ascii) (s t : string) :
  String c s +:+ t = String c (s +:+ t).
Proof. reflexivity. Qed.

Lemma app_empty_l (s : string) : EmptyString +:+ s = s.
Proof. reflexivity. Qed.

Lemma app_empty_r (s : string) : s +:+ EmptyString = s.
Proof. induction s as [|c s IH]; [done|]. by rewrite app_cons, IH. Qed.

Lemma app_assoc_s (a b c : string) : (a +:+ b) +:+ c = a +:+ (b +:+ c).
Proof. induction a as [|x a IH]; [done|]. by rewrite !app_cons, IH. Qed.

Lemma app_length_s (a b : string) :
  String.length (a +:+ b) = String.length a + String.length b.
Proof. induction a as [|x a IH]; [done|]. rewrite app_cons. simpl. by rewrite IH. Qed.

Lemma ascii_eqb_true (a b : ascii) : Ascii.eqb a b = true ↔ a = b.
Proof. apply Ascii.eqb_eq. Qed.

Lemma startsWith_iff (p s : string) :
  Js.startsWith p s = true ↔ ∃ t, s = p +:+ t.
Proof.
  revert s. induction p as [|a p IH]; intros s; simpl.
  - split; [intros _; by exists s|done].
  - destruct s as [|b s].
    + split; [done|]. intros [t Ht]. by rewrite app_cons in Ht.
    + rewrite andb_true_iff, ascii_eqb_true, IH. split.
      * intros [-> [t ->]]. by exists t.
      * intros [t Ht]. rewrite app_cons in Ht. injection Ht as -> ->. eauto.
Qed.

Lemma startsWith_app (p s : string) : Js.startsWith p (p +:+ s) = true.
Proof. apply startsWith_iff. by exists s. Qed.

Lemma includes_iff (p s : string) :
  Js.includes p s = true ↔ ∃ a z, s = a +:+ p +:+ z.
Proof.
  induction s as [|c s IH]; simpl.
  - rewrite orb_false_r, startsWith_iff. split.
    + intros [t Ht]. by exists EmptyString, t.
    + intros [[|x a] [z Hz]]; [by exists z|by rewrite app_cons in Hz].
  - rewrite orb_true_iff, startsWith_iff, IH. split.
    + intros [[t Ht]|(a & z & ->)].
      * by exists EmptyString, t.
      * by exists (String c a), z.
    + intros [[|x a] [z Hz]].
      * left. by exists z.
      * right. rewrite app_cons in Hz. injection Hz as -> ->. by exists a, z.
Qed.

(** ** Detection of generated files *)

(** C5. [isGeneratedFile] never throws and leaves the world as it is; it
    answers true exactly when the path holds a readable file whose text
    contains the human-readable phrase or the machine comment marker, and
    so answers false for an absent path, an unreadable file, a directory
    and a text with neither marker. *)
Theorem isGeneratedFile_spec (w : World) (filePath : string) :
  ∃ b : bool,
    isGeneratedFile filePath w = (Ok b, w) ∧
    (b = true ↔
     ∃ content writable,
       fs w !! filePath = Some (File content true writable) ∧
       ((∃ a z, content = a +:+ humanMarker +:+ z) ∨
        (∃ a z, content = a +:+ machineMarker +:+ z))).
Proof.
  unfold isGeneratedFile, mbind, M_bind, Fs.existsSync, tryCatch, Fs.readFileSync.
  destruct (fs w !! filePath) as [[content [] wr|]|] eqn:Hnode.
  - rewrite bool_decide_true by eauto. simpl. rewrite Hnode. simpl.
    eexists; split; [reflexivity|].
    rewrite orb_true_iff, !includes_iff. split.
    + intros H. exists content, wr. split; [done|]. destruct H; [by left|by right].
    + intros (c' & wr' & [= <- <-] & H). destruct H; [by left|by right].
  - rewrite bool_decide_true by eauto. simpl. rewrite Hnode. simpl.
    exists false. split; [done|]. split; [done|]. by intros (? & ? & [=] & _).
  - rewrite bool_decide_true by eauto. simpl. rewrite Hnode. simpl.
    exists false. split; [done|]. split; [done|]. by intros (? & ? & [=] & _).
  - rewrite bool_decide_false by (intros [? ?]; done). simpl.
    exists false. split; [done|]. split; [done|]. by intros (? & ? & [=] & _).
Qed.

(** ** Command names *)

Lemma toLowerChar_lowerAlnum (c : ascii) :
  isLowerAlnum c = true → Js.toLowerChar c = c.
Proof. destruct c as [[] [] [] [] [] [] [] []]; vm_compute; congruence. Qed.


(** The output of [hyphenate] is a fixed point of lower-casing and of
    [hyphenate] itself. *)
Lemma hyphenate_fixed (s : string) (inRun : bool) :
  Js.toLowerCase (hyphenate inRun s) = hyphenate inRun s ∧
  hyphenate false (hyphenate inRun s) = hyphenate inRun s ∧
  (inRun = true → hyphenate true (hyphenate inRun s) = hyphenate inRun s).
Proof.
  revert inRun. induction s as [|c s IH]; intros inRun; [done|].
  simpl. destruct (isLowerAlnum c) eqn:Hc.
  - destruct (IH false) as (Hl & Hf & _). simpl.
    rewrite Hc, Hl, Hf, (toLowerChar_lowerAlnum c Hc). done.
  - destruct inRun.
    + apply IH.
    + destruct (IH true) as (Hl & Hf & Ht). simpl.
      rewrite Hl, (Ht eq_refl). done.
Qed.

(** C9. [generateCommandName] is a function of its argument alone (equal
    inputs give equal outputs) and is idempotent. *)
Theorem generateCommandName_idempotent (x : string) :
  (∀ y, y = x → generateCommandName y = generateCommandName x) ∧
  generateCommandName (generateCommandName x) = generateCommandName x.
Proof.
  split; [by intros y ->|].
  unfold generateCommandName.
  destruct (hyphenate_fixed (Js.toLowerCase x) false) as (Hl & Hf & _).
  by rewrite Hl, Hf.
Qed.

(** ** Resolution of naming conflicts *)

Lemma suffixed_inj (base : string) (i j : nat) :
  suffixed base i = suffixed base j → i = j.
Proof.
  unfold suffixed. intros H.
  apply (inj (String.app base)) in H.
  apply (inj (String.app "-")) in H.
  by apply (inj pretty) in H.
Qed.

Lemma suffixed_ne_base (base : string) (i : nat) : suffixed base i ≠ base.
Proof.
  unfold suffixed. intros H.
  rewrite <- (app_empty_r base) in H at 2.
  apply (inj (String.app base)) in H. done.
Qed.

(** What the retry loop returns: a suffixed candidate whose predecessors
    from the starting counter on are all claimed, and which is unclaimed
    unless the bound was reached. *)
Lemma retry_spec (fuel : nat) (usedNames : gset string) (base : string) (n : nat) :
  ∃ m, retry fuel usedNames base n = suffixed base m ∧
       (n ≤ m ≤ n + fuel) ∧
       (∀ j, n ≤ j < m → suffixed base j ∈ usedNames) ∧
       (m < n + fuel → suffixed base m ∉ usedNames).
Proof.
  revert n. induction fuel as [|fuel IH]; intros n; simpl.
  - exists n. split_and!; [done|lia|lia|intros; lia|lia].
  - destruct (decide (suffixed base n ∈ usedNames)) as [Hin|Hout].
    + destruct (IH (S n)) as (m & -> & Hm & Hall & Hfresh).
      exists m. split_and!; [done|lia|lia| |intros; apply Hfresh; lia].
      intros j Hj. destruct (decide (j = n)) as [->|]; [done|]. apply Hall. lia.
    + exists n. split_and!; [done|lia|lia|intros; lia|done].
Qed.

(** Pigeonhole: distinct strings that are all claimed are no more than the
    claimed names. *)
Lemma claimed_length (l : list string) (usedNames : gset string) :
  NoDup l → (∀ x, x ∈ l → x ∈ usedNames) → length l ≤ size usedNames.
Proof.
  intros Hnd Hall.
  rewrite <- (size_list_to_set (C := gset string) l Hnd).
  apply subseteq_size. intros x Hx. apply Hall. by apply elem_of_list_to_set in Hx.
Qed.

Lemma unclaimed_shape (usedNames : gset string) (base : string) :
  ((base ∉ usedNames) ∧ unclaimed usedNames base = base) ∨
  (base ∈ usedNames ∧ ∃ k, 2 ≤ k ∧ unclaimed usedNames base = suffixed base k ∧
                            suffixed base k ∉ usedNames).
Proof.
  unfold unclaimed. destruct (decide (base ∈ usedNames)) as [Hin|Hout]; [right|by left].
  split; [done|].
  destruct (retry_spec (size usedNames) usedNames base 2) as (m & Hm & Hb & Hall & Hfresh).
  exists m. split_and!; [lia|done|].
  destruct (decide (m < 2 + size usedNames)) as [Hlt|Hge]; [by apply Hfresh|].
  assert (m = 2 + size usedNames) as -> by lia.
  exfalso.
  pose (l := base :: (suffixed base <$> seq 2 (size usedNames))).
  assert (length l ≤ size usedNames) as Hlen.
  { apply claimed_length.
    - apply NoDup_cons. split.
      + intros (j & Hj & _)%list_elem_of_fmap. by apply eq_sym, suffixed_ne_base in Hj.
      + apply NoDup_fmap_2; [|apply NoDup_seq].
        intros i j. apply suffixed_inj.
    - intros x [->|(j & -> & Hj%elem_of_seq)%list_elem_of_fmap]%elem_of_cons; [done|].
      apply Hall. lia. }
  subst l. simpl in Hlen. rewrite length_fmap, length_seq in Hlen. lia.
Qed.

(** The identifier chosen for an agent is never one already claimed. *)
Lemma unclaimed_fresh (usedNames : gset string) (base : string) :
  unclaimed usedNames base ∉ usedNames.
Proof.
  destruct (unclaimed_shape usedNames base) as [[? ->]|(_ & k & _ & -> & ?)]; done.
Qed.

Lemma resolveFrom_cons (st : gmap string string * gset string)
  (a : AgentFile.t) (agents : list AgentFile.t) :
  resolveFrom st (a :: agents) = resolveFrom (resolveStep st a) agents.
Proof. reflexivity. Qed.

Lemma resolveFrom_app (st : gmap string string * gset string)
  (l1 l2 : list AgentFile.t) :
  resolveFrom st (l1 ++ l2) = resolveFrom (resolveFrom st l1) l2.
Proof. unfold resolveFrom. apply foldl_app. Qed.

Lemma resolveStep_claims (st : gmap string string * gset string) (a : AgentFile.t) :
  generateCommandName (AgentFile.name a) ∈ (resolveStep st a).2.
Proof.
  unfold resolveStep. simpl.
  destruct (unclaimed_shape st.2 (generateCommandName (AgentFile.name a)))
    as [[_ ->]|(Hin & _)]; set_solver.
Qed.


Lemma resolveFrom_lookup_other (agents : list AgentFile.t)
  (st : gmap string string * gset string) (n : string) :
  n ∉ AgentFile.name <$> agents →
  (resolveFrom st agents).1 !! n = st.1 !! n.
Proof.
  revert st. induction agents as [|a agents IH]; intros st Hn; [done|].
  rewrite fmap_cons, not_elem_of_cons in Hn. destruct Hn as [Hne Hn].
  rewrite resolveFrom_cons, IH by done.
  unfold resolveStep. simpl. by apply lookup_insert_ne.
Qed.

Lemma resolveFrom_dom (agents : list AgentFile.t)
  (st : gmap string string * gset string) (n : string) :
  is_Some ((resolveFrom st agents).1 !! n) ↔
  is_Some (st.1 !! n) ∨ n ∈ AgentFile.name <$> agents.
Proof.
  revert st. induction agents as [|a agents IH]; intros st.
  - simpl. rewrite elem_of_nil. tauto.
  - rewrite resolveFrom_cons, IH. unfold resolveStep. simpl.
    rewrite lookup_insert_is_Some, elem_of_cons.
    destruct (decide (AgentFile.name a = n)); naive_solver.
Qed.

(** The invariant of the pass: every assigned identifier is claimed, and no
    identifier is assigned to two logical names. *)
Lemma resolveFrom_invariant (agents : list AgentFile.t)
  (st : gmap string string * gset string) :
  (∀ k v, st.1 !! k = Some v → v ∈ st.2) →
  (∀ k1 k2 v, st.1 !! k1 = Some v → st.1 !! k2 = Some v → k1 = k2) →
  (∀ k v, (resolveFrom st agents).1 !! k = Some v → v ∈ (resolveFrom st agents).2) ∧
  (∀ k1 k2 v, (resolveFrom st agents).1 !! k1 = Some v →
              (resolveFrom st agents).1 !! k2 = Some v → k1 = k2).
Proof.
  revert st. induction agents as [|a agents IH]; intros st Hused Hinj; [done|].
  rewrite resolveFrom_cons. apply IH; unfold resolveStep; simpl.
  - intros k v. rewrite lookup_insert_Some.
    intros [[_ <-]|[_ Hk]]; [set_solver|]. apply Hused in Hk. set_solver.
  - pose proof (unclaimed_fresh st.2 (generateCommandName (AgentFile.name a))) as Hfresh.
    intros k1 k2 v. rewrite !lookup_insert_Some.
    intros [[<- <-]|[? H1]] [[<- Hv]|[? H2]]; try done.
    + apply Hused in H2. done.
    + subst v. apply Hused in H1. done.
    + eauto.
Qed.

(** An agent whose derived name is already claimed ends with a suffixed
    identifier. *)
Lemma resolveFrom_suffixed (agents : list AgentFile.t)
  (st : gmap string string * gset string) (n : string) :
  n ∈ AgentFile.name <$> agents →
  generateCommandName n ∈ st.2 →
  ∃ k, 2 ≤ k ∧
       (resolveFrom st agents).1 !! n = Some (suffixed (generateCommandName n) k).
Proof.
  revert st. induction agents as [|a agents IH]; intros st Hn Hclaimed.
  - by apply elem_of_nil in Hn.
  - rewrite resolveFrom_cons.
    destruct (decide (n ∈ AgentFile.name <$> agents)) as [Hlater|Hlast].
    + apply IH; [done|]. unfold resolveStep. simpl. set_solver.
    + rewrite fmap_cons, elem_of_cons in Hn. destruct Hn as [->|]; [|done].
      rewrite resolveFrom_lookup_other by done.
      unfold resolveStep. simpl. rewrite lookup_insert_eq.
      destruct (unclaimed_shape st.2 (generateCommandName (AgentFile.name a)))
        as [[Hout _]|(_ & k & Hk & -> & _)]; [done|]. eauto.
Qed.

(** C3, as amended. For every list of agents the map of
    [resolveNamingConflicts] has an entry exactly for the logical names of
    the list; no identifier is assigned to two logical names; an agent
    that comes after another agent with the same derived name is assigned
    that name with a numeric suffix of at least 2; and an agent whose
    derived name no earlier agent has claimed, and whose logical name does
    not occur again later, is assigned the derived name without suffix. *)
Theorem resolveNamingConflicts_spec (agents : list AgentFile.t) :
  (∀ n, is_Some (resolveNamingConflicts agents !! n) ↔
        n ∈ AgentFile.name <$> agents) ∧
  (∀ n1 n2 v, resolveNamingConflicts agents !! n1 = Some v →
              resolveNamingConflicts agents !! n2 = Some v → n1 = n2) ∧
  (∀ pre a mid b post,
     agents = pre ++ a :: mid ++ b :: post →
     generateCommandName (AgentFile.name a) = generateCommandName (AgentFile.name b) →
     ∃ k, 2 ≤ k ∧
          resolveNamingConflicts agents !! AgentFile.name b =
          Some (suffixed (generateCommandName (AgentFile.name b)) k)) ∧
  (∀ pre a post,
     agents = pre ++ a :: post →
     generateCommandName (AgentFile.name a) ∉ (resolveFrom (∅, ∅) pre).2 →
     AgentFile.name a ∉ AgentFile.name <$> post →
     resolveNamingConflicts agents !! AgentFile.name a =
     Some (generateCommandName (AgentFile.name a))).
Proof.
  unfold resolveNamingConflicts. split_and!.
  - intros n. rewrite resolveFrom_dom. simpl. rewrite lookup_empty.
    split; [intros [[? [=]]|]; done|by right].
  - apply resolveFrom_invariant; simpl; intros *; by rewrite lookup_empty.
  - intros pre a mid b post -> Heq.
    rewrite (resolveFrom_app _ pre), resolveFrom_cons.
    apply resolveFrom_suffixed; [set_solver|].
    rewrite <- Heq. apply resolveStep_claims.
  - intros pre a post -> Hfree Hlast.
    rewrite (resolveFrom_app _ pre), resolveFrom_cons.
    rewrite resolveFrom_lookup_other by done.
    unfold resolveStep. simpl. rewrite lookup_insert_eq.
    destruct (unclaimed_shape (resolveFrom (∅, ∅) pre).2
                (generateCommandName (AgentFile.name a)))
      as [[_ ->]|(Hin & _)]; done.
Qed.

(** The scenario of the spec: two agents whose names derive to the same
    identifier. *)
Example resolveNamingConflicts_scenario :
  resolveNamingConflicts [sampleAgent "Test Agent"; sampleAgent "test-agent"] =
  {[ "Test Agent" := "test-agent"; "test-agent" := "test-agent-2" ]}.
Proof. vm_compute. reflexivity. Qed.

(** C3, as stated, fails: [Test Agent 2] and [test-agent-2] are distinct
    logical names that derive to the same identifier, and the earlier of
    the two does not receive it unsuffixed, because the second agent of the
    list has already been assigned it as its suffixed name. *)
Lemma resolveNamingConflicts_earlier_not_unsuffixed :
  let agents := [sampleAgent "Test Agent"; sampleAgent "test-agent";
                 sampleAgent "Test Agent 2"; sampleAgent "test-agent-2"] in
  generateCommandName "Test Agent 2" = "test-agent-2" ∧
  generateCommandName "test-agent-2" = "test-agent-2" ∧
  resolveNamingConflicts agents !! "test-agent" = Some "test-agent-2" ∧
  resolveNamingConflicts agents !! "Test Agent 2" = Some "test-agent-2-2" ∧
  resolveNamingConflicts agents !! "test-agent-2" = Some "test-agent-2-3".
Proof. vm_compute. repeat split. Qed.

(** The amended C3 at the scenario of the spec. *)
Lemma resolveNamingConflicts_spec_witness :
  resolveNamingConflicts [sampleAgent "Test Agent"; sampleAgent "test-agent"]
    !! "Test Agent" = Some "test-agent" ∧
  ∃ k, 2 ≤ k ∧
       resolveNamingConflicts [sampleAgent "Test Agent"; sampleAgent "test-agent"]
         !! "test-agent" = Some (suffixed "test-agent" k).
Proof.
  pose proof (resolveNamingConflicts_spec
                [sampleAgent "Test Agent"; sampleAgent "test-agent"])
    as (_ & _ & Hlater & Hfirst).
  split.
  - apply (Hfirst [] (sampleAgent "Test Agent") [sampleAgent "test-agent"]).
    + reflexivity.
    + apply not_elem_of_empty.
    + vm_compute. intros H. inversion H as [|? ? ? H']; subst. inversion H'.
  - apply (Hlater [] (sampleAgent "Test Agent") [] (sampleAgent "test-agent") []).
    + reflexivity.
    + vm_compute. reflexivity.
Defined.

(** ** Parsing of agent files *)


Lemma truthy_Some (o : option string) :
  truthy o = true → ∃ s, o = Some s ∧ s ≠ EmptyString ∧ default EmptyString o = s.
Proof. destruct o as [[|c s]|]; [done| |done]. intros _. by exists (String c s). Qed.


(** [parseAgentFile] reads the disk and never changes it. *)
Lemma parseAgentFile_fs (host : Host) (p base : string) (sc : Scope) (w : World) :
  fs (parseAgentFile host p base sc w).2 = fs w.
Proof.
  unfold parseAgentFile. unfold_M.
  destruct (bool_decide _); simpl; [|done].
  destruct (fs w !! p) as [[c [] wr|]|]; simpl; try done.
  destruct (matter host c); simpl.
  - destruct (truthy _ && truthy _); done.
  - destruct (matter host (fixFrontmatter c)); simpl; [|done].
    destruct (truthy _ && truthy _); done.
Qed.

(** Its result depends on the disk alone, not on the console or on the
    record of decoder calls. *)
Lemma parseAgentFile_result (host : Host) (p base : string) (sc : Scope)
  (w1 w2 : World) :
  fs w1 = fs w2 →
  (parseAgentFile host p base sc w1).1 = (parseAgentFile host p base sc w2).1.
Proof.
  intros Hfs. unfold parseAgentFile. unfold_M. rewrite Hfs.
  destruct (bool_decide _); simpl; [|done]. rewrite Hfs.
  destruct (fs w2 !! p) as [[c [] wr|]|]; simpl; try done.
  destruct (matter host c); simpl.
  - destruct (truthy _ && truthy _); done.
  - destruct (matter host (fixFrontmatter c)); simpl; [|done].
    destruct (truthy _ && truthy _); done.
Qed.

(** Whatever [parseAgentFile] returns as an entry has both mandatory fields
    non-empty, taken from the decoded header of that file. *)
Lemma parseAgentFile_sound (host : Host) (p base : string) (sc : Scope)
  (w : World) (a : AgentFile.t) :
  (parseAgentFile host p base sc w).1 = Ok (Some a) →
  AgentFile.path a = p ∧ AgentFile.scope a = sc ∧
  AgentFile.name a ≠ EmptyString ∧
  AgentFrontmatter.description (AgentFile.frontmatter a) ≠ EmptyString ∧
  ∃ g, decodesTo host (fs w) p g ∧
       Frontmatter.name (GrayMatterFile.data g) = Some (AgentFile.name a) ∧
       Frontmatter.description (GrayMatterFile.data g) =
         Some (AgentFrontmatter.description (AgentFile.frontmatter a)).
Proof.
  unfold parseAgentFile, decodesTo. unfold_M.
  destruct (bool_decide _); simpl; [|done].
  destruct (fs w !! p) as [[c [] wr|]|] eqn:Hp; simpl; try done.
  destruct (matter host c) as [g|e] eqn:Hm; simpl;
    [|destruct (matter host (fixFrontmatter c)) as [g|e2] eqn:Hm2; simpl; [|done]];
    (destruct (truthy (Frontmatter.name (GrayMatterFile.data g))) eqn:Hn;
       simpl; [|done];
     destruct (truthy (Frontmatter.description (GrayMatterFile.data g))) eqn:Hd;
       simpl; [|done];
     intros [= <-]; unfold AgentFile.name; simpl;
     apply truthy_Some in Hn as (n & Hn & Hn' & ->);
     apply truthy_Some in Hd as (d & Hd & Hd' & ->);
     split_and!; try done; exists g; split; [|done]; exists c, wr; split; [done|]).
  - by left.
  - right. by exists e.
Qed.

Lemma parseAgentFile_console (host : Host) (p base : string) (sc : Scope) (w : World) :
  ∃ extra, console (parseAgentFile host p base sc w).2 = console w ++ extra ∧
           ∀ x, x ∈ extra → x.1 = LDebug.
Proof.
  assert (∀ l : list (level * string),
            ∃ extra, l = l ++ extra ∧ ∀ x, x ∈ extra → x.1 = LDebug) as Hnone.
  { intros l. exists []. split; [by rewrite app_nil_r|by intros ? ?%elem_of_nil]. }
  unfold parseAgentFile. unfold_M.
  destruct (bool_decide _); simpl; [|apply Hnone].
  destruct (fs w !! p) as [[c [] wr|]|]; simpl; try apply Hnone.
  destruct (matter host c); simpl.
  - destruct (truthy _ && truthy _); simpl; [apply Hnone|].
    eexists. split; [done|]. by intros ? ->%list_elem_of_singleton.
  - destruct (matter host (fixFrontmatter c)); simpl; [|apply Hnone].
    destruct (truthy _ && truthy _); simpl.
    + eexists. split; [done|]. by intros ? ->%list_elem_of_singleton.
    + eexists. split; [by rewrite <- app_assoc|].
      intros ? [->| ->%list_elem_of_singleton]%elem_of_cons; done.
Qed.



(** One iteration of the scan of a directory: it never throws, leaves the
    disk alone, keeps what was printed, appends the entry of the file if
    there is one, and prints a warning if parsing threw. *)
Lemma scanAgentFile_spec (host : Host) (dir : string) (sc : Scope)
  (acc : list AgentFile.t) (p : string) (w : World) :
  ∃ acc' w',
    scanAgentFile host dir sc acc p w = (Ok acc', w') ∧
    fs w' = fs w ∧
    (∀ x, x ∈ console w → x ∈ console w') ∧
    match (parseAgentFile host p dir sc w).1 with
    | Ok (Some a) => acc' = acc ++ [a]
    | Ok None => acc' = acc ∧
        ∀ x, x ∈ console w' → x ∈ console w ∨ x.1 = LDebug
    | Threw e => acc' = acc ∧
        (LWarning, "Failed to parse agent file " +:+ p +:+ ": " +:+ errorText e)
          ∈ console w'
    end.
Proof.
  pose proof (parseAgentFile_fs host p dir sc w) as Hfs.
  destruct (parseAgentFile_console host p dir sc w) as (extra & Hcon & Hdebug).
  unfold scanAgentFile. unfold_M.
  destruct (parseAgentFile host p dir sc w) as [[[a|]|e] w1]; simpl in *.
  - eexists _, _. split; [done|]. simpl. split_and!; [done| |done].
    intros x Hx. rewrite Hcon. set_solver.
  - eexists _, _. split; [done|]. split_and!; [done| |done|].
    + intros x Hx. rewrite Hcon. set_solver.
    + intros x. rewrite Hcon, elem_of_app. intros [?|?]; [by left|right; eauto].
  - eexists _, _. split; [done|]. simpl. split_and!; [done| |done|].
    + intros x Hx. rewrite Hcon. set_solver.
    + set_solver.
Qed.

(** ** Loops *)

Lemma forOf_cons {A S} (x : A) (l : list A) (body : S → A → M S) (acc : S) (w : World) :
  forOf (x :: l) body acc w =
  match body acc x w with
  | (Ok acc', w') => forOf l body acc' w'
  | (Threw e, w') => (Threw e, w')
  end.
Proof. reflexivity. Qed.

(** A loop whose body never throws and maintains an invariant over the
    items already processed never throws and ends with the invariant over
    all items. *)
Lemma forOf_invariant {A S} (I : list A → S → World → Prop)
  (body : S → A → M S) (l : list A) :
  (∀ seen x acc w, I seen acc w →
     ∃ acc' w', body acc x w = (Ok acc', w') ∧ I (seen ++ [x]) acc' w') →
  ∀ seen acc w, I seen acc w →
    ∃ acc' w', forOf l body acc w = (Ok acc', w') ∧ I (seen ++ l) acc' w'.
Proof.
  intros Hbody. induction l as [|x l IH]; intros seen acc w HI.
  - exists acc, w. by rewrite app_nil_r.
  - rewrite forOf_cons.
    destruct (Hbody seen x acc w HI) as (acc1 & w1 & -> & HI1).
    destruct (IH _ _ _ HI1) as (acc2 & w2 & -> & HI2).
    exists acc2, w2. split; [done|]. by rewrite <- app_assoc in HI2.
Qed.

(** ** Discovery *)

(** The scan of the files of one directory: every file is parsed; the
    entries appended are exactly those of the files that parse to an entry,
    and every file whose parsing throws leaves a warning. *)
Lemma scanAgentFiles_spec (host : Host) (dir : string) (sc : Scope)
  (files : list string) (acc : list AgentFile.t) (w : World) :
  ∃ new w',
    forOf files (scanAgentFile host dir sc) acc w = (Ok (acc ++ new), w') ∧
    fs w' = fs w ∧
    (∀ x, x ∈ console w → x ∈ console w') ∧
    (∀ a, a ∈ new ↔
          ∃ p, p ∈ files ∧ (parseAgentFile host p dir sc w).1 = Ok (Some a)) ∧
    (∀ p e, p ∈ files → (parseAgentFile host p dir sc w).1 = Threw e →
       (LWarning, "Failed to parse agent file " +:+ p +:+ ": " +:+ errorText e)
         ∈ console w').
Proof.
  pose (I := λ (seen : list string) (acc' : list AgentFile.t) (w' : World),
    fs w' = fs w ∧
    (∀ x, x ∈ console w → x ∈ console w') ∧
    ∃ new, acc' = acc ++ new ∧
      (∀ a, a ∈ new ↔
            ∃ p, p ∈ seen ∧ (parseAgentFile host p dir sc w).1 = Ok (Some a)) ∧
      (∀ p e, p ∈ seen → (parseAgentFile host p dir sc w).1 = Threw e →
         (LWarning, "Failed to parse agent file " +:+ p +:+ ": " +:+ errorText e)
           ∈ console w')).
  destruct (forOf_invariant I (scanAgentFile host dir sc) files) with
    (seen := @nil string) (acc := acc) (w := w)
    as (acc' & w' & Hrun & Hfs & Hmono & new & -> & Hnew & Hwarn).
  - intros seen p acc1 w1 (Hfs & Hmono & new & -> & Hnew & Hwarn).
    destruct (scanAgentFile_spec host dir sc (acc ++ new) p w1)
      as (acc2 & w2 & Hrun & Hfs2 & Hmono2 & Hcase).
    rewrite (parseAgentFile_result host p dir sc w1 w Hfs) in Hcase.
    exists acc2, w2. split; [done|]. split; [congruence|]. split; [eauto|].
    destruct (parseAgentFile host p dir sc w).1 as [[a|]|e] eqn:Hp.
    + exists (new ++ [a]). split; [by rewrite Hcase, app_assoc|]. split.
      * intros b. rewrite elem_of_app, list_elem_of_singleton, Hnew. split.
        -- intros [(q & Hq & Hb)| ->]; [exists q|exists p]; set_solver.
        -- intros (q & [Hq| ->%list_elem_of_singleton]%elem_of_app & Hb).
           ++ left. eauto.
           ++ right. congruence.
      * intros q e [Hq| ->%list_elem_of_singleton]%elem_of_app Hthrew;
          [eauto|congruence].
    + destruct Hcase as [-> _]. exists new. split; [done|]. split.
      * intros b. rewrite Hnew. split.
        -- intros (q & Hq & Hb). exists q. set_solver.
        -- intros (q & [Hq| ->%list_elem_of_singleton]%elem_of_app & Hb);
             [eauto|congruence].
      * intros q e [Hq| ->%list_elem_of_singleton]%elem_of_app Hthrew;
          [eauto|congruence].
    + destruct Hcase as [-> Hw]. exists new. split; [done|]. split.
      * intros b. rewrite Hnew. split.
        -- intros (q & Hq & Hb). exists q. set_solver.
        -- intros (q & [Hq| ->%list_elem_of_singleton]%elem_of_app & Hb);
             [eauto|congruence].
      * intros q e' [Hq| ->%list_elem_of_singleton]%elem_of_app Hthrew;
          [eauto|]. by assert (e' = e) as -> by congruence.
  - unfold I. split; [done|]. split; [done|]. exists []. rewrite app_nil_r.
    split; [done|]. split; [|by intros ? ? ?%elem_of_nil].
    intros a. split; [by intros ?%elem_of_nil|by intros (? & ?%elem_of_nil & _)].
  - exists new, w'. done.
Qed.

Lemma getValidAgentsDirs_spec (host : Host) (scope : string) (w : World) :
  ∃ dirs, getValidAgentsDirs host scope w = (Ok dirs, w).
Proof.
  unfold getValidAgentsDirs. unfold_M.
  destruct (scopeIs scope "both" "project"), (scopeIs scope "both" "user");
    simpl; eauto.
Qed.

Lemma scanAgentsDir_spec (host : Host) (acc : list AgentFile.t)
  (dir : string) (sc : Scope) (w : World) :
  ∃ new w',
    scanAgentsDir host acc (dir, sc) w = (Ok (acc ++ new), w') ∧
    fs w' = fs w ∧
    (∀ x, x ∈ console w → x ∈ console w') ∧
    match glob host (fs w) (slashes (join dir "**/*.md")) with
    | Ok files =>
        (∀ a, a ∈ new ↔
              ∃ p, p ∈ files ∧ (parseAgentFile host p dir sc w).1 = Ok (Some a)) ∧
        (∀ p e, p ∈ files → (parseAgentFile host p dir sc w).1 = Threw e →
           (LWarning, "Failed to parse agent file " +:+ p +:+ ": " +:+ errorText e)
             ∈ console w')
    | Threw _ => new = []
    end.
Proof.
  unfold scanAgentsDir. unfold_M. simpl.
  destruct (glob host (fs w) (slashes (join dir "**/*.md"))) as [files|e]; simpl.
  - set (w1 := mkWorld (fs w) (console w ++ _) (decoded w)).
    destruct (scanAgentFiles_spec host dir sc files acc w1)
      as (new & w' & Hrun & Hfs & Hmono & Hnew & Hwarn).
    rewrite Hrun. exists new, w'. split; [done|]. split; [done|]. split.
    + intros x Hx. apply Hmono. subst w1. simpl. set_solver.
    + split.
      * intros a. rewrite Hnew.
        by setoid_rewrite (parseAgentFile_result host _ dir sc w1 w eq_refl).
      * intros p e' Hp He.
        rewrite <- (parseAgentFile_result host _ dir sc w1 w eq_refl) in He. eauto.
  - eexists [], _. rewrite app_nil_r. split; [done|]. simpl.
    split; [done|]. split; [|done]. set_solver.
Qed.

(** [discoverAgents] never throws and leaves the disk alone; it returns
    exactly the entries of the files found by glob under the valid agent
    directories that parse to an entry, and every file whose parsing
    throws leaves a warning on the console. *)
Lemma discoverAgents_spec (host : Host) (scope : string) (w : World) :
  ∃ dirs agents w',
    getValidAgentsDirs host scope w = (Ok dirs, w) ∧
    discoverAgents host scope w = (Ok agents, w') ∧
    fs w' = fs w ∧
    (∀ x, x ∈ console w → x ∈ console w') ∧
    (∀ a, a ∈ agents ↔
          ∃ dir sc files p,
            (dir, sc) ∈ dirs ∧
            glob host (fs w) (slashes (join dir "**/*.md")) = Ok files ∧
            p ∈ files ∧
            (parseAgentFile host p dir sc w).1 = Ok (Some a)) ∧
    (∀ dir sc files p e,
       (dir, sc) ∈ dirs →
       glob host (fs w) (slashes (join dir "**/*.md")) = Ok files →
       p ∈ files →
       (parseAgentFile host p dir sc w).1 = Threw e →
       (LWarning, "Failed to parse agent file " +:+ p +:+ ": " +:+ errorText e)
         ∈ console w').
Proof.
  destruct (getValidAgentsDirs_spec host scope w) as (dirs & Hdirs).
  exists dirs. unfold discoverAgents. unfold mbind, M_bind. rewrite Hdirs.
  pose (I := λ (seen : list (string * Scope)) (acc : list AgentFile.t) (w' : World),
    fs w' = fs w ∧
    (∀ x, x ∈ console w → x ∈ console w') ∧
    (∀ a, a ∈ acc ↔
          ∃ dir sc files p,
            (dir, sc) ∈ seen ∧
            glob host (fs w) (slashes (join dir "**/*.md")) = Ok files ∧
            p ∈ files ∧
            (parseAgentFile host p dir sc w).1 = Ok (Some a)) ∧
    (∀ dir sc files p e,
       (dir, sc) ∈ seen →
       glob host (fs w) (slashes (join dir "**/*.md")) = Ok files →
       p ∈ files →
       (parseAgentFile host p dir sc w).1 = Threw e →
       (LWarning, "Failed to parse agent file " +:+ p +:+ ": " +:+ errorText e)
         ∈ console w')).
  destruct (forOf_invariant I (scanAgentsDir host) dirs) with
    (seen := @nil (string * Scope)) (acc := @nil AgentFile.t) (w := w)
    as (agents & w' & Hrun & Hfs & Hmono & Hin & Hwarn).
  - intros seen [dir sc] acc w1 (Hfs & Hmono & Hin & Hwarn).
    destruct (scanAgentsDir_spec host acc dir sc w1)
      as (new & w2 & Hrun & Hfs2 & Hmono2 & Hcase).
    exists (acc ++ new), w2. split; [done|]. split; [congruence|].
    split; [eauto|]. rewrite Hfs in Hcase.
    destruct (glob host (fs w) (slashes (join dir "**/*.md"))) as [files|e] eqn:Hglob.
    + destruct Hcase as [Hnew Hwarn2].
      setoid_rewrite (parseAgentFile_result host _ dir sc w1 w Hfs) in Hnew.
      setoid_rewrite (parseAgentFile_result host _ dir sc w1 w Hfs) in Hwarn2.
      split.
      * intros a. rewrite elem_of_app, Hin, Hnew. split.
        -- intros [(d & s & f & p & Hd & Hg & Hp & Ha)|(p & Hp & Ha)].
           ++ exists d, s, f, p. set_solver.
           ++ exists dir, sc, files, p. set_solver.
        -- intros (d & s & f & p & [Hd|[= -> ->]%list_elem_of_singleton]%elem_of_app
                   & Hg & Hp & Ha).
           ++ left. exists d, s, f, p. done.
           ++ right. exists p. split; [congruence|done].
      * intros d s f p e [Hd|[= -> ->]%list_elem_of_singleton]%elem_of_app Hg Hp He.
        -- eauto.
        -- apply (Hwarn2 p e); [congruence|done].
    + subst new. rewrite app_nil_r. split.
      * intros a. rewrite Hin. split.
        -- intros (d & s & f & p & Hd & Hg & Hp & Ha). exists d, s, f, p. set_solver.
        -- intros (d & s & f & p & [Hd|[= -> ->]%list_elem_of_singleton]%elem_of_app
                   & Hg & Hp & Ha); [|congruence]. exists d, s, f, p. done.
      * intros d s f p e' [Hd|[= -> ->]%list_elem_of_singleton]%elem_of_app Hg Hp He;
          [eauto|congruence].
  - unfold I. split; [done|]. split; [done|]. split.
    + intros a. split; [by intros ?%elem_of_nil|].
      by intros (? & ? & ? & ? & ?%elem_of_nil & _).
    + by intros ? ? ? ? ? ?%elem_of_nil.
  - exists agents, w'. done.
Qed.




(** The scenario of the spec on the sample disk: the file in the
    subdirectory is found with its relative path, the file that needs the
    repair pass is recovered, and the file without description gives no
    entry. *)
Example discoverAgents_sample :
  (λ a, (AgentFile.name a, AgentFile.relativePath a)) <$>
    match (discoverAgents sampleHost "project" sampleWorld).1 with
    | Ok agents => agents
    | Threw _ => []
    end
  = [("bar", "sub/b.md"); ("colon", "colon.md"); ("foo", "a.md")].
Proof. vm_compute. reflexivity. Qed.


(** ** Generation *)







(** ** Discovery of commands *)

Lemma parseCommandFile_fs (host : Host) (p base : string) (sc : Scope) (w : World) :
  fs (parseCommandFile host p base sc w).2 = fs w.
Proof.
  unfold parseCommandFile. unfold_M.
  destruct (bool_decide _); simpl; [|done].
  destruct (fs w !! p) as [[c [] wr|]|]; simpl; try done.
  destruct (matter host c); done.
Qed.

Lemma scanCommandFile_spec (host : Host) (dir : string) (sc : Scope)
  (acc : list CommandFile.t) (p : string) (w : World) :
  ∃ acc' w', scanCommandFile host dir sc acc p w = (Ok acc', w') ∧ fs w' = fs w.
Proof.
  pose proof (parseCommandFile_fs host p dir sc w) as Hfs.
  unfold scanCommandFile. unfold_M.
  destruct (parseCommandFile host p dir sc w) as [[[c|]|e] w1]; simpl in *;
    eexists _, _; (split; [done|]); done.
Qed.

Lemma getValidCommandsDirs_spec (host : Host) (scope : string) (w : World) :
  ∃ dirs, getValidCommandsDirs host scope w = (Ok dirs, w).
Proof.
  unfold getValidCommandsDirs. unfold_M.
  destruct (scopeIs scope "both" "project"), (scopeIs scope "both" "user");
    simpl; eauto.
Qed.

Lemma scanCommandsDir_spec (host : Host) (acc : list CommandFile.t)
  (dir : string * Scope) (w : World) :
  ∃ acc' w', scanCommandsDir host acc dir w = (Ok acc', w') ∧ fs w' = fs w.
Proof.
  unfold scanCommandsDir. unfold_M. simpl.
  destruct (glob host (fs w) _) as [files|e]; simpl; [|eexists _, _; done].
  destruct (forOf_invariant (λ _ _ w', fs w' = fs w)
              (scanCommandFile host dir.1 dir.2) files) with
    (seen := @nil string) (acc := acc)
    (w := mkWorld (fs w)
            (console w ++ [(LDebug, "Scanning commands directory: " +:+ dir.1)])
            (decoded w))
    as (acc' & w' & Hrun & Hfs); [|done|].
  - intros _ p acc1 w1 Hfs1.
    destruct (scanCommandFile_spec host dir.1 dir.2 acc1 p w1) as (a & w2 & ? & ?).
    exists a, w2. split; [done|congruence].
  - rewrite Hrun. eauto.
Qed.

(** [discoverCommands] never throws and leaves the disk alone. *)
Lemma discoverCommands_spec (host : Host) (scope : string) (w : World) :
  ∃ commands w', discoverCommands host scope w = (Ok commands, w') ∧ fs w' = fs w.
Proof.
  unfold discoverCommands. unfold mbind, M_bind.
  destruct (getValidCommandsDirs_spec host scope w) as (dirs & ->).
  destruct (forOf_invariant (λ _ _ w', fs w' = fs w) (scanCommandsDir host) dirs)
    with (seen := @nil (string * Scope)) (acc := @nil CommandFile.t) (w := w)
    as (acc' & w' & Hrun & Hfs); [|done|eauto].
  intros _ dir acc1 w1 Hfs1.
  destruct (scanCommandsDir_spec host acc1 dir w1) as (a & w2 & ? & ?).
  exists a, w2. split; [done|congruence].
Qed.

(** ** Reconciliation *)

(** The detection of a generated file answers without throwing and leaves
    the world as it is. *)
Lemma isGeneratedFile_total (p : string) (w : World) :
  ∃ b : bool, isGeneratedFile p w = (Ok b, w).
Proof.
  unfold isGeneratedFile. unfold_M.
  destruct (bool_decide _); simpl; [|eauto].
  destruct (fs w !! p) as [[c [] wr|]|]; simpl; eauto.
Qed.

(** The filter on generated files never throws, leaves the world as it is
    and keeps exactly the commands whose file is detected as generated. *)
Lemma filterM_generated (commands : list CommandFile.t) (w : World) :
  ∃ generatedCommands,
    filterM (λ c, isGeneratedFile (CommandFile.path c)) commands w =
      (Ok generatedCommands, w) ∧
    ∀ c, c ∈ generatedCommands ↔
         c ∈ commands ∧ (isGeneratedFile (CommandFile.path c) w).1 = Ok true.
Proof.
  induction commands as [|c commands (kept & IH & Hkept)]; simpl.
  - exists []. split; [done|]. intros c. rewrite elem_of_nil. tauto.
  - unfold mbind, M_bind, mret, M_ret in *.
    destruct (isGeneratedFile_total (CommandFile.path c) w) as (b & Hb).
    rewrite Hb, IH. eexists. split; [done|].
    intros c'. destruct b; rewrite !elem_of_cons, Hkept.
    + split; [|tauto].
      intros [->|[? ?]]; [split; [by left|by rewrite Hb]|tauto].
    + split; [tauto|]. intros [[->|?] Hg]; [by rewrite Hb in Hg|tauto].
Qed.

Lemma all_app (f : ascii → bool) (a b : string) :
  Js.all f (a +:+ b) = Js.all f a && Js.all f b.
Proof.
  induction a as [|c a IH]; [done|].
  rewrite app_cons. simpl. by rewrite IH, andb_assoc.
Qed.

Lemma includes_char (c : ascii) (s : string) :
  Js.includes (String c EmptyString) s = negb (Js.all (notChar c) s).
Proof.
  induction s as [|x s IH]; [done|].
  simpl. rewrite IH. unfold notChar. rewrite andb_true_r, Ascii.eqb_sym.
  by destruct (Ascii.eqb x c).
Qed.


Lemma indexOf_Some (p s : string) (i : nat) :
  Js.indexOf p s = Some i →
  ∃ a z, s = a +:+ p +:+ z ∧ Js.take i s = a ∧
         Js.drop (i + String.length p) s = z ∧ String.length a = i.
Proof.
  revert i. induction s as [|c s IH]; intros i; simpl.
  - destruct (Js.startsWith p EmptyString) eqn:Hp; [|done]. intros [= <-].
    apply startsWith_iff in Hp as [t Ht]. destruct p; [|done].
    exists EmptyString, EmptyString. done.
  - destruct (Js.startsWith p (String c s)) eqn:Hp.
    + intros [= <-]. apply startsWith_iff in Hp as [t Ht].
      exists EmptyString, t. split; [done|]. split; [done|]. split; [|done].
      rewrite Ht. clear. simpl. induction p as [|x p IH]; [by destruct t|].
      rewrite app_cons. simpl. apply IH.
    + destruct (Js.indexOf p s) as [j|] eqn:Hj; [|done]. simpl. intros [= <-].
      destruct (IH j eq_refl) as (a & z & -> & Ha & Hz & Hlen).
      exists (String c a), z. simpl. rewrite Ha, Hz, Hlen. done.
Qed.








Lemma findCommand_Some (generatedCommands : list CommandFile.t)
  (expected : option string) (c : CommandFile.t) :
  findCommand generatedCommands expected = Some c →
  c ∈ generatedCommands ∧ expected = Some (commandNameOf c).
Proof.
  intros [Hin Hc]%List.find_some. split; [by apply list_elem_of_In|].
  by apply bool_decide_eq_true in Hc.
Qed.


(** The classification loop: an agent goes to [toUpdate], paired with the
    first generated command that carries its resolved name, or to
    [toCreate] when there is none. *)
Lemma classify_spec (nameMap : gmap string string)
  (generatedCommands : list CommandFile.t) (agents : list AgentFile.t)
  (acc : list (AgentFile.t * CommandFile.t) * list AgentFile.t) :
  (∀ a c, (a, c) ∈ (foldl (classifyAgent nameMap generatedCommands) acc agents).1 ↔
          (a, c) ∈ acc.1 ∨
          (a ∈ agents ∧
           findCommand generatedCommands (nameMap !! AgentFile.name a) = Some c)) ∧
  (∀ a, a ∈ (foldl (classifyAgent nameMap generatedCommands) acc agents).2 ↔
        a ∈ acc.2 ∨
        (a ∈ agents ∧
         findCommand generatedCommands (nameMap !! AgentFile.name a) = None)).
Proof.
  revert acc. induction agents as [|x agents IH]; intros acc; simpl.
  - split; intros *; rewrite elem_of_nil; tauto.
  - destruct (IH (classifyAgent nameMap generatedCommands acc x)) as [IH1 IH2].
    unfold classifyAgent in *.
    destruct (findCommand generatedCommands (nameMap !! AgentFile.name x))
      as [cx|] eqn:Hx; simpl in *.
    + split.
      * intros a c. rewrite IH1, elem_of_app, list_elem_of_singleton, elem_of_cons.
        split; [|naive_solver]. intros [[?|[= -> ->]]|[? ?]]; eauto.
      * intros a. rewrite IH2, elem_of_cons. split; [tauto|].
        intros [?|[[->|?] ?]]; [tauto|congruence|tauto].
    + split.
      * intros a c. rewrite IH1, elem_of_cons. split; [tauto|].
        intros [?|[[->|?] ?]]; [tauto|congruence|tauto].
      * intros a. rewrite IH2, elem_of_app, list_elem_of_singleton, elem_of_cons.
        split; [|naive_solver]. intros [[?| ->]|[? ?]]; eauto.
Qed.


Lemma reconcile_toCreate (clean : bool) (agents : list AgentFile.t)
  (generatedCommands : list CommandFile.t) (a : AgentFile.t) :
  a ∈ toCreate (reconcile clean agents generatedCommands) → a ∈ agents.
Proof.
  unfold reconcile. simpl. intros Ha.
  apply classify_spec in Ha as [?%elem_of_nil|[? _]]; done.
Qed.

Lemma reconcile_toUpdate (clean : bool) (agents : list AgentFile.t)
  (generatedCommands : list CommandFile.t) (a : AgentFile.t) (c : CommandFile.t) :
  (a, c) ∈ toUpdate (reconcile clean agents generatedCommands) →
  a ∈ agents ∧ c ∈ generatedCommands ∧
  resolveNamingConflicts agents !! AgentFile.name a = Some (commandNameOf c).
Proof.
  unfold reconcile. simpl. intros Ha.
  apply classify_spec in Ha as [?%elem_of_nil|[? [? ?]%findCommand_Some]]; done.
Qed.



(** ** Execution of a sync *)


Lemma mkdirSync_effect (path : string) (w : World) (p : string) (n : node) :
  fs w !! p = Some n → fs (Fs.mkdirSync path w).2 !! p = Some n.
Proof.
  intros Hp. unfold Fs.mkdirSync.
  destruct (fs w !! path) as [[c r wr|]|] eqn:Hdir; simpl; try done.
  rewrite lookup_insert_ne; [done|congruence].
Qed.

Lemma writeFileSync_effect (path content : string) (w : World) (p : string) (n : node) :
  fs w !! p = Some n →
  fs (Fs.writeFileSync path content w).2 !! p = Some n ∨
  (p = path ∧
   ∃ c r, n = File c r true ∧
          fs (Fs.writeFileSync path content w).2 !! p = Some (File content r true)).
Proof.
  intros Hp. unfold Fs.writeFileSync.
  destruct (decide (p = path)) as [->|Hne].
  - rewrite Hp. destruct n as [c r [|]|]; simpl; [|by left|by left].
    right. split; [done|]. exists c, r. by rewrite lookup_insert_eq.
  - left. destruct (fs w !! path) as [[c r [|]|]|]; simpl;
      by rewrite ?lookup_insert_ne.
Qed.

(** What a generation does to a node that exists: nothing, or, when the
    node is the destination and a writable file, it replaces its text. *)
Lemma generateCommand_effect (host : Host) (agent : AgentFile.t) (sc : Scope)
  (force : bool) (w : World) (p : string) (n : node) :
  fs w !! p = Some n →
  fs (generateCommand host agent sc force w).2 !! p = Some n ∨
  (p = commandPathOf host agent sc ∧
   ∃ c r, n = File c r true ∧
          fs (generateCommand host agent sc force w).2 !! p =
            Some (File (renderCommand agent) r true)).
Proof.
  intros Hp. unfold generateCommand. unfold_M.
  destruct (bool_decide (is_Some (fs w !! commandPathOf host agent sc)) && negb force);
    simpl; [by left|].
  pose proof (mkdirSync_effect (commandsDirOf host sc) w p n Hp) as Hdir.
  destruct (Fs.mkdirSync (commandsDirOf host sc) w) as [[[]|e] w1]; simpl in *;
    [|by left].
  pose proof (writeFileSync_effect (commandPathOf host agent sc)
                (renderCommand agent) w1 p n Hdir) as Hwrite.
  destruct (Fs.writeFileSync (commandPathOf host agent sc) (renderCommand agent) w1)
    as [[[]|e] w2]; simpl in *; done.
Qed.

(** One creation or update: it never throws, counts the agent as done or
    adds one error line, and acts on the disk as one generation. *)
Lemma createOne_spec (host : Host) (scope : string) (acc : nat * list string)
  (agent : AgentFile.t) (w : World) :
  ∃ acc' w',
    createOne host scope acc agent w = (Ok acc', w') ∧
    acc'.1 + length acc'.2 = S (acc.1 + length acc.2) ∧
    fs w' = fs (generateCommand host agent (targetScopeOf scope) true w).2.
Proof.
  unfold createOne. unfold_M.
  destruct (generateCommand host agent (targetScopeOf scope) true w) as [[res|e] w1];
    simpl; eexists _, _; (split; [done|]); simpl; (split; [|done]).
  - lia.
  - rewrite length_app. simpl. lia.
Qed.

Lemma updateOne_spec (host : Host) (scope : string) (acc : nat * list string)
  (item : AgentFile.t * CommandFile.t) (w : World) :
  ∃ acc' w',
    updateOne host scope acc item w = (Ok acc', w') ∧
    acc'.1 + length acc'.2 = S (acc.1 + length acc.2) ∧
    fs w' = fs (generateCommand host item.1 (targetScopeOf scope) true w).2.
Proof.
  unfold updateOne. unfold_M.
  destruct (generateCommand host item.1 (targetScopeOf scope) true w) as [[res|e] w1];
    simpl; eexists _, _; (split; [done|]); simpl; (split; [|done]).
  - lia.
  - rewrite length_app. simpl. lia.
Qed.

(** One deletion: it never throws, counts the path as deleted or adds one
    error line, removes a writable file at the path and changes no other
    path. *)
Lemma deleteOne_spec (acc : nat * list string) (path : string) (w : World) :
  ∃ acc' w',
    deleteOne acc path w = (Ok acc', w') ∧
    acc'.1 + length acc'.2 = S (acc.1 + length acc.2) ∧
    (∀ p, p ≠ path → fs w' !! p = fs w !! p) ∧
    (fs w' !! path = None ∨ fs w' !! path = fs w !! path) ∧
    (∀ c r, fs w !! path = Some (File c r true) → fs w' !! path = None).
Proof.
  unfold deleteOne, Fs.unlinkSync. unfold_M.
  destruct (fs w !! path) as [[c r [|]|]|] eqn:Hp; simpl;
    eexists _, _; (split; [done|]); simpl.
  - split; [lia|]. split; [intros; by apply lookup_delete_ne|].
    rewrite lookup_delete_eq. eauto.
  - rewrite length_app. simpl. split; [lia|]. rewrite Hp.
    split; [done|]. split; [eauto|intros; simplify_eq].
  - rewrite length_app. simpl. split; [lia|]. rewrite Hp.
    split; [done|]. split; [eauto|intros; simplify_eq].
  - rewrite length_app. simpl. split; [lia|]. rewrite Hp.
    split; [done|]. split; [eauto|intros; simplify_eq].
Qed.

(** The creation loop never throws; every agent adds one to the counter or
    one error line; every node that existed is unchanged, or is the
    destination of one of the agents, was a writable file and still is. *)
Lemma createLoop_spec (host : Host) (scope : string) (l : list AgentFile.t)
  (acc : nat * list string) (w : World) :
  ∃ acc' w',
    forOf l (createOne host scope) acc w = (Ok acc', w') ∧
    acc'.1 + length acc'.2 = acc.1 + length acc.2 + length l ∧
    ∀ p n, fs w !! p = Some n →
      fs w' !! p = Some n ∨
      ((∃ a, a ∈ l ∧ p = commandPathOf host a (targetScopeOf scope)) ∧
       ∃ c r c', n = File c r true ∧ fs w' !! p = Some (File c' r true)).
Proof.
  pose (I := λ (seen : list AgentFile.t) (acc' : nat * list string) (w' : World),
    acc'.1 + length acc'.2 = acc.1 + length acc.2 + length seen ∧
    ∀ p n, fs w !! p = Some n →
      fs w' !! p = Some n ∨
      ((∃ a, a ∈ seen ∧ p = commandPathOf host a (targetScopeOf scope)) ∧
       ∃ c r c', n = File c r true ∧ fs w' !! p = Some (File c' r true))).
  apply (forOf_invariant I (createOne host scope) l) with (seen := []).
  - intros seen a acc1 w1 [Hcount Hnodes].
    destruct (createOne_spec host scope acc1 a w1) as (acc2 & w2 & Hrun & Hc & Hfs).
    exists acc2, w2. split; [done|]. split; [rewrite length_app; simpl; lia|].
    intros p n Hp. rewrite Hfs.
    destruct (Hnodes p n Hp) as [Hsame|((b & Hb & ->) & c & r & c' & -> & Hnow)].
    + destruct (generateCommand_effect host a (targetScopeOf scope) true w1 p n Hsame)
        as [?|(-> & c & r & -> & ?)]; [by left|].
      right. split; [exists a; set_solver|]. eauto.
    + right. split; [exists b; set_solver|]. exists c, r.
      destruct (generateCommand_effect host a (targetScopeOf scope) true w1 _ _ Hnow)
        as [?|(_ & c2 & r2 & [= <- <-] & ?)]; eauto.
  - split; [simpl; lia|]. intros p n Hp. by left.
Qed.

Lemma updateLoop_spec (host : Host) (scope : string)
  (l : list (AgentFile.t * CommandFile.t)) (acc : nat * list string) (w : World) :
  ∃ acc' w',
    forOf l (updateOne host scope) acc w = (Ok acc', w') ∧
    acc'.1 + length acc'.2 = acc.1 + length acc.2 + length l ∧
    ∀ p n, fs w !! p = Some n →
      fs w' !! p = Some n ∨
      ((∃ i, i ∈ l ∧ p = commandPathOf host i.1 (targetScopeOf scope)) ∧
       ∃ c r c', n = File c r true ∧ fs w' !! p = Some (File c' r true)).
Proof.
  pose (I := λ (seen : list (AgentFile.t * CommandFile.t))
               (acc' : nat * list string) (w' : World),
    acc'.1 + length acc'.2 = acc.1 + length acc.2 + length seen ∧
    ∀ p n, fs w !! p = Some n →
      fs w' !! p = Some n ∨
      ((∃ i, i ∈ seen ∧ p = commandPathOf host i.1 (targetScopeOf scope)) ∧
       ∃ c r c', n = File c r true ∧ fs w' !! p = Some (File c' r true))).
  apply (forOf_invariant I (updateOne host scope) l) with (seen := []).
  - intros seen a acc1 w1 [Hcount Hnodes].
    destruct (updateOne_spec host scope acc1 a w1) as (acc2 & w2 & Hrun & Hc & Hfs).
    exists acc2, w2. split; [done|]. split; [rewrite length_app; simpl; lia|].
    intros p n Hp. rewrite Hfs.
    destruct (Hnodes p n Hp) as [Hsame|((b & Hb & ->) & c & r & c' & -> & Hnow)].
    + destruct (generateCommand_effect host a.1 (targetScopeOf scope) true w1 p n Hsame)
        as [?|(-> & c & r & -> & ?)]; [by left|].
      right. split; [exists a; set_solver|]. eauto.
    + right. split; [exists b; set_solver|]. exists c, r.
      destruct (generateCommand_effect host a.1 (targetScopeOf scope) true w1 _ _ Hnow)
        as [?|(_ & c2 & r2 & [= <- <-] & ?)]; eauto.
  - split; [simpl; lia|]. intros p n Hp. by left.
Qed.

(** The deletion loop never throws; every path adds one to the counter or
    one error line; paths outside the list are untouched; a path of the
    list that held a writable file is gone at the end. *)
Lemma deleteLoop_spec (l : list string) (acc : nat * list string) (w : World) :
  ∃ acc' w',
    forOf l deleteOne acc w = (Ok acc', w') ∧
    acc'.1 + length acc'.2 = acc.1 + length acc.2 + length l ∧
    (∀ p, p ∉ l → fs w' !! p = fs w !! p) ∧
    (∀ p c r, p ∈ l → fs w !! p = Some (File c r true) → fs w' !! p = None).
Proof.
  pose (I := λ (seen : list string) (acc' : nat * list string) (w' : World),
    acc'.1 + length acc'.2 = acc.1 + length acc.2 + length seen ∧
    (∀ p, p ∉ seen → fs w' !! p = fs w !! p) ∧
    (∀ p, fs w' !! p = None ∨ fs w' !! p = fs w !! p) ∧
    (∀ p c r, p ∈ seen → fs w !! p = Some (File c r true) → fs w' !! p = None)).
  destruct (forOf_invariant I deleteOne l) with (seen := @nil string) (acc := acc) (w := w)
    as (acc' & w' & Hrun & Hcount & Hout & _ & Hin).
  - intros seen x acc1 w1 (Hcount & Hout & Hany & Hin).
    destruct (deleteOne_spec acc1 x w1)
      as (acc2 & w2 & Hrun & Hc & Hother & Hself & Hgone).
    exists acc2, w2. split; [done|]. split; [rewrite length_app; simpl; lia|].
    split_and!.
    + intros p Hp. rewrite Hother by set_solver. apply Hout. set_solver.
    + intros p. destruct (decide (p = x)) as [->|Hne].
      * destruct Hself as [?|Heq]; [by left|]. rewrite Heq. apply Hany.
      * rewrite Hother by done. apply Hany.
    + intros p c r Hp Hw. destruct (decide (p = x)) as [->|Hne].
      * destruct (Hany x) as [Hnone|Hsame].
        -- destruct Hself as [?|Heq]; [done|]. by rewrite Heq.
        -- apply (Hgone c r). by rewrite Hsame.
      * rewrite Hother by done. apply (Hin p c r); [set_solver|done].
  - unfold I. simpl. split; [lia|]. split; [done|]. split; [by right|].
    by intros ? ? ? ?%elem_of_nil.
  - exists acc', w'. done.
Qed.

Lemma isGeneratedFile_result (p : string) (w1 w2 : World) :
  fs w1 = fs w2 → (isGeneratedFile p w1).1 = (isGeneratedFile p w2).1.
Proof.
  intros Hfs. unfold isGeneratedFile. unfold_M. rewrite Hfs.
  destruct (bool_decide _); simpl; [|done]. rewrite Hfs.
  by destruct (fs w2 !! p) as [[c [] wr|]|].
Qed.

(** A run of [syncCommands] with a valid scope, step by step: discovery,
    the filter on generated files, the early exits, the classification and
    what the three loops do to the disk and to the counters. *)
Lemma syncCommands_spec (host : Host) (options : SyncOptions.t) (w : World) :
  validScope (SyncOptions.scope options) = true →
  ∃ agents w1 existing w2 generated report w',
    discoverAgents host (SyncOptions.scope options) w = (Ok agents, w1) ∧
    discoverCommands host (SyncOptions.scope options) w1 = (Ok existing, w2) ∧
    fs w2 = fs w ∧
    (∀ c, c ∈ generated ↔
          c ∈ existing ∧ (isGeneratedFile (CommandFile.path c) w).1 = Ok true) ∧
    syncCommands host options w = (Ok report, w') ∧
    ((agents = [] ∧ report = NoAgentsToSync ∧ fs w' = fs w) ∨
     (agents ≠ [] ∧
      report = UpToDate (reconcile (SyncOptions.clean options) agents generated) ∧
      fs w' = fs w) ∨
     (agents ≠ [] ∧
      ∃ created updated deleted errors,
        report = Synced (reconcile (SyncOptions.clean options) agents generated)
                   created updated deleted errors ∧
        created + updated + deleted + length errors =
          length (toCreate (reconcile (SyncOptions.clean options) agents generated)) +
          length (toUpdate (reconcile (SyncOptions.clean options) agents generated)) +
          length (toDelete (reconcile (SyncOptions.clean options) agents generated)) ∧
        (∀ p n, fs w !! p = Some n →
           p ∉ toDelete (reconcile (SyncOptions.clean options) agents generated) →
           fs w' !! p = Some n ∨
           ((∃ a, a ∈ agents ∧
                  p = commandPathOf host a (targetScopeOf (SyncOptions.scope options))) ∧
            ∃ c r c', n = File c r true ∧ fs w' !! p = Some (File c' r true))) ∧
        (∀ p c r,
           p ∈ toDelete (reconcile (SyncOptions.clean options) agents generated) →
           fs w !! p = Some (File c r true) → fs w' !! p = None))).
Proof.
  intros Hscope.
  destruct (discoverAgents_spec host (SyncOptions.scope options) w)
    as (_ & agents & w1 & _ & Hagents & Hfs1 & _).
  destruct (discoverCommands_spec host (SyncOptions.scope options) w1)
    as (existing & w2 & Hexisting & Hfs2).
  destruct (filterM_generated existing w2) as (generated & Hfilter & Hgen).
  exists agents, w1, existing, w2, generated.
  unfold syncCommands. cbv zeta. rewrite Hscope.
  change (negb true) with false. cbv iota.
  unfold mbind, M_bind, mret, M_ret. cbv beta iota zeta.
  rewrite Hagents, Hexisting.
  assert (fs w2 = fs w) as Hfs by congruence.
  assert (∀ c, c ∈ generated ↔
      c ∈ existing ∧ (isGeneratedFile (CommandFile.path c) w).1 = Ok true) as Hgen'.
  { intros c. rewrite Hgen. by rewrite (isGeneratedFile_result _ w2 w Hfs). }
  destruct (bool_decide (length agents = 0)) eqn:Hlen.
  { apply bool_decide_eq_true, nil_length_inv in Hlen.
    eexists _, _. split_and!; [done..|]. by left. }
  apply bool_decide_eq_false in Hlen.
  assert (agents ≠ []) as Hne by (by intros ->).
  cbv beta. rewrite Hfilter.
  set (plan := reconcile (SyncOptions.clean options) agents generated).
  destruct (bool_decide (length (toCreate plan) = 0) &&
            bool_decide (length (toUpdate plan) = 0) &&
            bool_decide (length (toDelete plan) = 0)) eqn:Hempty.
  { eexists _, _. split_and!; [done..|]. right. left. done. }
  cbv beta.
  destruct (createLoop_spec host (SyncOptions.scope options) (toCreate plan) (0, []) w2)
    as (acc1 & w3 & -> & Hc1 & Hn1).
  destruct (updateLoop_spec host (SyncOptions.scope options) (toUpdate plan)
              (0, acc1.2) w3) as (acc2 & w4 & -> & Hc2 & Hn2).
  assert (∀ p n, fs w !! p = Some n →
     fs w4 !! p = Some n ∨
     ((∃ a, a ∈ agents ∧
            p = commandPathOf host a (targetScopeOf (SyncOptions.scope options))) ∧
      ∃ c r c', n = File c r true ∧ fs w4 !! p = Some (File c' r true))) as Hn4.
  { intros p n Hp. rewrite <- Hfs in Hp.
    destruct (Hn1 p n Hp) as [Hsame|((a & Ha & ->) & c & r & c' & -> & Hnow)].
    - destruct (Hn2 p n Hsame) as [?|(([a cmd] & Ha & ->) & c & r & c' & -> & Hnow)];
        [by left|].
      right. split; [|eauto]. exists a. split; [|done].
      by apply reconcile_toUpdate in Ha as (? & _).
    - right. split; [exists a; split; [by eapply reconcile_toCreate|done]|].
      exists c, r.
      destruct (Hn2 _ _ Hnow) as [?|(_ & c2 & r2 & c3 & [= <- <-] & ?)]; eauto. }
  cbn [fst snd length] in Hc1, Hc2.
  destruct (SyncOptions.clean options) eqn:Hclean.
  - destruct (deleteLoop_spec (toDelete plan) (0, acc2.2) w4)
      as (acc3 & w5 & -> & Hc3 & Hout & Hin).
    cbn [fst snd length] in Hc3. eexists _, _. split_and!; [done..|]. right. right.
    split; [done|]. eexists _, _, _, _. split; [done|]. split_and!.
    + lia.
    + intros p n Hp Hnot. rewrite (Hout p Hnot). by apply Hn4.
    + intros p c r Hp Hw.
      destruct (Hn4 p _ Hw) as [Hsame|(_ & c0 & r0 & c' & [= <- <-] & Hnow)];
        eapply Hin; eauto.
  - assert (toDelete plan = []) as Hnil.
    { subst plan. reflexivity. }
    eexists _, _. split_and!; [done..|]. right. right.
    split; [done|]. eexists _, _, _, _. split; [done|]. split_and!.
    + rewrite Hnil. cbn [fst snd length]. lia.
    + intros p n Hp _. by apply Hn4.
    + intros p c r Hp. rewrite Hnil in Hp. by apply elem_of_nil in Hp.
Qed.




(** ** Batches *)

(** One iteration of the generation batch, forced or not: it never throws
    and accounts for the agent in exactly one of the three lists. *)
Lemma generateOne_total (host : Host) (options : GenerateOptions.t)
  (nameMap : gmap string string)
  (acc : list string * list string * list string) (agent : AgentFile.t) (w : World) :
  ∃ acc' w',
    generateOne host options nameMap acc agent w = (Ok acc', w') ∧
    length acc'.1.1 + length acc'.1.2 + length acc'.2 =
      S (length acc.1.1 + length acc.1.2 + length acc.2).
Proof.
  destruct acc as [[generated skipped] errors].
  unfold generateOne, tryCatch, mbind, M_bind, mret, M_ret.
  destruct (generateCommand host agent _ _ w) as [[res|err] w1]; simpl.
  - eexists _, _. split; [done|]. simpl. rewrite length_app. simpl. lia.
  - destruct (Js.includes "already exists" (message err));
      eexists _, _; (split; [done|]); simpl; rewrite length_app; simpl; lia.
Qed.


(** C8 on the disk with failures in the middle of each batch: the
    unreadable agent file leaves a warning and the other agent is found;
    the orphan that cannot be removed gives one error line and the other
    orphan is removed. *)
Example batches_continue_sample :
  (syncCommands sampleHost (SyncOptions.mk "project" true false) lockedWorld).1 =
    Ok (Synced
          (mkPlan []
             [AgentFile.mk "/work/.claude/agents/a.md" "a.md"
                (AgentFrontmatter.mk "foo" "d" None None) "A" project]
             ["/work/.claude/commands/gone-1.md"; "/work/.claude/commands/gone-2.md"])
          1 0 1
          ["Failed to delete /work/.claude/commands/gone-1.md: Error: EACCES: permission denied, unlink /work/.claude/commands/gone-1.md"]) ∧
  console (syncCommands sampleHost (SyncOptions.mk "project" true false)
             lockedWorld).2 !! 2 =
    Some (LWarning, "Failed to parse agent file /work/.claude/agents/b.md: Error: EACCES: permission denied, open /work/.claude/agents/b.md") ∧
  fs (syncCommands sampleHost (SyncOptions.mk "project" true false) lockedWorld).2
    !! "/work/.claude/commands/gone-2.md" = None.
Proof.
  vm_compute. repeat split.
Qed.

(** ** The repair pass *)

Lemma span_spec (f : ascii → bool) (s a b : string) :
  Js.span f s = (a, b) → s = a +:+ b ∧ Js.all f a = true.
Proof.
  revert a b. induction s as [|c s IH]; intros a b; simpl.
  - by intros [= <- <-].
  - destruct (f c) eqn:Hc; [|by intros [= <- <-]].
    destruct (Js.span f s) as [a' b']. intros [= <- <-].
    destruct (IH a' b' eq_refl) as [-> Ha]. rewrite app_cons. simpl. by rewrite Hc.
Qed.

Lemma split_cases (c : ascii) (s : string) :
  ∃ l ls, Js.split c s = l :: ls.
Proof.
  destruct s as [|x s]; simpl; [eauto|].
  destruct (Ascii.eqb x c); [eauto|]. destruct (Js.split c s); eauto.
Qed.

Lemma join_cons_char (sep : string) (x : ascii) (l : string) (ls : list string) :
  Js.join sep (String x l :: ls) = String x (Js.join sep (l :: ls)).
Proof. by destruct ls. Qed.

Lemma join_cons_cons (sep x y : string) (l : list string) :
  Js.join sep (x :: y :: l) = x +:+ sep +:+ Js.join sep (y :: l).
Proof. reflexivity. Qed.

Lemma join_split (c : ascii) (s : string) :
  Js.join (String c EmptyString) (Js.split c s) = s.
Proof.
  induction s as [|x s IH]; [done|]. simpl.
  destruct (split_cases c s) as (l & ls & Hs). rewrite Hs in *.
  destruct (Ascii.eqb x c) eqn:Hx.
  - apply Ascii.eqb_eq in Hx as ->. by rewrite join_cons_cons, IH.
  - by rewrite join_cons_char, IH.
Qed.

Lemma all_split (f : ascii → bool) (c : ascii) (s : string) :
  Js.all f s = true → ∀ l, l ∈ Js.split c s → Js.all f l = true.
Proof.
  induction s as [|x s IH]; simpl.
  - by intros _ l ->%list_elem_of_singleton.
  - intros [Hx Hs]%andb_true_iff l.
    destruct (Ascii.eqb x c).
    + intros [->|?]%elem_of_cons; [done|auto].
    + destruct (split_cases c s) as (l0 & ls & Hsplit). rewrite Hsplit in *.
      intros [->|?]%elem_of_cons.
      * simpl. rewrite Hx. apply IH; [done|set_solver].
      * apply IH; [done|set_solver].
Qed.

Lemma all_join (f : ascii → bool) (sep : string) (l : list string) :
  Js.all f sep = true → (∀ x, x ∈ l → Js.all f x = true) →
  Js.all f (Js.join sep l) = true.
Proof.
  intros Hsep. induction l as [|x l IH]; intros Hl; [done|].
  destruct l as [|y l]; [apply Hl; set_solver|].
  rewrite join_cons_cons, !all_app, Hsep, (Hl x), IH; set_solver.
Qed.

Lemma all_escapeQuotes (f : ascii → bool) (s : string) :
  f "\"%char = true → Js.all f s = true → Js.all f (Js.escapeQuotes s) = true.
Proof.
  intros Hb. induction s as [|c s IH]; [done|]. simpl.
  intros [Hc Hs]%andb_true_iff.
  destruct (Ascii.eqb c "034"); simpl; rewrite ?Hb, Hc, IH; done.
Qed.

(** The parts of a line matched by the key-value expression. *)
Lemma keyValMatch_parts (line key value : string) :
  keyValMatch line = Some (key, value) →
  ∃ gap, line = key +:+ ":" +:+ gap +:+ value.
Proof.
  unfold keyValMatch.
  destruct (Js.span Js.isSpace line) as [indent r1] eqn:H1.
  destruct (Js.span isKeyChar r1) as [word r2] eqn:H2.
  destruct word as [|w word]; [done|]. destruct r2 as [|c r3]; [done|].
  destruct (Ascii.eqb c ":") eqn:Hc; [|done].
  destruct (Js.span Js.isSpace r3) as [gap value'] eqn:H3.
  destruct (Js.all Js.isDot value'); [|done]. intros [= <- <-].
  apply Ascii.eqb_eq in Hc as ->.
  apply span_spec in H1 as [-> _]. apply span_spec in H2 as [-> _].
  apply span_spec in H3 as [-> _]. exists gap.
  by rewrite !app_assoc_s, !app_cons.
Qed.

Lemma keyValMatch_colon (line key value : string) :
  keyValMatch line = Some (key, value) → Js.all (notChar ":") line = false.
Proof.
  intros (gap & ->)%keyValMatch_parts. rewrite !all_app. simpl.
  by rewrite andb_false_r.
Qed.

Lemma fixLine_colon_free (line : string) :
  Js.all (notChar ":") line = true → fixLine line = line.
Proof.
  intros Hline. unfold fixLine.
  destruct (keyValMatch line) as [[key value]|] eqn:Hm; [|done].
  apply keyValMatch_colon in Hm. congruence.
Qed.

Lemma fixLine_keeps (f : ascii → bool) (line : string) :
  f "\"%char = true → f "034"%char = true → f " "%char = true → f ":"%char = true →
  Js.all f line = true → Js.all f (fixLine line) = true.
Proof.
  intros Hb Hq Hs Hc Hline. unfold fixLine.
  destruct (keyValMatch line) as [[key value]|] eqn:Hm; [|done].
  destruct (needsQuoting value); [|done].
  apply keyValMatch_parts in Hm as (gap & ->).
  rewrite !all_app in Hline. rewrite !all_app. simpl.
  apply andb_true_iff in Hline as [Hkey Hrest].
  apply andb_true_iff in Hrest as [_ Hrest].
  apply andb_true_iff in Hrest as [_ Hvalue].
  rewrite Hkey, Hc, Hs, Hq, (all_escapeQuotes f value Hb Hvalue). done.
Qed.

Lemma getSubstitution_plain (m b a tmpl : string) :
  Js.all (notChar "$") tmpl = true → Js.getSubstitution m b a tmpl = tmpl.
Proof.
  induction tmpl as [|c t IH]; [done|]. simpl.
  intros [Hc Ht]%andb_true_iff. unfold notChar in Hc.
  apply negb_true_iff in Hc. rewrite Hc, IH; done.
Qed.

Lemma drop_app_length (a b : string) : Js.drop (String.length a) (a +:+ b) = b.
Proof. induction a as [|c a IH]; [by destruct b|]. by rewrite app_cons. Qed.


(** A string that contains a character splits at its first occurrence. *)
Lemma first_occurrence (c : ascii) (h : string) :
  Js.all (notChar c) h = false →
  ∃ u v, h = u +:+ String c v ∧ Js.all (notChar c) u = true.
Proof.
  induction h as [|x h IH]; [done|]. simpl.
  destruct (notChar c x) eqn:Hx; simpl.
  - intros (u & v & -> & Hu)%IH. exists (String x u), v. simpl. by rewrite Hx, Hu.
  - intros _. exists EmptyString, h. split; [|done].
    unfold notChar in Hx. apply negb_false_iff, Ascii.eqb_eq in Hx as ->. done.
Qed.

Lemma first_occurrence_unique (c : ascii) (u u' v v' : string) :
  Js.all (notChar c) u = true → Js.all (notChar c) u' = true →
  u +:+ String c v = u' +:+ String c v' → u = u'.
Proof.
  revert u'. induction u as [|x u IH]; intros [|y u']; simpl; try done.
  - rewrite app_cons. intros _ [Hy _]%andb_true_iff [= <- _].
    unfold notChar in Hy. by rewrite Ascii.eqb_refl in Hy.
  - rewrite app_cons. intros [Hx _]%andb_true_iff _ [= -> _].
    unfold notChar in Hx. by rewrite Ascii.eqb_refl in Hx.
  - rewrite !app_cons. intros [_ Hu]%andb_true_iff [_ Hu']%andb_true_iff [= -> Heq].
    f_equal. eauto.
Qed.

Lemma app_first (a u : string) (c : ascii) (v t : string) :
  a +:+ (u +:+ String c v) +:+ t = (a +:+ u) +:+ String c (v +:+ t).
Proof. by rewrite !app_assoc_s, app_cons. Qed.

(** A string that contains a character does not occur right after a
    non-empty prefix free of that character. *)
Lemma startsWith_shifted (c : ascii) (x : ascii) (pre h t : string) :
  Js.all (notChar c) (String x pre) = true →
  Js.all (notChar c) h = false →
  Js.startsWith h (String x pre +:+ h +:+ t) = false.
Proof.
  intros Hpre Hh. apply not_true_is_false. intros [t' Heq]%startsWith_iff.
  apply first_occurrence in Hh as (u & v & -> & Hu).
  rewrite app_first in Heq. rewrite (app_assoc_s u), (app_cons c v) in Heq.
  apply first_occurrence_unique in Heq; [|by rewrite all_app, Hpre, Hu|done].
  apply (f_equal String.length) in Heq. rewrite app_length_s in Heq. simpl in Heq. lia.
Qed.

Lemma indexOf_skip (p : string) (x : ascii) (s : string) :
  Js.startsWith p (String x s) = false →
  Js.indexOf p (String x s) = S <$> Js.indexOf p s.
Proof. intros H. cbn [Js.indexOf]. by rewrite H. Qed.

Lemma indexOf_here (p s : string) : Js.indexOf p (p +:+ s) = Some 0.
Proof. destruct (p +:+ s) eqn:Heq; simpl; rewrite <- Heq, startsWith_app; done. Qed.

Lemma indexOf_header (header tail : string) :
  Js.all (notChar ":") header = false →
  Js.indexOf header ("---" +:+ LF +:+ header +:+ tail) = Some 4.
Proof.
  intros Hh.
  change ("---" +:+ LF +:+ header +:+ tail)
    with (String "-" (String "-" (String "-" (String "010" (header +:+ tail))))).
  rewrite indexOf_skip
    by exact (startsWith_shifted ":" "-" ("--" +:+ LF) header tail eq_refl Hh).
  rewrite indexOf_skip
    by exact (startsWith_shifted ":" "-" ("-" +:+ LF) header tail eq_refl Hh).
  rewrite indexOf_skip
    by exact (startsWith_shifted ":" "-" LF header tail eq_refl Hh).
  rewrite indexOf_skip
    by exact (startsWith_shifted ":" "010" EmptyString header tail eq_refl Hh).
  by rewrite indexOf_here.
Qed.

(** The text matched by the header expression and what follows it. *)
Lemma matchHeader_parts (content header : string) :
  matchHeader content = Some header →
  content = "---" +:+ LF +:+ header +:+ Js.drop (4 + String.length header) content.
Proof.
  unfold matchHeader.
  destruct (Js.startsWith ("---" +:+ LF) content) eqn:Hstart; [|done].
  apply startsWith_iff in Hstart as [rest ->].
  change (Js.drop 4 (("---" +:+ LF) +:+ rest)) with rest.
  destruct (Js.indexOf (LF +:+ "---") rest) as [i|] eqn:Hi; [|done].
  intros [= <-]. apply indexOf_Some in Hi as (a & z & Hrest & -> & _ & _).
  change (Js.drop (4 + String.length a) (("---" +:+ LF) +:+ rest))
    with (Js.drop (String.length a) rest).
  rewrite Hrest at 2. rewrite drop_app_length.
  by rewrite Hrest at 1.
Qed.

(** On a text whose header holds no dollar sign, the repair pass replaces
    the header by its lines repaired one by one. *)
Lemma fixFrontmatter_header (content header : string) :
  matchHeader content = Some header →
  Js.all (notChar "$") header = true →
  fixFrontmatter content =
  "---" +:+ LF +:+ Js.join LF (fixLine <$> Js.split "010" header) +:+
  Js.drop (4 + String.length header) content.
Proof.
  intros Hm Hdollar. unfold fixFrontmatter. rewrite Hm.
  pose proof (matchHeader_parts content header Hm) as Hparts.
  set (tail := Js.drop (4 + String.length header) content) in *.
  set (new := Js.join LF (fixLine <$> Js.split "010" header)).
  assert (Js.all (notChar "$") new = true) as Hnew.
  { apply all_join; [done|]. intros x (l & -> & Hl)%list_elem_of_fmap.
    apply fixLine_keeps; try done. by apply (all_split _ "010" header). }
  destruct (Js.all (notChar ":") header) eqn:Hcolon.
  - assert (new = header) as ->.
    { subst new. rewrite <- (join_split "010" header) at 2. f_equal.
      rewrite <- (list_fmap_id (Js.split "010" header)) at 2.
      apply list_fmap_ext. intros _ l Hl%list_elem_of_lookup_2. simpl.
      apply fixLine_colon_free. by apply (all_split _ "010" header). }
    rewrite <- Hparts. unfold Js.replace.
    destruct (Js.indexOf header content) as [i|] eqn:Hi; [|done].
    apply indexOf_Some in Hi as (a & z & Hc & -> & -> & _).
    by rewrite getSubstitution_plain.
  - unfold Js.replace. rewrite Hparts at 1. rewrite indexOf_header by done.
    rewrite getSubstitution_plain by done.
    rewrite Hparts at 1. reflexivity.
Qed.

(** The model decoder gives back a value that the repair pass has quoted,
    when the value consists of literal characters. *)
Lemma readQuotedTail_escapeQuotes (value : string) :
  Js.all isLiteral value = true →
  readQuotedTail (Js.escapeQuotes value +:+ DQ) = Some value.
Proof.
  induction value as [|c v IH]; [done|]. simpl.
  intros [Hc Hv]%andb_true_iff. unfold isLiteral in Hc.
  apply andb_true_iff in Hc as [Hp Hb]. apply negb_true_iff in Hb.
  destruct (Ascii.eqb c "034") eqn:Hq.
  - apply Ascii.eqb_eq in Hq as ->. rewrite !app_cons. simpl.
    by rewrite IH.
  - rewrite app_cons. simpl. by rewrite Hq, Hb, Hp, IH.
Qed.

Lemma escapeQuotes_none (value : string) :
  Js.includes DQ value = false → Js.escapeQuotes value = value.
Proof.
  unfold DQ. rewrite includes_char, negb_false_iff.
  induction value as [|c v IH]; [done|]. simpl.
  intros [Hc Hv]%andb_true_iff. unfold notChar in Hc. apply negb_true_iff in Hc.
  by rewrite Hc, IH.
Qed.

(** C2, as amended. When the header matched in a text holds no dollar
    sign, the repair pass returns the text with the header replaced by its
    lines repaired one by one; a line of shape key, colon, value whose
    value is non-empty, does not start with a quote or an opening bracket
    or brace and contains a colon or a hash sign is rewritten to the key, a
    colon, a space and the value between double quotes, each double quote
    of the value preceded by a backslash (so the value itself when it holds
    no double quote); and when the value consists of printable characters
    other than the backslash, the decoder reads that quoted scalar back as
    the original value. *)
Theorem fixFrontmatter_requotes (content header line key value : string) :
  matchHeader content = Some header →
  Js.all (notChar "$") header = true →
  line ∈ Js.split "010" header →
  keyValMatch line = Some (key, value) →
  needsQuoting value = true →
  fixFrontmatter content =
    "---" +:+ LF +:+ Js.join LF (fixLine <$> Js.split "010" header) +:+
    Js.drop (4 + String.length header) content ∧
  fixLine line ∈ fixLine <$> Js.split "010" header ∧
  fixLine line = key +:+ ": " +:+ DQ +:+ Js.escapeQuotes value +:+ DQ ∧
  (Js.includes DQ value = false → Js.escapeQuotes value = value) ∧
  (Js.all isLiteral value = true →
   readDoubleQuoted (DQ +:+ Js.escapeQuotes value +:+ DQ) = Some value).
Proof.
  intros Hm Hdollar Hline Hkv Hneeds. split_and!.
  - by apply fixFrontmatter_header.
  - apply list_elem_of_fmap. eauto.
  - unfold fixLine. by rewrite Hkv, Hneeds.
  - apply escapeQuotes_none.
  - intros Hlit. unfold DQ at 1. rewrite app_cons. simpl.
    by apply readQuotedTail_escapeQuotes.
Qed.

(** C2, as stated, fails. In the first text the line of [name] has the
    shape in question and is re-quoted, yet the repaired text cannot be
    decoded: the line of [description] starts with an opening bracket, so
    the repair pass leaves it as it is, a flow sequence that is never
    closed. In the second text the value holds a colon and no double quote,
    yet the repaired text carries it with one dollar sign less, so the
    decoded value is not the original: the header is put back with a
    string replacement in which a doubled dollar sign stands for a single
    one. Whatever the decoder, the two values of the last line cannot both
    be recovered, since their texts are repaired to the same text. *)
Lemma fixFrontmatter_round_trip_fails :
  keyValMatch "name: x: y" = Some ("name", "x: y") ∧
  needsQuoting "x: y" = true ∧
  fixFrontmatter brokenText =
    "---" +:+ LF +:+ "name: " +:+ DQ +:+ "x: y" +:+ DQ +:+ LF +:+
    "description: [a: b" +:+ LF +:+ "---" +:+ LF +:+ "Body" ∧
  matchHeader (dollarText "cost: $$5") =
    Some ("name: price" +:+ LF +:+ "description: cost: $$5") ∧
  keyValMatch "description: cost: $$5" = Some ("description", "cost: $$5") ∧
  needsQuoting "cost: $$5" = true ∧
  Js.includes DQ "cost: $$5" = false ∧
  fixFrontmatter (dollarText "cost: $$5") = dollarText (DQ +:+ "cost: $5" +:+ DQ) ∧
  readDoubleQuoted (DQ +:+ "cost: $5" +:+ DQ) = Some "cost: $5" ∧
  String.eqb "cost: $5" "cost: $$5" = false ∧
  fixFrontmatter (dollarText "cost: $$$") = fixFrontmatter (dollarText "cost: $$$$").
Proof. vm_compute. repeat split. Qed.

(** The amended C2 on the agent text of the sample disk that needs the
    repair pass. *)
Lemma fixFrontmatter_requotes_witness :
  fixFrontmatter (agentText "colon" "Use when: always" "C") =
    agentText "colon" (DQ +:+ "Use when: always" +:+ DQ) "C" ∧
  readDoubleQuoted (DQ +:+ "Use when: always" +:+ DQ) = Some "Use when: always".
Proof.
  destruct (fixFrontmatter_requotes (agentText "colon" "Use when: always" "C")
              ("name: colon" +:+ LF +:+ "description: Use when: always")
              "description: Use when: always" "description" "Use when: always")
    as (Hfix & _ & _ & _ & Hread).
  - reflexivity.
  - reflexivity.
  - apply (list_elem_of_lookup_2 _ 1). reflexivity.
  - reflexivity.
  - reflexivity.
  - split; [exact Hfix|]. apply Hread. reflexivity.
Defined.

(** * Further properties *)

(** ** Discovery of commands, in full *)







(** The valid directories of a scope: the project directory first, then
    the user directory, each when the scope selects it and it exists. *)
Lemma getValidAgentsDirs_eq (host : Host) (scope : string) (w : World) :
  getValidAgentsDirs host scope w =
  (Ok ((if scopeIs scope "both" "project" &&
           bool_decide (is_Some (fs w !! getProjectAgentsDir host))
        then [(getProjectAgentsDir host, project)] else []) ++
       (if scopeIs scope "both" "user" &&
           bool_decide (is_Some (fs w !! getUserAgentsDir host))
        then [(getUserAgentsDir host, user)] else [])), w).
Proof.
  unfold getValidAgentsDirs. unfold_M.
  destruct (scopeIs scope "both" "project"), (scopeIs scope "both" "user"); simpl;
    repeat destruct (bool_decide _); simpl; done.
Qed.


Lemma scopeIs_valid (scope a : string) :
  a ∈ ["project"; "user"] → scopeIs scope "both" a = true → validScope scope = true.
Proof.
  unfold scopeIs, validScope. intros Ha [Hs|Hs]%orb_true_iff;
    apply String.eqb_eq in Hs; subst; apply bool_decide_eq_true; set_solver.
Qed.

Lemma validDirs_elem (scope : string) (disk : gmap string node)
  (projectDir userDir dir : string) (sc : Scope) :
  (dir, sc) ∈
    (if scopeIs scope "both" "project" && bool_decide (is_Some (disk !! projectDir))
     then [(projectDir, project)] else []) ++
    (if scopeIs scope "both" "user" && bool_decide (is_Some (disk !! userDir))
     then [(userDir, user)] else []) ↔
  (sc = project ∧ dir = projectDir ∧ scopeIs scope "both" "project" = true ∧
   is_Some (disk !! projectDir)) ∨
  (sc = user ∧ dir = userDir ∧ scopeIs scope "both" "user" = true ∧
   is_Some (disk !! userDir)).
Proof.
  rewrite elem_of_app.
  destruct (scopeIs scope "both" "project"), (scopeIs scope "both" "user"); simpl;
    repeat case_bool_decide; rewrite ?list_elem_of_singleton, ?elem_of_nil;
    naive_solver.
Qed.

Lemma scopeIs_iff (scope a b : string) :
  scopeIs scope a b = true ↔ scope = a ∨ scope = b.
Proof. unfold scopeIs. by rewrite orb_true_iff, !String.eqb_eq. Qed.

Lemma validScope_iff (scope : string) :
  validScope scope = true ↔ scope = "project" ∨ scope = "user" ∨ scope = "both".
Proof.
  unfold validScope. rewrite bool_decide_eq_true, !elem_of_cons, elem_of_nil. tauto.
Qed.

(** The relative path of an entry is taken from the directory scanned. *)
Lemma parseAgentFile_relative (host : Host) (p base : string) (sc : Scope)
  (w : World) (a : AgentFile.t) :
  (parseAgentFile host p base sc w).1 = Ok (Some a) →
  AgentFile.relativePath a = relative host base p.
Proof.
  unfold parseAgentFile. unfold_M.
  destruct (bool_decide _); simpl; [|done].
  destruct (fs w !! p) as [[c [] wr|]|] eqn:Hp; simpl; try done.
  destruct (matter host c) as [g|e] eqn:Hm; simpl;
    [|destruct (matter host (fixFrontmatter c)) as [g|e2] eqn:Hm2; simpl; [|done]];
    (destruct (truthy _ && truthy _); simpl; [|done]); by intros [= <-].
Qed.


(** X2. Every entry returned by [discoverAgents] carries the scope of the
    agents directory under which glob listed its file, a directory that
    the requested scope selects and that exists, and its relative path is
    taken from that directory. When the scope selects no existing
    directory, and so for a scope other than the three known ones, the
    result is empty and nothing is listed, read or printed. *)
Theorem discoverAgents_scopes (host : Host) (scope : string) (w : World) :
  ∃ agents w',
    discoverAgents host scope w = (Ok agents, w') ∧
    (∀ a, a ∈ agents →
       ∃ dir files,
         ((AgentFile.scope a = project ∧ dir = getProjectAgentsDir host ∧
           (scope = "both" ∨ scope = "project")) ∨
          (AgentFile.scope a = user ∧ dir = getUserAgentsDir host ∧
           (scope = "both" ∨ scope = "user"))) ∧
         is_Some (fs w !! dir) ∧
         glob host (fs w) (slashes (join dir "**/*.md")) = Ok files ∧
         AgentFile.path a ∈ files ∧
         AgentFile.relativePath a = relative host dir (AgentFile.path a)) ∧
    ((scope ≠ "both" ∧ scope ≠ "project" ∨
      fs w !! getProjectAgentsDir host = None) →
     (scope ≠ "both" ∧ scope ≠ "user" ∨
      fs w !! getUserAgentsDir host = None) →
     agents = [] ∧ w' = w).
Proof.
  destruct (discoverAgents_spec host scope w)
    as (dirs & agents & w' & Hdirs & Hrun & _ & _ & Hin & _).
  rewrite getValidAgentsDirs_eq in Hdirs. injection Hdirs as <-.
  exists agents, w'. split_and!; [done| |].
  - intros a (dir & sc & files & p & Hd & Hglob & Hp & Ha)%Hin.
    pose proof (parseAgentFile_relative _ _ _ _ _ _ Ha) as Hrel.
    apply parseAgentFile_sound in Ha as (<- & <- & _).
    exists dir, files.
    apply validDirs_elem in Hd
      as [(-> & -> & Hs%scopeIs_iff & ?)|(-> & -> & Hs%scopeIs_iff & ?)];
      (split_and!; [|done..]); [left|right]; done.
  - intros Hproject Huser. revert Hrun.
    unfold discoverAgents. unfold mbind, M_bind. rewrite getValidAgentsDirs_eq.
    assert (scopeIs scope "both" "project" &&
            bool_decide (is_Some (fs w !! getProjectAgentsDir host)) = false) as ->.
    { apply andb_false_iff. destruct Hproject as [[? ?]|Hnone].
      - left. apply not_true_is_false. rewrite scopeIs_iff. tauto.
      - right. rewrite Hnone. apply bool_decide_eq_false. by intros [? ?]. }
    assert (scopeIs scope "both" "user" &&
            bool_decide (is_Some (fs w !! getUserAgentsDir host)) = false) as ->.
    { apply andb_false_iff. destruct Huser as [[? ?]|Hnone].
      - left. apply not_true_is_false. rewrite scopeIs_iff. tauto.
      - right. rewrite Hnone. apply bool_decide_eq_false. by intros [? ?]. }
    simpl. by intros [= <- <-].
Qed.

(** ** The calls of the decoder *)

(** X3. [parseAgentFile] hands a text to the decoder only when there is
    one to read: for a path that does not exist it returns no entry and
    no error, and for a directory or a file that cannot be read it throws
    the error of the read, in both cases without a call of the decoder.
    When the raw text decodes, the decoder is called once, the repair pass
    is not run, and the entry, if any, is built from what the raw text
    holds. *)
Theorem parseAgentFile_reads_first (host : Host) (filePath baseDir : string)
  (scope : Scope) (w : World) :
  (fs w !! filePath = None →
   parseAgentFile host filePath baseDir scope w = (Ok None, w)) ∧
  (∀ n, fs w !! filePath = Some n →
        (∀ content writable, n ≠ File content true writable) →
        ∃ e, parseAgentFile host filePath baseDir scope w = (Threw e, w)) ∧
  (∀ content writable g,
     fs w !! filePath = Some (File content true writable) →
     matter host content = Ok g →
     decoded (parseAgentFile host filePath baseDir scope w).2 =
       decoded w ++ [content] ∧
     fs (parseAgentFile host filePath baseDir scope w).2 = fs w ∧
     ((parseAgentFile host filePath baseDir scope w).1 = Ok None ∧
      truthy (Frontmatter.name (GrayMatterFile.data g)) &&
      truthy (Frontmatter.description (GrayMatterFile.data g)) = false ∨
      ∃ a,
        (parseAgentFile host filePath baseDir scope w).1 = Ok (Some a) ∧
        AgentFile.path a = filePath ∧
        AgentFile.relativePath a = relative host baseDir filePath ∧
        AgentFile.scope a = scope ∧
        AgentFile.content a = GrayMatterFile.content g ∧
        Frontmatter.name (GrayMatterFile.data g) = Some (AgentFile.name a) ∧
        Frontmatter.description (GrayMatterFile.data g) =
          Some (AgentFrontmatter.description (AgentFile.frontmatter a)) ∧
        AgentFrontmatter.tools (AgentFile.frontmatter a) =
          Frontmatter.tools (GrayMatterFile.data g) ∧
        AgentFrontmatter.model (AgentFile.frontmatter a) =
          Frontmatter.model (GrayMatterFile.data g))).
Proof.
  split_and!.
  - intros Hnone. unfold parseAgentFile. unfold_M.
    rewrite bool_decide_false by (rewrite Hnone; by intros [? ?]). done.
  - intros n Hn Hbad. unfold parseAgentFile. unfold_M.
    rewrite bool_decide_true by (rewrite Hn; eauto). simpl. rewrite Hn.
    destruct n as [c [] wr|]; simpl; [|eauto..]. by destruct (Hbad c wr).
  - intros content writable g Hnode Hg. unfold parseAgentFile. unfold_M.
    rewrite bool_decide_true by (rewrite Hnode; eauto). simpl.
    rewrite Hnode. simpl. rewrite Hg. simpl.
    destruct (truthy (Frontmatter.name (GrayMatterFile.data g))) eqn:Hn; simpl.
    + destruct (truthy (Frontmatter.description (GrayMatterFile.data g))) eqn:Hd;
        simpl.
      * split_and!; [done..|]. right. eexists. split; [done|].
        unfold AgentFile.name. simpl.
        apply truthy_Some in Hn as (x & -> & _ & ->).
        apply truthy_Some in Hd as (y & -> & _ & ->). done.
      * split_and!; [done..|]. by left.
    + split_and!; [done..|]. by left.
Qed.

(** ** Discovery, in order *)








(** ** The repair pass, applied twice *)

Lemma span_build (f : ascii → bool) (a b : string) :
  Js.all f a = true →
  match b with EmptyString => True | String c _ => f c = false end →
  Js.span f (a +:+ b) = (a, b).
Proof.
  intros Ha Hb. induction a as [|x a IH]; simpl in *.
  - destruct b as [|c b]; [done|]. simpl. by rewrite Hb.
  - apply andb_true_iff in Ha as [Hx Ha]. by rewrite Hx, IH.
Qed.

Lemma isKeyChar_not_space (c : ascii) : isKeyChar c = true → Js.isSpace c = false.
Proof. destruct c as [[] [] [] [] [] [] [] []]; vm_compute; congruence. Qed.

(** The parts of a line matched by the key-value expression, in full. *)
Lemma keyValMatch_struct (line key value : string) :
  keyValMatch line = Some (key, value) →
  ∃ indent c word gap,
    key = indent +:+ String c word ∧
    line = key +:+ ":" +:+ gap +:+ value ∧
    Js.all Js.isSpace indent = true ∧
    Js.all isKeyChar (String c word) = true ∧
    Js.all Js.isDot value = true.
Proof.
  unfold keyValMatch.
  destruct (Js.span Js.isSpace line) as [indent r1] eqn:H1.
  destruct (Js.span isKeyChar r1) as [word r2] eqn:H2.
  destruct word as [|w word]; [done|]. destruct r2 as [|c r3]; [done|].
  destruct (Ascii.eqb c ":") eqn:Hc; [|done].
  destruct (Js.span Js.isSpace r3) as [gap value'] eqn:H3.
  destruct (Js.all Js.isDot value') eqn:Hdot; [|done]. intros [= <- <-].
  apply Ascii.eqb_eq in Hc as ->.
  apply span_spec in H1 as [-> Hindent]. apply span_spec in H2 as [-> Hword].
  apply span_spec in H3 as [-> _]. exists indent, w, word, gap.
  split_and!; try done. by rewrite !app_assoc_s, !app_cons.
Qed.

(** The key-value expression applied to a key, a colon, a space and a
    quoted text. *)
Lemma keyValMatch_quoted (indent : string) (c : ascii) (word v : string) :
  Js.all Js.isSpace indent = true →
  Js.all isKeyChar (String c word) = true →
  Js.all Js.isDot v = true →
  keyValMatch ((indent +:+ String c word) +:+ ": " +:+ DQ +:+ v +:+ DQ) =
    Some (indent +:+ String c word, DQ +:+ v +:+ DQ).
Proof.
  intros Hindent Hword Hv. unfold keyValMatch.
  rewrite app_assoc_s.
  rewrite (span_build Js.isSpace indent) by
    (try done; simpl in *; apply andb_true_iff in Hword as [Hc _];
     by apply isKeyChar_not_space).
  change (": " +:+ DQ +:+ v +:+ DQ)
    with (String ":" (" " +:+ (DQ +:+ v +:+ DQ))).
  rewrite (span_build isKeyChar (String c word)) by done.
  cbv beta iota. rewrite Ascii.eqb_refl.
  rewrite (span_build Js.isSpace " ") by done.
  cbv beta iota. rewrite !all_app, Hv. done.
Qed.

Lemma needsQuoting_quoted (v : string) : needsQuoting (DQ +:+ v) = false.
Proof. reflexivity. Qed.

(** A line that the repair pass has re-quoted is left alone by a second
    application. *)
Lemma fixLine_fixLine (line : string) : fixLine (fixLine line) = fixLine line.
Proof.
  destruct (keyValMatch line) as [[key value]|] eqn:Hm;
    [destruct (needsQuoting value) eqn:Hq|].
  - assert (fixLine line = key +:+ ": " +:+ DQ +:+ Js.escapeQuotes value +:+ DQ)
      as -> by (unfold fixLine; by rewrite Hm, Hq).
    apply keyValMatch_struct in Hm
      as (indent & c & word & gap & -> & _ & Hindent & Hword & Hvalue).
    unfold fixLine.
    rewrite (keyValMatch_quoted indent c word (Js.escapeQuotes value))
      by (try done; by apply all_escapeQuotes).
    by rewrite needsQuoting_quoted.
  - assert (fixLine line = line) as -> by (unfold fixLine; by rewrite Hm, Hq).
    unfold fixLine. by rewrite Hm, Hq.
  - assert (fixLine line = line) as -> by (unfold fixLine; by rewrite Hm).
    unfold fixLine. by rewrite Hm.
Qed.

(** The repair of a line keeps what precedes the colon of the key: whether
    a text free of colons starts the line is not changed. *)
Lemma startsWith_key (p key x y : string) :
  Js.all (notChar ":") p = true →
  Js.startsWith p (key +:+ ":" +:+ x) = Js.startsWith p (key +:+ ":" +:+ y).
Proof.
  revert p. induction key as [|c key IH]; intros [|d p]; simpl; try done.
  - intros [Hd _]%andb_true_iff. unfold notChar in Hd.
    apply negb_true_iff in Hd. by rewrite Hd.
  - intros [_ Hp]%andb_true_iff. by rewrite (IH p Hp).
Qed.

Lemma startsWith_fixLine (p line : string) :
  Js.all (notChar ":") p = true →
  Js.startsWith p (fixLine line) = Js.startsWith p line.
Proof.
  intros Hp. unfold fixLine.
  destruct (keyValMatch line) as [[key value]|] eqn:Hm; [|done].
  destruct (needsQuoting value); [|done].
  apply keyValMatch_parts in Hm as (gap & ->).
  change (key +:+ ": " +:+ DQ +:+ Js.escapeQuotes value +:+ DQ)
    with (key +:+ ":" +:+ (" " +:+ DQ +:+ Js.escapeQuotes value +:+ DQ)).
  by apply startsWith_key.
Qed.

(** ** The header of a repaired text *)

Lemma take_app_length (a b : string) : Js.take (String.length a) (a +:+ b) = a.
Proof. induction a as [|c a IH]; [by destruct b|]. simpl. by rewrite IH. Qed.

Lemma split_no_sep (c : ascii) (s l : string) :
  l ∈ Js.split c s → Js.all (notChar c) l = true.
Proof.
  revert l. induction s as [|x s IH]; intros l; simpl.
  - by intros ->%list_elem_of_singleton.
  - destruct (Ascii.eqb x c) eqn:Hx.
    + intros [->|?]%elem_of_cons; [done|auto].
    + destruct (split_cases c s) as (l0 & ls & Hsplit). rewrite Hsplit in *.
      intros [->|?]%elem_of_cons.
      * simpl. unfold notChar at 1. rewrite Hx. simpl. apply IH. set_solver.
      * apply IH. set_solver.
Qed.

Lemma split_line (c : ascii) (l : string) :
  Js.all (notChar c) l = true → Js.split c l = [l].
Proof.
  induction l as [|x l IH]; [done|]. simpl.
  intros [Hx Hl]%andb_true_iff. unfold notChar in Hx.
  apply negb_true_iff in Hx. by rewrite Hx, IH.
Qed.

Lemma split_app_line (c : ascii) (l r : string) :
  Js.all (notChar c) l = true →
  Js.split c (l +:+ String c r) = l :: Js.split c r.
Proof.
  induction l as [|x l IH]; simpl.
  - intros _. by rewrite Ascii.eqb_refl.
  - intros [Hx Hl]%andb_true_iff. unfold notChar in Hx.
    apply negb_true_iff in Hx. by rewrite Hx, IH.
Qed.

(** Splitting undoes joining when no line holds the separator. *)
Lemma split_join (c : ascii) (l0 : string) (ls : list string) :
  (∀ l, l ∈ l0 :: ls → Js.all (notChar c) l = true) →
  Js.split c (Js.join (String c EmptyString) (l0 :: ls)) = l0 :: ls.
Proof.
  revert l0. induction ls as [|l1 ls IH]; intros l0 Hl.
  - apply split_line, Hl. set_solver.
  - rewrite join_cons_cons. change (String c EmptyString +:+ ?x) with (String c x).
    rewrite split_app_line by (apply Hl; set_solver).
    f_equal. apply IH. intros l ?. apply Hl. set_solver.
Qed.

Lemma indexOf_cons (p : string) (c : ascii) (s : string) :
  Js.indexOf p (String c s) =
    if Js.startsWith p (String c s) then Some 0 else S <$> Js.indexOf p s.
Proof. reflexivity. Qed.

Lemma startsWith_cons (a : ascii) (p : string) (b : ascii) (s : string) :
  Js.startsWith (String a p) (String b s) = Ascii.eqb a b && Js.startsWith p s.
Proof. reflexivity. Qed.

(** The closing line of a header is not found inside a line. *)
Lemma indexOf_line (l r : string) :
  Js.all (notChar "010") l = true →
  Js.indexOf (LF +:+ "---") (l +:+ r) =
    (λ i, String.length l + i) <$> Js.indexOf (LF +:+ "---") r.
Proof.
  induction l as [|x l IH].
  - intros _. rewrite app_empty_l. by destruct (Js.indexOf _ r).
  - intros [Hx Hl]%andb_true_iff. unfold notChar in Hx.
    apply negb_true_iff in Hx. rewrite Ascii.eqb_sym in Hx.
    rewrite app_cons. change (LF +:+ "---") with (String "010" "---") in *.
    cbn [Js.indexOf Js.startsWith]. rewrite Hx. cbn [andb].
    rewrite IH by done. by destruct (Js.indexOf _ r).
Qed.

Lemma startsWith_line (c : ascii) (p l r : string) :
  Js.all (notChar c) p = true →
  Js.startsWith p (l +:+ String c r) = Js.startsWith p l.
Proof.
  revert p. induction l as [|x l IH]; intros [|d p]; simpl; try done.
  - intros [Hd _]%andb_true_iff. unfold notChar in Hd.
    apply negb_true_iff in Hd. by rewrite Hd.
  - intros [_ Hp]%andb_true_iff. by rewrite IH.
Qed.

(** The lines joined and followed by the closing line of a header. *)
Lemma join_then_fence (l1 : string) (ls : list string) (z : string) :
  ∃ r, Js.join LF (l1 :: ls) +:+ (LF +:+ "---") +:+ z = l1 +:+ String "010" r.
Proof.
  destruct ls as [|l2 ls].
  - by exists ("---" +:+ z).
  - rewrite join_cons_cons. exists (Js.join LF (l2 :: ls) +:+ (LF +:+ "---") +:+ z).
    by rewrite !app_assoc_s.
Qed.

(** In lines that hold no line break, joined and followed by the closing
    line of a header, the first closing line is that one exactly when no
    line after the first starts with three hyphens. *)
Lemma first_fence (l0 : string) (ls : list string) (z : string) :
  (∀ l, l ∈ l0 :: ls → Js.all (notChar "010") l = true) →
  Js.indexOf (LF +:+ "---") (Js.join LF (l0 :: ls) +:+ (LF +:+ "---") +:+ z) =
    Some (String.length (Js.join LF (l0 :: ls))) ↔
  ∀ l, l ∈ ls → Js.startsWith "---" l = false.
Proof.
  revert l0. induction ls as [|l1 ls IH]; intros l0 Hl.
  - cbn [Js.join]. rewrite indexOf_line by (apply Hl; set_solver).
    rewrite indexOf_here. simpl. rewrite Nat.add_0_r. split; [|done].
    by intros _ l ?%elem_of_nil.
  - set (X := Js.join LF (l1 :: ls) +:+ (LF +:+ "---") +:+ z).
    assert (Js.join LF (l0 :: l1 :: ls) +:+ (LF +:+ "---") +:+ z =
            l0 +:+ String "010" X) as ->.
    { rewrite join_cons_cons. subst X. by rewrite !app_assoc_s. }
    assert (String.length (Js.join LF (l0 :: l1 :: ls)) =
            String.length l0 + S (String.length (Js.join LF (l1 :: ls)))) as ->.
    { rewrite join_cons_cons, !app_length_s. done. }
    rewrite indexOf_line by (apply Hl; set_solver).
    assert (Js.indexOf (LF +:+ "---") (String "010" X) =
            if Js.startsWith "---" l1 then Some 0
            else S <$> Js.indexOf (LF +:+ "---") X) as ->.
    { destruct (join_then_fence l1 ls z) as (r & Hr). fold X in Hr.
      rewrite <- (startsWith_line "010" "---" l1 r), <- Hr by done.
      change (LF +:+ "---") with (String "010" "---").
      rewrite indexOf_cons, startsWith_cons, Ascii.eqb_refl. done. }
    destruct (Js.startsWith "---" l1) eqn:H1.
    + cbn [fmap option_fmap option_map]. split.
      * intros [= Heq]. lia.
      * intros Hall. rewrite Hall in H1; [done|set_solver].
    + assert (∀ l, l ∈ l1 :: ls → Js.all (notChar "010") l = true) as Hl1
        by (intros; apply Hl; set_solver).
      specialize (IH l1 Hl1). fold X in IH. split.
      * intros Heq l [->|Hin]%elem_of_cons; [done|].
        revert l Hin. apply IH.
        destruct (Js.indexOf _ X) as [i|]; [|done].
        cbn [fmap option_fmap option_map] in Heq.
        remember (String.length (Js.join LF (l1 :: ls))) as n.
        injection Heq as Heq. f_equal. lia.
      * intros Hall. rewrite (proj2 IH) by (intros; apply Hall; set_solver).
        reflexivity.
Qed.

(** The header expression matches up to the first closing line. *)
Lemma matchHeader_fence (content header : string) :
  matchHeader content = Some header →
  ∃ z, content = ("---" +:+ LF) +:+ header +:+ (LF +:+ "---") +:+ z ∧
       Js.indexOf (LF +:+ "---") (header +:+ (LF +:+ "---") +:+ z) =
         Some (String.length header).
Proof.
  unfold matchHeader.
  destruct (Js.startsWith ("---" +:+ LF) content) eqn:Hstart; [|done].
  apply startsWith_iff in Hstart as [rest ->].
  change (Js.drop 4 (("---" +:+ LF) +:+ rest)) with rest.
  destruct (Js.indexOf (LF +:+ "---") rest) as [i|] eqn:Hi; [|done].
  intros [= <-]. pose proof Hi as Hi'.
  apply indexOf_Some in Hi' as (a & z & Hrest & -> & _ & Hlen).
  exists z. rewrite Hlen. rewrite Hrest in Hi at 1. by rewrite Hrest at 1.
Qed.

Lemma matchHeader_build (h z : string) :
  Js.indexOf (LF +:+ "---") (h +:+ (LF +:+ "---") +:+ z) = Some (String.length h) →
  matchHeader (("---" +:+ LF) +:+ h +:+ (LF +:+ "---") +:+ z) = Some h.
Proof.
  intros Hi. unfold matchHeader. rewrite startsWith_app.
  change (Js.drop 4 (("---" +:+ LF) +:+ ?r)) with r.
  by rewrite Hi, take_app_length.
Qed.

(** The repair pass applied to a text that it has repaired changes
    nothing, when the header holds no dollar sign. *)
Lemma fixFrontmatter_twice (content header : string) :
  matchHeader content = Some header →
  Js.all (notChar "$") header = true →
  fixFrontmatter (fixFrontmatter content) = fixFrontmatter content.
Proof.
  intros Hm Hdollar.
  destruct (matchHeader_fence content header Hm) as (z & Hcontent & Hfirst).
  pose proof (fixFrontmatter_header content header Hm Hdollar) as Hfixed.
  assert (Js.drop (4 + String.length header) content = (LF +:+ "---") +:+ z)
    as Htail.
  { rewrite Hcontent.
    change (Js.drop (4 + ?n) (("---" +:+ LF) +:+ ?r)) with (Js.drop n r).
    apply drop_app_length. }
  rewrite Htail in Hfixed.
  destruct (split_cases "010" header) as (l0 & ls & Hsplit).
  rewrite Hsplit in Hfixed. rewrite fmap_cons in Hfixed.
  assert (∀ l, l ∈ l0 :: ls → Js.all (notChar "010") l = true) as Hlines.
  { intros l Hl. apply (split_no_sep "010" header). by rewrite Hsplit. }
  assert (∀ l, l ∈ l0 :: ls → Js.all (notChar "$") l = true) as Hplain.
  { intros l Hl. apply (all_split _ "010" header); [done|]. by rewrite Hsplit. }
  assert (∀ l, l ∈ fixLine l0 :: (fixLine <$> ls) →
               Js.all (notChar "010") l = true) as Hlines'.
  { intros l Hl. change (l ∈ fixLine <$> (l0 :: ls)) in Hl.
    apply list_elem_of_fmap in Hl as (l' & -> & Hl'). apply fixLine_keeps; auto. }
  assert (∀ l, l ∈ fixLine l0 :: (fixLine <$> ls) →
               Js.all (notChar "$") l = true) as Hplain'.
  { intros l Hl. change (l ∈ fixLine <$> (l0 :: ls)) in Hl.
    apply list_elem_of_fmap in Hl as (l' & -> & Hl'). apply fixLine_keeps; auto. }
  set (new := Js.join LF (fixLine l0 :: (fixLine <$> ls))) in *.
  assert (matchHeader (fixFrontmatter content) = Some new) as Hm'.
  { rewrite Hfixed. change ("---" +:+ LF +:+ ?r) with (("---" +:+ LF) +:+ r).
    apply matchHeader_build. subst new. apply first_fence; [done|].
    intros l (l' & -> & Hl')%list_elem_of_fmap.
    rewrite startsWith_fixLine by done.
    rewrite <- (join_split "010" header), Hsplit in Hfirst.
    revert l' Hl'. by apply (first_fence l0 ls z). }
  rewrite (fixFrontmatter_header _ new Hm') by (by apply all_join).
  subst new. rewrite split_join by done.
  rewrite fmap_cons, <- list_fmap_compose, fixLine_fixLine.
  rewrite (list_fmap_ext (fixLine ∘ fixLine) fixLine ls)
    by (intros; apply fixLine_fixLine).
  rewrite Hfixed.
  change (Js.drop (4 + ?n) ("---" +:+ LF +:+ ?r)) with (Js.drop n r).
  by rewrite drop_app_length.
Qed.

(** X5. The repair of a line settles at once: a line that the repair pass
    has re-quoted is matched by the key-value expression with the same key
    and a value that needs no quoting, so that a second application leaves
    it as it is; a line that the expression does not match is never
    changed; and a line without line terminators stays without. *)
Theorem fixLine_settles (line : string) :
  fixLine (fixLine line) = fixLine line ∧
  (∀ key value,
     keyValMatch line = Some (key, value) →
     ∃ value',
       keyValMatch (fixLine line) = Some (key, value') ∧
       needsQuoting value' = false) ∧
  (keyValMatch line = None → fixLine line = line) ∧
  (Js.all Js.isDot line = true → Js.all Js.isDot (fixLine line) = true).
Proof.
  split_and!.
  - apply fixLine_fixLine.
  - intros key value Hm. unfold fixLine. rewrite Hm.
    destruct (needsQuoting value) eqn:Hq; [|eauto].
    apply keyValMatch_struct in Hm
      as (indent & c & word & gap & -> & _ & Hindent & Hword & Hvalue).
    exists (DQ +:+ Js.escapeQuotes value +:+ DQ). split; [|done].
    apply keyValMatch_quoted; try done. by apply all_escapeQuotes.
  - intros Hm. unfold fixLine. by rewrite Hm.
  - by apply fixLine_keeps.
Qed.

(** X6. On a text whose header holds no dollar sign, the repair pass is
    idempotent: repairing a repaired text changes nothing. And it leaves
    alone, header and body, a text none of whose header lines needs the
    repair; a text without header is returned as it is. *)
Theorem fixFrontmatter_idempotent (content : string) :
  (∀ header, matchHeader content = Some header →
             Js.all (notChar "$") header = true) →
  fixFrontmatter (fixFrontmatter content) = fixFrontmatter content ∧
  ((∀ header line, matchHeader content = Some header →
                   line ∈ Js.split "010" header → fixLine line = line) →
   fixFrontmatter content = content) ∧
  (matchHeader content = None → fixFrontmatter content = content).
Proof.
  intros Hplain. destruct (matchHeader content) as [header|] eqn:Hm.
  - specialize (Hplain header eq_refl). split_and!.
    + by apply (fixFrontmatter_twice content header).
    + intros Hlines.
      rewrite (fixFrontmatter_header content header Hm Hplain).
      rewrite (list_fmap_ext fixLine id (Js.split "010" header)).
      * rewrite list_fmap_id.
        change (Js.join LF ?l) with (Js.join (String "010" EmptyString) l).
        rewrite join_split. symmetry. by apply matchHeader_parts.
      * intros i l Hl%list_elem_of_lookup_2. by apply (Hlines header).
    + done.
  - assert (fixFrontmatter content = content) as Hid
      by (unfold fixFrontmatter; by rewrite Hm).
    by rewrite !Hid.
Qed.

Lemma fixFrontmatter_idempotent_witness :
  fixFrontmatter (fixFrontmatter (agentText "colon" "Use when: always" "C")) =
  fixFrontmatter (agentText "colon" "Use when: always" "C").
Proof.
  apply (fixFrontmatter_idempotent (agentText "colon" "Use when: always" "C")).
  intros header Hm. vm_compute in Hm. injection Hm as <-. reflexivity.
Defined.

(** ** Outcomes of the generate command *)

(** The generation loop never throws and accounts for every agent. *)
Lemma generateLoop_total (host : Host) (options : GenerateOptions.t)
  (nameMap : gmap string string) (agents : list AgentFile.t) (w : World) :
  ∃ acc w',
    forOf agents (generateOne host options nameMap) ([], [], []) w = (Ok acc, w') ∧
    length acc.1.1 + length acc.1.2 + length acc.2 = length agents.
Proof.
  destruct (forOf_invariant
              (λ seen (acc : list string * list string * list string) _,
                 length acc.1.1 + length acc.1.2 + length acc.2 = length seen)
              (generateOne host options nameMap) agents)
    with (seen := @nil AgentFile.t)
         (acc := (@nil string, @nil string, @nil string)) (w := w)
    as (acc & w2 & Hrun & Hlen); [|done|eauto].
  intros seen a acc w' Hlen.
  destruct (generateOne_total host options nameMap acc a w') as (acc' & w'' & ? & ?).
  exists acc', w''. split; [done|]. rewrite length_app. simpl. lia.
Qed.

(** A run of [generateCommands] with a valid scope, exit by exit. *)
Lemma generateCommands_spec (host : Host) (options : GenerateOptions.t) (w : World) :
  validScope (GenerateOptions.scope options) = true →
  ∃ dirs agents w1 report w',
    getValidAgentsDirs host (GenerateOptions.scope options) w = (Ok dirs, w) ∧
    discoverAgents host (GenerateOptions.scope options) w = (Ok agents, w1) ∧
    fs w1 = fs w ∧
    generateCommands host options w = (Ok report, w') ∧
    ((dirs = [] ∧ report = NoAgentDirectories ∧ w' = w) ∨
     (dirs ≠ [] ∧ agents = [] ∧ report = NoAgentsFound ∧ w' = w1) ∨
     (dirs ≠ [] ∧ agents ≠ [] ∧ GenerateOptions.dryRun options = true ∧
      report = Preview ((λ agent, orElse (resolveNamingConflicts agents !!
                                            AgentFile.name agent) "unknown")
                          <$> agents) ∧
      w' = w1) ∨
     (dirs ≠ [] ∧ agents ≠ [] ∧ GenerateOptions.dryRun options = false ∧
      ∃ generated skipped errors,
        report = Generated generated skipped errors ∧
        length generated + length skipped + length errors = length agents)).
Proof.
  intros Hscope.
  destruct (discoverAgents_spec host (GenerateOptions.scope options) w)
    as (dirs & agents & w1 & Hdirs & Hdisc & Hfs & _).
  exists dirs, agents, w1.
  unfold generateCommands. rewrite Hscope. change (negb true) with false.
  cbv iota. unfold mbind, M_bind, mret, M_ret. rewrite Hdirs.
  destruct (bool_decide (length dirs = 0)) eqn:Hlen.
  { apply bool_decide_eq_true, nil_length_inv in Hlen.
    eexists _, _. split_and!; [done..|]. by left. }
  apply bool_decide_eq_false in Hlen.
  assert (dirs ≠ []) as Hne by (by intros ->).
  cbv beta. rewrite Hdisc.
  destruct (bool_decide (length agents = 0)) eqn:Hlen2.
  { apply bool_decide_eq_true, nil_length_inv in Hlen2.
    eexists _, _. split_and!; [done..|]. right. by left. }
  apply bool_decide_eq_false in Hlen2.
  assert (agents ≠ []) as Hne2 by (by intros ->).
  destruct (GenerateOptions.dryRun options) eqn:Hdry.
  { eexists _, _. split_and!; [done..|]. right. right. by left. }
  cbv beta.
  destruct (generateLoop_total host options (resolveNamingConflicts agents) agents w1)
    as (acc & w2 & -> & Hcount).
  eexists _, _. split_and!; [done..|]. right. right. right.
  split_and!; [done..|]. eexists _, _, _. done.
Qed.

Lemma validScope_false (scope : string) :
  validScope scope = false ↔
  scope ≠ "project" ∧ scope ≠ "user" ∧ scope ≠ "both".
Proof.
  unfold validScope. rewrite bool_decide_eq_false, !elem_of_cons, elem_of_nil. tauto.
Qed.

(** X7. A dry run of [generateCommands] leaves the disk as it is and never
    reports generated commands; when it reports a preview, the preview
    names one command for each discovered agent, in the order of
    discovery. *)
Theorem generateCommands_dry_run (host : Host) (options : GenerateOptions.t)
  (w : World) :
  GenerateOptions.dryRun options = true →
  fs (generateCommands host options w).2 = fs w ∧
  (∀ generated skipped errors,
     (generateCommands host options w).1 ≠ Ok (Generated generated skipped errors)) ∧
  (∀ commandNames,
     (generateCommands host options w).1 = Ok (Preview commandNames) →
     ∃ agents,
       (discoverAgents host (GenerateOptions.scope options) w).1 = Ok agents ∧
       agents ≠ [] ∧
       commandNames =
         (λ agent, orElse (resolveNamingConflicts agents !! AgentFile.name agent)
                          "unknown") <$> agents).
Proof.
  intros Hdry.
  destruct (validScope (GenerateOptions.scope options)) eqn:Hscope.
  - destruct (generateCommands_spec host options w Hscope)
      as (dirs & agents & w1 & report & w' & _ & Hdisc & Hfs & Hrun & Hcases).
    rewrite Hrun, Hdisc. simpl.
    destruct Hcases as [(_ & -> & ->)|[(_ & _ & -> & ->)|
      [(_ & Hne & _ & -> & ->)|(_ & _ & Hno & _)]]]; [| | |congruence].
    + split_and!; done.
    + split_and!; done.
    + split_and!; [done|done|]. intros names [= <-]. by exists agents.
  - unfold generateCommands. rewrite Hscope. simpl. split_and!; done.
Qed.

Lemma generateCommands_dry_run_witness :
  fs (generateCommands sampleHost (GenerateOptions.mk "project" true false false)
        sampleWorld).2 = fs sampleWorld.
Proof.
  apply (generateCommands_dry_run sampleHost
           (GenerateOptions.mk "project" true false false) sampleWorld).
  reflexivity.
Defined.

(** X8. When discovery finds no agent, neither [generateCommands] nor
    [syncCommands] changes the disk: generation reports that there is no
    agent directory or no agent, and sync reports that there is nothing to
    sync, with or without orphan cleanup, so that the generated commands
    left behind by removed agents stay. *)
Theorem no_agents_no_change (host : Host) (scope : string) (w : World) :
  validScope scope = true →
  (discoverAgents host scope w).1 = Ok [] →
  (∀ dryRun force verbose,
     ∃ report w',
       generateCommands host (GenerateOptions.mk scope dryRun force verbose) w =
         (Ok report, w') ∧
       (report = NoAgentDirectories ∨ report = NoAgentsFound) ∧
       fs w' = fs w) ∧
  (∀ clean verbose,
     ∃ w',
       syncCommands host (SyncOptions.mk scope clean verbose) w =
         (Ok NoAgentsToSync, w') ∧
       fs w' = fs w).
Proof.
  intros Hscope Hnone. split.
  - intros dryRun force verbose.
    destruct (generateCommands_spec host
                (GenerateOptions.mk scope dryRun force verbose) w Hscope)
      as (dirs & agents & w1 & report & w' & _ & Hdisc & Hfs & Hrun & Hcases).
    simpl in *. rewrite Hdisc in Hnone. injection Hnone as ->.
    exists report, w'. split; [done|].
    destruct Hcases as [(_ & -> & ->)|[(_ & _ & -> & ->)|
      [(_ & ? & _)|(_ & ? & _)]]]; try done; eauto.
  - intros clean verbose.
    destruct (syncCommands_spec host (SyncOptions.mk scope clean verbose) w Hscope)
      as (agents & w1 & existing & w2 & generated & report & w' &
          Hdisc & _ & _ & _ & Hrun & Hcases).
    simpl in *. rewrite Hdisc in Hnone. injection Hnone as ->.
    exists w'. destruct Hcases as [(_ & -> & ?)|[(? & _)|(? & _)]]; done.
Qed.

Lemma no_agents_no_change_witness :
  ∃ w',
    syncCommands sampleHost (SyncOptions.mk "project" true false) orphanWorld =
      (Ok NoAgentsToSync, w') ∧
    fs w' = fs orphanWorld.
Proof.
  apply (no_agents_no_change sampleHost "project" orphanWorld).
  - reflexivity.
  - vm_compute. reflexivity.
Defined.

(** ** The classification as a partition *)

(** The classification loop, exactly: the agents that have a generated
    command of their resolved name, each with the first such command, and
    the agents that have none, both in the order of the agents. *)
Lemma classify_exact (nameMap : gmap string string)
  (generatedCommands : list CommandFile.t) (agents : list AgentFile.t)
  (acc : list (AgentFile.t * CommandFile.t) * list AgentFile.t) :
  foldl (classifyAgent nameMap generatedCommands) acc agents =
  (acc.1 ++ omap (λ a, pair a <$>
                       findCommand generatedCommands (nameMap !! AgentFile.name a))
                 agents,
   acc.2 ++ filter (λ a, findCommand generatedCommands
                           (nameMap !! AgentFile.name a) = None) agents).
Proof.
  revert acc. induction agents as [|x agents IH]; intros [up cr]; simpl.
  - by rewrite !app_nil_r.
  - rewrite IH. unfold classifyAgent. rewrite filter_cons.
    destruct (findCommand generatedCommands (nameMap !! AgentFile.name x)) as [c|];
      simpl.
    + by rewrite <- app_assoc.
    + by rewrite <- app_assoc.
Qed.

Lemma classified_permutation {A B} (f : A → option B) (l : list A) :
  (omap (λ a, pair a <$> f a) l).*1 ++ filter (λ a, f a = None) l ≡ₚ l.
Proof.
  induction l as [|x l IH]; [done|]. simpl. rewrite filter_cons.
  destruct (f x) as [b|]; simpl.
  - by rewrite IH.
  - by rewrite <- Permutation_middle, IH.
Qed.

Lemma classified_sublist {A B} (f : A → option B) (l : list A) :
  (omap (λ a, pair a <$> f a) l).*1 `sublist_of` l.
Proof.
  induction l as [|x l IH]; [done|]. simpl.
  destruct (f x) as [b|]; simpl; [by apply sublist_skip|by apply sublist_cons].
Qed.

(** The two lists of the classification, exactly. *)
Lemma reconcile_exact (clean : bool) (agents : list AgentFile.t)
  (generatedCommands : list CommandFile.t) :
  toUpdate (reconcile clean agents generatedCommands) =
    omap (λ a, pair a <$>
               findCommand generatedCommands
                 (resolveNamingConflicts agents !! AgentFile.name a)) agents ∧
  toCreate (reconcile clean agents generatedCommands) =
    filter (λ a, findCommand generatedCommands
                   (resolveNamingConflicts agents !! AgentFile.name a) = None)
           agents.
Proof. unfold reconcile. cbv zeta. rewrite classify_exact. done. Qed.


(** X9. The classification of a sync run is a partition of the agents:
    every agent is either paired with a generated command in [toUpdate] or
    listed in [toCreate], never both and never twice, and both lists keep
    the order of the agents. *)
Theorem reconcile_partitions_agents (clean : bool) (agents : list AgentFile.t)
  (generatedCommands : list CommandFile.t) :
  let plan := reconcile clean agents generatedCommands in
  (toUpdate plan).*1 ++ toCreate plan ≡ₚ agents ∧
  length (toUpdate plan) + length (toCreate plan) = length agents ∧
  (toUpdate plan).*1 `sublist_of` agents ∧
  toCreate plan `sublist_of` agents ∧
  (∀ a c, (a, c) ∈ toUpdate plan → a ∉ toCreate plan).
Proof.
  intros plan.
  destruct (reconcile_exact clean agents generatedCommands) as [Hup Hcr].
  fold plan in Hup, Hcr.
  assert ((toUpdate plan).*1 ++ toCreate plan ≡ₚ agents) as Hperm.
  { rewrite Hup, Hcr. apply classified_permutation. }
  split_and!.
  - done.
  - apply Permutation_length in Hperm.
    by rewrite length_app, length_fmap in Hperm.
  - rewrite Hup. apply classified_sublist.
  - rewrite Hcr. apply sublist_filter.
  - intros a c Hin Hout. rewrite Hup in Hin. rewrite Hcr in Hout.
    apply list_elem_of_omap in Hin as (a' & _ & Hf).
    apply list_elem_of_filter in Hout as [Hnone _].
    destruct (findCommand generatedCommands
                (resolveNamingConflicts agents !! AgentFile.name a')) eqn:Hfind;
      [|done].
    injection Hf as -> ->. congruence.
Qed.



(** ** A sync that finds agents always regenerates *)


(** ** The clean command *)

(** One iteration of the deletion loop of the clean command: it never
    throws, counts the command as deleted or adds an error line, touches no
    other path, and removes the file when it can be removed. *)
Lemma unlinkOne_spec (acc : nat * list string) (command : CommandFile.t) (w : World) :
  ∃ acc' w',
    unlinkOne acc command w = (Ok acc', w') ∧
    acc'.1 + length acc'.2 = S (acc.1 + length acc.2) ∧
    (∀ p, p ≠ CommandFile.path command → fs w' !! p = fs w !! p) ∧
    (fs w' !! CommandFile.path command = None ∨
     fs w' !! CommandFile.path command = fs w !! CommandFile.path command) ∧
    (∀ c r, fs w !! CommandFile.path command = Some (File c r true) →
            fs w' !! CommandFile.path command = None).
Proof.
  unfold unlinkOne, Fs.unlinkSync. unfold_M.
  destruct (fs w !! CommandFile.path command) as [[c r [|]|]|] eqn:Hp; simpl;
    eexists _, _; (split; [done|]); simpl.
  - split; [lia|]. split; [intros; by apply lookup_delete_ne|].
    rewrite lookup_delete_eq. eauto.
  - rewrite length_app. simpl. split; [lia|]. rewrite Hp.
    split; [done|]. split; [eauto|intros; simplify_eq].
  - rewrite length_app. simpl. split; [lia|]. rewrite Hp.
    split; [done|]. split; [eauto|intros; simplify_eq].
  - rewrite length_app. simpl. split; [lia|]. rewrite Hp.
    split; [done|]. split; [eauto|intros; simplify_eq].
Qed.

Lemma unlinkLoop_spec (l : list CommandFile.t) (acc : nat * list string) (w : World) :
  ∃ acc' w',
    forOf l unlinkOne acc w = (Ok acc', w') ∧
    acc'.1 + length acc'.2 = acc.1 + length acc.2 + length l ∧
    (∀ p, p ∉ CommandFile.path <$> l → fs w' !! p = fs w !! p) ∧
    (∀ p, fs w' !! p = None ∨ fs w' !! p = fs w !! p) ∧
    (∀ p c r, p ∈ CommandFile.path <$> l →
       fs w !! p = Some (File c r true) → fs w' !! p = None).
Proof.
  pose (I := λ (seen : list CommandFile.t) (acc' : nat * list string) (w' : World),
    acc'.1 + length acc'.2 = acc.1 + length acc.2 + length seen ∧
    (∀ p, p ∉ CommandFile.path <$> seen → fs w' !! p = fs w !! p) ∧
    (∀ p, fs w' !! p = None ∨ fs w' !! p = fs w !! p) ∧
    (∀ p c r, p ∈ CommandFile.path <$> seen →
       fs w !! p = Some (File c r true) → fs w' !! p = None)).
  destruct (forOf_invariant I unlinkOne l) with
    (seen := @nil CommandFile.t) (acc := acc) (w := w)
    as (acc' & w' & Hrun & Hcount & Hout & Hany & Hin).
  - intros seen x acc1 w1 (Hcount & Hout & Hany & Hin).
    destruct (unlinkOne_spec acc1 x w1)
      as (acc2 & w2 & Hrun & Hc & Hother & Hself & Hgone).
    exists acc2, w2. split; [done|]. split; [rewrite length_app; simpl; lia|].
    split_and!.
    + intros p Hp. rewrite fmap_app, elem_of_app in Hp. simpl in Hp.
      rewrite Hother by set_solver. apply Hout. tauto.
    + intros p. destruct (decide (p = CommandFile.path x)) as [->|Hne].
      * destruct Hself as [?|Heq]; [by left|]. rewrite Heq. apply Hany.
      * rewrite Hother by done. apply Hany.
    + intros p c r Hp Hw. destruct (decide (p = CommandFile.path x)) as [->|Hne].
      * destruct (Hany (CommandFile.path x)) as [Hnone|Hsame].
        -- destruct Hself as [?|Heq]; [done|]. by rewrite Heq.
        -- apply (Hgone c r). by rewrite Hsame.
      * rewrite Hother by done. apply (Hin p c r); [|done].
        rewrite fmap_app, elem_of_app in Hp. simpl in Hp. set_solver.
  - unfold I. simpl. split; [lia|]. split; [done|]. split; [by right|].
    by intros ? ? ? ?%elem_of_nil.
  - exists acc', w'. done.
Qed.

(** A run of [cleanCommands] with a valid scope, step by step. *)
Lemma cleanCommands_spec (host : Host) (options : CleanOptions.t)
  (answer : string) (w : World) :
  validScope (CleanOptions.scope options) = true →
  ∃ commands w1 generated report w',
    discoverCommands host (CleanOptions.scope options) w = (Ok commands, w1) ∧
    fs w1 = fs w ∧
    (∀ c, c ∈ generated ↔
          c ∈ commands ∧ (isGeneratedFile (CommandFile.path c) w).1 = Ok true) ∧
    cleanCommands host options answer w = (Ok report, w') ∧
    ((generated = [] ∧ report = NothingToClean ∧ fs w' = fs w) ∨
     (generated ≠ [] ∧ CleanOptions.yes options = false ∧
      confirmDeletion answer = false ∧ report = CleanCancelled ∧ fs w' = fs w) ∨
     (generated ≠ [] ∧
      (CleanOptions.yes options = true ∨ confirmDeletion answer = true) ∧
      ∃ deleted errors,
        report = Cleaned deleted (length generated) errors ∧
        deleted + length errors = length generated ∧
        (∀ p, p ∉ CommandFile.path <$> generated → fs w' !! p = fs w !! p) ∧
        (∀ p, fs w' !! p = None ∨ fs w' !! p = fs w !! p) ∧
        (∀ p c r, p ∈ CommandFile.path <$> generated →
           fs w !! p = Some (File c r true) → fs w' !! p = None))).
Proof.
  intros Hscope.
  destruct (discoverCommands_spec host (CleanOptions.scope options) w)
    as (commands & w1 & Hdisc & Hfs1).
  destruct (filterM_generated commands w1) as (generated & Hfilter & Hgen).
  exists commands, w1, generated.
  unfold cleanCommands, tryCatch. cbv zeta. rewrite Hscope.
  change (negb true) with false. cbv iota.
  unfold mbind, M_bind, mret, M_ret. cbv beta iota zeta.
  rewrite Hdisc. cbv beta iota. rewrite Hfilter. cbv beta iota.
  assert (∀ c, c ∈ generated ↔
      c ∈ commands ∧ (isGeneratedFile (CommandFile.path c) w).1 = Ok true) as Hgen'.
  { intros c. rewrite Hgen. by rewrite (isGeneratedFile_result _ w1 w Hfs1). }
  destruct (bool_decide (length generated = 0)) eqn:Hlen.
  { apply bool_decide_eq_true, nil_length_inv in Hlen.
    eexists _, _. split_and!; [done..|]. by left. }
  apply bool_decide_eq_false in Hlen.
  assert (generated ≠ []) as Hne by (by intros ->).
  destruct (CleanOptions.yes options) eqn:Hyes;
    [|destruct (confirmDeletion answer) eqn:Hconf]; simpl.
  3: { eexists _, _. split_and!; [done..|]. right. left. done. }
  all: destruct (unlinkLoop_spec generated (0, []) w1)
         as (acc & w2 & -> & Hcount & Hout & Hany & Hin);
       cbn [fst snd length] in Hcount;
       eexists _, _; (split_and!; [done..|]); right; right;
       (split; [done|]); (split; [eauto|]);
       eexists _, _; (split; [done|]); rewrite <- Hfs1; split_and!;
         [lia|done|done|done].
Qed.

(** ** The scope of a run *)


(** X13. Whatever its options and whatever is answered at the question,
    [cleanCommands] creates and rewrites nothing, and removes nothing but
    files that are detected as generated: every node of the disk after the
    run was there before it, unchanged, and every node that is not a
    generated file is still there. *)
Theorem cleanCommands_only_generated (host : Host) (options : CleanOptions.t)
  (answer : string) (w : World) :
  (∀ p n, fs (cleanCommands host options answer w).2 !! p = Some n →
          fs w !! p = Some n) ∧
  (∀ p n, fs w !! p = Some n → (isGeneratedFile p w).1 = Ok false →
          fs (cleanCommands host options answer w).2 !! p = Some n).
Proof.
  destruct (validScope (CleanOptions.scope options)) eqn:Hscope.
  - destruct (cleanCommands_spec host options answer w Hscope)
      as (commands & w1 & generated & report & w' & _ & _ & Hgen & -> & Hcases).
    simpl.
    destruct Hcases as [(_ & _ & ->)|[(_ & _ & _ & _ & ->)|
      (_ & _ & deleted & errors & _ & _ & Hout & Hany & _)]]; [done..|].
    split.
    + intros p n Hp. destruct (Hany p) as [Hnone|Hsame]; congruence.
    + intros p n Hp Hmanual. rewrite Hout; [done|].
      intros (c & -> & [_ Hc]%Hgen)%list_elem_of_fmap. congruence.
  - unfold cleanCommands, tryCatch. cbv zeta. rewrite Hscope. done.
Qed.

(** X14. Without the [yes] option, [cleanCommands] deletes nothing unless
    the answer at the question is a confirmation: the disk is left as it
    is and no deletion is reported. *)
Theorem cleanCommands_declined (host : Host) (options : CleanOptions.t)
  (answer : string) (w : World) :
  CleanOptions.yes options = false →
  confirmDeletion answer = false →
  fs (cleanCommands host options answer w).2 = fs w ∧
  ∀ deleted total errors,
    (cleanCommands host options answer w).1 ≠ Ok (Cleaned deleted total errors).
Proof.
  intros Hyes Hanswer.
  destruct (validScope (CleanOptions.scope options)) eqn:Hscope.
  - destruct (cleanCommands_spec host options answer w Hscope)
      as (commands & w1 & generated & report & w' & _ & _ & _ & -> & Hcases).
    simpl.
    destruct Hcases as [(_ & -> & ->)|[(_ & _ & _ & -> & ->)|
      (_ & [?|?] & _)]]; try done; congruence.
  - unfold cleanCommands, tryCatch. cbv zeta. rewrite Hscope. done.
Qed.

Lemma cleanCommands_declined_witness :
  fs (cleanCommands sampleHost (CleanOptions.mk "project" false) "no" sampleWorld).2 =
    fs sampleWorld.
Proof.
  apply (cleanCommands_declined sampleHost (CleanOptions.mk "project" false)
           "no" sampleWorld); reflexivity.
Defined.

(** X15. With the [yes] option or a confirming answer, [cleanCommands]
    goes through all the generated commands that discovery found: the
    counter of deleted files and the error lines add up to their number,
    and every one of them whose file can be removed is removed, whatever
    happened to the others. *)
Theorem cleanCommands_removes_all (host : Host) (options : CleanOptions.t)
  (answer : string) (w : World) :
  validScope (CleanOptions.scope options) = true →
  CleanOptions.yes options = true ∨ confirmDeletion answer = true →
  ∃ commands report w',
    (discoverCommands host (CleanOptions.scope options) w).1 = Ok commands ∧
    cleanCommands host options answer w = (Ok report, w') ∧
    (report = NothingToClean ∧
     (∀ c, c ∈ commands → (isGeneratedFile (CommandFile.path c) w).1 = Ok false) ∨
     ∃ deleted total errors,
       report = Cleaned deleted total errors ∧
       deleted + length errors = total ∧
       0 < total) ∧
    (∀ c content readable,
       c ∈ commands →
       (isGeneratedFile (CommandFile.path c) w).1 = Ok true →
       fs w !! CommandFile.path c = Some (File content readable true) →
       fs w' !! CommandFile.path c = None).
Proof.
  intros Hscope Hgo.
  destruct (cleanCommands_spec host options answer w Hscope)
    as (commands & w1 & generated & report & w' & Hdisc & _ & Hgen & Hrun & Hcases).
  exists commands, report, w'. rewrite Hdisc. split; [done|]. split; [done|].
  destruct Hcases as [(-> & -> & _)|[(_ & Hyes & Hanswer & _)|
    (Hne & _ & deleted & errors & -> & Hcount & _ & _ & Hin)]].
  - split.
    + left. split; [done|]. intros c Hc.
      destruct (isGeneratedFile_total (CommandFile.path c) w) as ([] & Hb);
        rewrite Hb; [|done].
      assert (c ∈ @nil CommandFile.t) as ?%elem_of_nil; [|done].
      apply Hgen. by rewrite Hb.
    + intros c content readable Hc Hg _.
      assert (c ∈ @nil CommandFile.t) as ?%elem_of_nil; [|done]. by apply Hgen.
  - destruct Hgo; congruence.
  - split.
    + right. exists deleted, (length generated), errors. split_and!; [done..|].
      destruct generated; [done|simpl; lia].
    + intros c content readable Hc Hg Hnode. apply (Hin _ content readable); [|done].
      apply list_elem_of_fmap. exists c. split; [done|]. by apply Hgen.
Qed.

Lemma cleanCommands_removes_all_witness :
  ∃ commands report w',
    (discoverCommands sampleHost "project" sampleWorld).1 = Ok commands ∧
    cleanCommands sampleHost (CleanOptions.mk "project" true) EmptyString sampleWorld =
      (Ok report, w').
Proof.
  destruct (cleanCommands_removes_all sampleHost (CleanOptions.mk "project" true)
              EmptyString sampleWorld)
    as (commands & report & w' & Hdisc & Hrun & _).
  - reflexivity.
  - left. reflexivity.
  - exists commands, report, w'. split; [exact Hdisc|exact Hrun].
Defined.

Example cleanCommands_sample :
  (cleanCommands sampleHost (CleanOptions.mk "project" true) EmptyString sampleWorld).1 =
    Ok (Cleaned 2 2 []) ∧
  fs (cleanCommands sampleHost (CleanOptions.mk "project" true) EmptyString
        sampleWorld).2 !! "/work/.claude/commands/old-agent.md" = None ∧
  fs (cleanCommands sampleHost (CleanOptions.mk "project" true) EmptyString
        sampleWorld).2 !! "/work/.claude/commands/sub/nested.md" = None ∧
  fs (cleanCommands sampleHost (CleanOptions.mk "project" true) EmptyString
        sampleWorld).2 !! "/work/.claude/commands/notes.md" =
    Some (File "My notes" true true) ∧
  (cleanCommands sampleHost (CleanOptions.mk "project" false) " YES " sampleWorld).1 =
    Ok (Cleaned 2 2 []) ∧
  (cleanCommands sampleHost (CleanOptions.mk "project" false) EmptyString sampleWorld).1 =
    Ok CleanCancelled.
Proof. split_and!; vm_compute; reflexivity. Qed.

(** ** The confirmation of a deletion *)

Lemma trimStart_spec (s : string) :
  ∃ pre, s = pre +:+ JsText.trimStart s ∧ Js.all Js.isSpace pre = true.
Proof.
  induction s as [|c s (pre & IH & Hpre)]; simpl.
  - by exists EmptyString.
  - destruct (Js.isSpace c) eqn:Hc.
    + exists (String c pre). rewrite app_cons, <- IH. simpl. by rewrite Hc.
    + by exists EmptyString.
Qed.

Lemma trimEnd_spec (s : string) :
  ∃ post, s = JsText.trimEnd s +:+ post ∧ Js.all Js.isSpace post = true.
Proof.
  induction s as [|c s (post & IH & Hpost)]; simpl.
  - by exists EmptyString.
  - destruct (JsText.trimEnd s) as [|d t] eqn:Ht.
    + destruct (Js.isSpace c) eqn:Hc.
      * exists (String c post). rewrite app_empty_l in *. subst s.
        simpl. by rewrite Hc.
      * exists post. rewrite app_cons. by rewrite app_empty_l in *; subst s.
    + exists post. rewrite app_cons. by rewrite <- IH.
Qed.

Lemma trimStart_spaces (pre s : string) :
  Js.all Js.isSpace pre = true → JsText.trimStart (pre +:+ s) = JsText.trimStart s.
Proof.
  induction pre as [|c pre IH]; [done|]. simpl.
  intros [Hc Hpre]%andb_true_iff. by rewrite Hc, IH.
Qed.

Lemma trimEnd_spaces (post : string) :
  Js.all Js.isSpace post = true → JsText.trimEnd post = EmptyString.
Proof.
  induction post as [|c post IH]; [done|]. simpl.
  intros [Hc Hpost]%andb_true_iff. by rewrite IH, Hc.
Qed.

Lemma toLowerCase_app (a b : string) :
  JsText.toLowerCase (a +:+ b) = JsText.toLowerCase a +:+ JsText.toLowerCase b.
Proof. induction a as [|c a IH]; [done|]. simpl. by rewrite IH. Qed.

Lemma toLowerCase_split (s x y : string) :
  JsText.toLowerCase s = x +:+ y →
  ∃ a b, s = a +:+ b ∧ JsText.toLowerCase a = x ∧ JsText.toLowerCase b = y.
Proof.
  revert s. induction x as [|c x IH]; intros s.
  - rewrite app_empty_l. intros <-. by exists EmptyString, s.
  - rewrite app_cons. destruct s as [|d s]; [done|]. simpl.
    intros [= <- (a & b & -> & <- & <-)%IH]. by exists (String d a), b.
Qed.

Lemma toLowerChar_space (c : ascii) :
  Js.isSpace (JsText.toLowerChar c) = Js.isSpace c.
Proof. destruct c as [[] [] [] [] [] [] [] []]; reflexivity. Qed.

Lemma toLowerCase_spaces (s : string) :
  Js.all Js.isSpace (JsText.toLowerCase s) = Js.all Js.isSpace s.
Proof.
  induction s as [|c s IH]; [done|]. simpl. by rewrite toLowerChar_space, IH.
Qed.

(** The answers whose lower-case form is the letter y, and those whose
    lower-case form is the word yes. *)
Lemma toLowerChar_letter (c : ascii) (lower upper : ascii) :
  (lower, upper) ∈ [("y", "Y"); ("e", "E"); ("s", "S")]%char →
  JsText.toLowerChar c = lower ↔ c = lower ∨ c = upper.
Proof.
  intros Hl. assert (c = lower ∨ c = upper → JsText.toLowerChar c = lower) as Hback.
  { rewrite !elem_of_cons, elem_of_nil in Hl.
    destruct Hl as [[= -> ->]|[[= -> ->]|[[= -> ->]|[]]]]; by intros [->| ->]. }
  split; [|done]. clear Hback.
  rewrite !elem_of_cons, elem_of_nil in Hl.
  destruct Hl as [[= -> ->]|[[= -> ->]|[[= -> ->]|[]]]];
    destruct c as [[] [] [] [] [] [] [] []]; vm_compute; intros [=]; tauto.
Qed.

Lemma toLowerCase_y (core : string) :
  JsText.toLowerCase core = "y" ↔ core ∈ ["y"; "Y"].
Proof.
  rewrite !elem_of_cons, elem_of_nil. destruct core as [|c [|d core]]; simpl.
  - split; [done|]. intros [|[|[]]]; done.
  - split.
    + intros [= Hc].
      apply (proj1 (toLowerChar_letter c "y" "Y" ltac:(set_solver))) in Hc
        as [->| ->]; tauto.
    + intros [[= ->]|[[= ->]|[]]]; done.
  - split; [done|]. intros [|[|[]]]; done.
Qed.

Lemma toLowerCase_yes (core : string) :
  JsText.toLowerCase core = "yes" ↔
  core ∈ ["yes"; "yeS"; "yEs"; "yES"; "Yes"; "YeS"; "YEs"; "YES"].
Proof.
  split.
  - destruct core as [|c1 [|c2 [|c3 [|c4 core]]]]; simpl; try done.
    intros [= H1 H2 H3].
    apply (proj1 (toLowerChar_letter c1 "y" "Y" ltac:(set_solver))) in H1.
    apply (proj1 (toLowerChar_letter c2 "e" "E" ltac:(set_solver))) in H2.
    apply (proj1 (toLowerChar_letter c3 "s" "S" ltac:(set_solver))) in H3.
    destruct H1 as [->| ->], H2 as [->| ->], H3 as [->| ->]; set_solver.
  - rewrite !elem_of_cons, elem_of_nil.
    intros [->|[->|[->|[->|[->|[->|[->|[->|[]]]]]]]]]; done.
Qed.

Lemma trim_padded (pre post core : string) :
  Js.all Js.isSpace pre = true → Js.all Js.isSpace post = true →
  core = "y" ∨ core = "yes" →
  JsText.trim (pre +:+ core +:+ post) = core.
Proof.
  intros Hpre Hpost Hcore. unfold JsText.trim. rewrite trimStart_spaces by done.
  destruct Hcore as [->| ->]; simpl; by rewrite trimEnd_spaces.
Qed.

(** X16. The answers that [confirmDeletion] takes as a confirmation are
    exactly the letter y and the word yes, in any mix of upper and lower
    case, with any white space before and after; an empty answer, and any
    other, declines. *)
Theorem confirmDeletion_spec (answer : string) :
  confirmDeletion answer = true ↔
  ∃ pre core post,
    answer = pre +:+ core +:+ post ∧
    Js.all Js.isSpace pre = true ∧
    Js.all Js.isSpace post = true ∧
    core ∈ ["y"; "Y"; "yes"; "yeS"; "yEs"; "yES"; "Yes"; "YeS"; "YEs"; "YES"].
Proof.
  unfold confirmDeletion. rewrite orb_true_iff, !String.eqb_eq. split.
  - intros Htrim.
    destruct (trimStart_spec (JsText.toLowerCase answer)) as (pre' & Ha & Hpre').
    destruct (trimEnd_spec (JsText.trimStart (JsText.toLowerCase answer)))
      as (post' & Hb & Hpost').
    fold (JsText.trim (JsText.toLowerCase answer)) in Hb.
    rewrite Hb in Ha.
    apply toLowerCase_split in Ha as (pre & rest & -> & <- & Hrest).
    apply toLowerCase_split in Hrest as (core & post & -> & Hcore & <-).
    exists pre, core, post. rewrite toLowerCase_spaces in Hpre', Hpost'.
    split_and!; [done..|].
    rewrite <- Hcore in Htrim. destruct Htrim as [Hy%toLowerCase_y|Hyes%toLowerCase_yes].
    + set_solver.
    + rewrite !elem_of_cons. rewrite !elem_of_cons in Hyes. tauto.
  - intros (pre & core & post & -> & Hpre & Hpost & Hcore).
    rewrite !toLowerCase_app.
    assert (JsText.toLowerCase core = "y" ∨ JsText.toLowerCase core = "yes") as Hl.
    { rewrite toLowerCase_y, toLowerCase_yes. rewrite !elem_of_cons in *. tauto. }
    rewrite trim_padded by (by rewrite ?toLowerCase_spaces). done.
Qed.

(** ** The init command *)

(** A node is a regular file. *)
Lemma isFile_true (n : node) : isFile n = true ↔ ∃ c r wr, n = File c r wr.
Proof. destruct n; simpl; [|split; [done|by intros (? & ? & ? & ?)]]. split; eauto. Qed.

(** The creation of a directory, when no file is in the way, adds the
    directory unless the path is taken. *)
Lemma mkdirSync_ok (p : string) (m : gmap string node)
  (con : list (level * string)) (dec : list string) :
  (∀ n, m !! p = Some n → isFile n = false) →
  Fs.mkdirSync p (mkWorld m con dec) =
    (Ok (), mkWorld (m ∪ {[p := Directory]}) con dec).
Proof.
  intros Hp. unfold Fs.mkdirSync. simpl.
  destruct (m !! p) as [[c r wr|]|] eqn:Hnode.
  - by specialize (Hp _ eq_refl).
  - do 2 f_equal. apply map_eq. intros q.
    destruct (decide (q = p)) as [->|Hne].
    + by rewrite (lookup_union_Some_l _ _ _ _ Hnode).
    + by rewrite lookup_union_l by (by rewrite lookup_singleton_ne).
  - do 2 f_equal. by apply insert_union_singleton_r.
Qed.

Lemma mkdirSync_file (p : string) (w : World) (n : node) :
  fs w !! p = Some n → isFile n = true →
  Fs.mkdirSync p w = (Threw (JsError ("EEXIST: file already exists, mkdir " +:+ p)), w).
Proof. intros Hp Hn. unfold Fs.mkdirSync. rewrite Hp. by destruct n. Qed.

(** The writing of a file that is not there yet adds it, and is skipped
    when the path is taken. *)
Lemma write_if_absent (p text : string) (m : gmap string node)
  (con : list (level * string)) (dec : list string) :
  (ex ← Fs.existsSync p;
   if negb ex then Fs.writeFileSync p text else mret ()) (mkWorld m con dec) =
    (Ok (), mkWorld (m ∪ {[p := File text true true]}) con dec).
Proof.
  unfold_M. unfold Fs.writeFileSync. simpl.
  destruct (m !! p) as [n|] eqn:Hnode.
  - rewrite bool_decide_true by eauto. simpl. do 2 f_equal. apply map_eq. intros q.
    destruct (decide (q = p)) as [->|Hne].
    + by rewrite (lookup_union_Some_l _ _ _ _ Hnode).
    + by rewrite lookup_union_l by (by rewrite lookup_singleton_ne).
  - rewrite bool_decide_false by (by intros [? ?]). simpl. rewrite Hnode.
    do 2 f_equal. by apply insert_union_singleton_r.
Qed.

Lemma write_if_absent_then {A} (p text : string) (k : M A) (m : gmap string node)
  (con : list (level * string)) (dec : list string) :
  (ex ← Fs.existsSync p;
   (if negb ex then Fs.writeFileSync p text else mret ());; k) (mkWorld m con dec) =
    k (mkWorld (m ∪ {[p := File text true true]}) con dec).
Proof.
  pose proof (write_if_absent p text m con dec) as Hw. revert Hw.
  unfold_M. unfold Fs.writeFileSync. simpl.
  destruct (m !! p) as [n|] eqn:Hnode.
  - rewrite bool_decide_true by eauto. simpl. by intros [= <-].
  - rewrite bool_decide_false by (by intros [? ?]). simpl. rewrite Hnode.
    by intros [= <-].
Qed.

Lemma app_inj_head (a b c : string) : a +:+ b = a +:+ c → b = c.
Proof. induction a as [|x a IH]; [done|]. rewrite !app_cons. intros [= ?]. auto. Qed.

Lemma app_ne_self (a b : string) : b ≠ EmptyString → a +:+ b ≠ a.
Proof.
  intros Hb Heq. apply (f_equal String.length) in Heq.
  rewrite app_length_s in Heq. destruct b; [done|simpl in Heq; lia].
Qed.

Lemma structure_map (m : gmap string node) (l : list (string * node)) :
  foldl (λ acc kv, acc ∪ {[kv.1 := kv.2]}) m l = m ∪ list_to_map l.
Proof.
  revert m. induction l as [|[k v] l IH]; intros m; simpl.
  - by rewrite (right_id_L ∅ (∪)).
  - rewrite IH. by rewrite insert_union_singleton_l, (assoc_L (∪)).
Qed.

Lemma bind_run {A B} (m : M A) (k : A → M B) (w : World) :
  (m ≫= k) w =
  match m w with
  | (Ok a, w') => k a w'
  | (Threw e, w') => (Threw e, w')
  end.
Proof. reflexivity. Qed.

(** A chain of directory creations with no file in the way adds the
    directories that were not there and goes on. *)
Lemma mkdirs_ok {A} (dirs : list string) (k : M A) (w : World) :
  (∀ d n, d ∈ dirs → fs w !! d = Some n → isFile n = false) →
  foldr (λ d acc, Fs.mkdirSync d;; acc) k dirs w =
    k (mkWorld (foldl (λ acc kv, acc ∪ {[kv.1 := kv.2]}) (fs w)
                  ((λ d, (d, Directory)) <$> dirs))
               (console w) (decoded w)).
Proof.
  revert w. induction dirs as [|d0 dirs IH]; intros [m con dec] Hfree.
  - done.
  - cbn [foldr]. rewrite bind_run. simpl in *.
    rewrite mkdirSync_ok by (intros n; apply Hfree; set_solver).
    rewrite IH; [done|]. simpl. intros d n Hd Hn.
    apply lookup_union_Some_raw in Hn as [Hn|[_ Hn]].
    + apply (Hfree d); [set_solver|done].
    + by apply lookup_singleton_Some in Hn as [_ <-].
Qed.

(** When no file is in the way of a directory, the initialisation ends
    normally and adds the nodes of the structure that were not there. *)
Lemma initializeStructure_ok (host : Host) (global : bool) (w : World) :
  (∀ p n, p ∈ directoriesOf host global → fs w !! p = Some n → isFile n = false) →
  initializeStructure host global w =
    (Ok (), mkWorld (fs w ∪ list_to_map (structureOf host global))
                    (console w) (decoded w)).
Proof.
  intros Hdirs. rewrite <- structure_map. unfold initializeStructure, tryCatch.
  destruct global.
  - change (initializeUserStructure host w) with
      (foldr (λ d acc, Fs.mkdirSync d;; acc)
        (ex ← Fs.existsSync (getUserAgentsDir host +:+ "/productivity-helper.md");
         if negb ex
         then Fs.writeFileSync (getUserAgentsDir host +:+ "/productivity-helper.md")
                productivityAgent
         else mret ()) (directoriesOf host true) w).
    rewrite mkdirs_ok by done. by rewrite write_if_absent.
  - change (initializeProjectStructure host w) with
      (foldr (λ d acc, Fs.mkdirSync d;; acc)
        (ex ← Fs.existsSync (getProjectAgentsDir host +:+ "/example-agent.md");
         (if negb ex
          then Fs.writeFileSync (getProjectAgentsDir host +:+ "/example-agent.md")
                 exampleAgent
          else mret ());;
         ex ← Fs.existsSync (getProjectClaudeDir host +:+ "/README.md");
         if negb ex
         then Fs.writeFileSync (getProjectClaudeDir host +:+ "/README.md") readme
         else mret ()) (directoriesOf host false) w).
    rewrite mkdirs_ok by done. rewrite write_if_absent_then.
    by rewrite write_if_absent.
Qed.

(** A chain of directory creations with a file in the way of one of them
    throws at the first such directory; until then it has only added
    directories. *)
Lemma mkdirs_blocked {A} (dirs : list string) (k : M A) (w : World) :
  (∃ d n, d ∈ dirs ∧ fs w !! d = Some n ∧ isFile n = true) →
  ∃ d w',
    d ∈ dirs ∧
    foldr (λ d acc, Fs.mkdirSync d;; acc) k dirs w =
      (Threw (JsError ("EEXIST: file already exists, mkdir " +:+ d)), w') ∧
    (∀ q n, fs w !! q = Some n → fs w' !! q = Some n) ∧
    (∀ q n, fs w' !! q = Some n → fs w !! q = Some n ∨ (q ∈ dirs ∧ n = Directory)).
Proof.
  revert w. induction dirs as [|d0 dirs IH]; intros w (d & n & Hd & Hn & Hfile).
  - by apply elem_of_nil in Hd.
  - cbn [foldr]. rewrite bind_run.
    destruct (fs w !! d0) as [n0|] eqn:H0; [destruct (isFile n0) eqn:Hf0|].
    + rewrite (mkdirSync_file d0 w n0 H0 Hf0).
      exists d0, w. split_and!; [set_solver|done|done|eauto].
    + destruct w as [m con dec]. simpl in *.
      rewrite mkdirSync_ok by (intros ? ?; congruence).
      destruct (IH (mkWorld (m ∪ {[d0 := Directory]}) con dec))
        as (d' & w' & Hd' & -> & Hkeep & Hnew).
      { exists d, n. simpl. split_and!; [|by apply lookup_union_Some_l|done].
        apply elem_of_cons in Hd as [->|?]; [congruence|done]. }
      exists d', w'. simpl in *. split_and!; [set_solver|done| |].
      * intros q x Hq. apply Hkeep. by apply lookup_union_Some_l.
      * intros q x [Hq|[? ->]]%Hnew; [|right; set_solver].
        apply lookup_union_Some_raw in Hq as [?|[_ Hq]]; [by left|].
        apply lookup_singleton_Some in Hq as [<- <-]. right. set_solver.
    + destruct w as [m con dec]. simpl in *.
      rewrite mkdirSync_ok by (intros ?; congruence).
      destruct (IH (mkWorld (m ∪ {[d0 := Directory]}) con dec))
        as (d' & w' & Hd' & -> & Hkeep & Hnew).
      { exists d, n. simpl. split_and!; [|by apply lookup_union_Some_l|done].
        apply elem_of_cons in Hd as [->|?]; [congruence|done]. }
      exists d', w'. simpl in *. split_and!; [set_solver|done| |].
      * intros q x Hq. apply Hkeep. by apply lookup_union_Some_l.
      * intros q x [Hq|[? ->]]%Hnew; [|right; set_solver].
        apply lookup_union_Some_raw in Hq as [?|[_ Hq]]; [by left|].
        apply lookup_singleton_Some in Hq as [<- <-]. right. set_solver.
Qed.

(** When a file is in the way of a directory, the initialisation throws,
    naming the first such directory; it has written no file, and all that
    it may have added are directories of the structure. *)
Lemma initializeStructure_blocked (host : Host) (global : bool) (w : World) :
  (∃ d n, d ∈ directoriesOf host global ∧ fs w !! d = Some n ∧ isFile n = true) →
  ∃ d w',
    d ∈ directoriesOf host global ∧
    initializeStructure host global w =
      (Threw (JsError ("Failed to initialize: Error: EEXIST: file already exists, mkdir "
                       +:+ d)), w') ∧
    (∀ q n, fs w !! q = Some n → fs w' !! q = Some n) ∧
    (∀ q n, fs w' !! q = Some n →
       fs w !! q = Some n ∨ (q ∈ directoriesOf host global ∧ n = Directory)).
Proof.
  intros Hblocked. unfold initializeStructure, tryCatch.
  destruct global.
  - destruct (mkdirs_blocked (directoriesOf host true)
      (ex ← Fs.existsSync (getUserAgentsDir host +:+ "/productivity-helper.md");
       if negb ex
       then Fs.writeFileSync (getUserAgentsDir host +:+ "/productivity-helper.md")
              productivityAgent
       else mret ()) w Hblocked) as (d & w' & Hd & Hrun & Hframe).
    exists d, w'. split; [done|]. split; [|done].
    change (initializeUserStructure host w) with
      (foldr (λ d acc, Fs.mkdirSync d;; acc)
        (ex ← Fs.existsSync (getUserAgentsDir host +:+ "/productivity-helper.md");
         if negb ex
         then Fs.writeFileSync (getUserAgentsDir host +:+ "/productivity-helper.md")
                productivityAgent
         else mret ()) (directoriesOf host true) w).
    by rewrite Hrun.
  - destruct (mkdirs_blocked (directoriesOf host false)
      (ex ← Fs.existsSync (getProjectAgentsDir host +:+ "/example-agent.md");
       (if negb ex
        then Fs.writeFileSync (getProjectAgentsDir host +:+ "/example-agent.md")
               exampleAgent
        else mret ());;
       ex ← Fs.existsSync (getProjectClaudeDir host +:+ "/README.md");
       if negb ex
       then Fs.writeFileSync (getProjectClaudeDir host +:+ "/README.md") readme
       else mret ()) w Hblocked) as (d & w' & Hd & Hrun & Hframe).
    exists d, w'. split; [done|]. split; [|done].
    change (initializeProjectStructure host w) with
      (foldr (λ d acc, Fs.mkdirSync d;; acc)
        (ex ← Fs.existsSync (getProjectAgentsDir host +:+ "/example-agent.md");
         (if negb ex
          then Fs.writeFileSync (getProjectAgentsDir host +:+ "/example-agent.md")
                 exampleAgent
          else mret ());;
         ex ← Fs.existsSync (getProjectClaudeDir host +:+ "/README.md");
         if negb ex
         then Fs.writeFileSync (getProjectClaudeDir host +:+ "/README.md") readme
         else mret ()) (directoriesOf host false) w).
    by rewrite Hrun.
Qed.

Lemma dirs_free_or_blocked (disk : gmap string node) (dirs : list string) :
  (∀ p n, p ∈ dirs → disk !! p = Some n → isFile n = false) ∨
  (∃ d n, d ∈ dirs ∧ disk !! d = Some n ∧ isFile n = true).
Proof.
  induction dirs as [|d dirs [IH|(d' & n & ? & ? & ?)]].
  - left. by intros ? ? ?%elem_of_nil.
  - destruct (disk !! d) as [n|] eqn:Hd; [destruct (isFile n) eqn:Hn|].
    + right. exists d, n. set_solver.
    + left. intros p n' [->|?]%elem_of_cons; [congruence|eauto].
    + left. intros p n' [->|?]%elem_of_cons; [congruence|eauto].
  - right. exists d', n. set_solver.
Qed.

Lemma structure_lookup (disk : gmap string node) (l : list (string * node))
  (p : string) (n : node) :
  (disk ∪ list_to_map l) !! p = Some n → disk !! p = Some n ∨ (p, n) ∈ l.
Proof.
  intros [?|[_ Hl]]%lookup_union_Some_raw; [by left|right].
  by apply elem_of_list_to_map_2.
Qed.

(** The paths of the files of a structure are not paths of its
    directories. *)
Lemma structure_dirs (host : Host) (global : bool) (p : string) (n : node) :
  (p, n) ∈ structureOf host global → p ∈ directoriesOf host global → n = Directory.
Proof.
  unfold directoriesOf.
  destruct global; cbn [take fmap list_fmap fst structureOf userStructure projectStructure];
    unfold structureOf, userStructure, projectStructure;
    rewrite !elem_of_cons, !elem_of_nil;
    intros [[= -> ->]|[[= -> ->]|[[= -> ->]|Hfile]]]; try done;
    intros Hdir; exfalso.
  - destruct Hfile as [[= -> _]|[]].
    destruct Hdir as [Hd|[Hd|[Hd|[]]]]; revert Hd;
      unfold getUserAgentsDir, getUserCommandsDir, getUserClaudeDir, join;
      rewrite ?app_assoc_s;
      first [ by apply app_ne_self
            | by intros ?%app_inj_head%app_inj_head
            | by intros ?%app_inj_head%app_inj_head%app_inj_head ].
  - destruct Hfile as [[= -> _]|[[= -> _]|[]]];
      destruct Hdir as [Hd|[Hd|[Hd|[]]]]; revert Hd;
      unfold getProjectAgentsDir, getProjectCommandsDir, getProjectClaudeDir, join;
      rewrite ?app_assoc_s;
      first [ by apply app_ne_self
            | by intros ?%app_inj_head%app_inj_head
            | by intros ?%app_inj_head%app_inj_head%app_inj_head ].
Qed.



(** X19. The initialisation can be repeated: after a run that ended
    normally, a second run ends normally too and leaves the disk as the
    first run left it. *)
Theorem initializeStructure_repeatable (host : Host) (global : bool) (w w' : World) :
  initializeStructure host global w = (Ok (), w') →
  (initializeStructure host global w').1 = Ok () ∧
  fs (initializeStructure host global w').2 = fs w'.
Proof.
  intros Hrun.
  enough (initializeStructure host global w' = (Ok (), w')) as -> by done.
  destruct (dirs_free_or_blocked (fs w) (directoriesOf host global)) as [Hfree|Hblocked].
  - rewrite (initializeStructure_ok host global w Hfree) in Hrun.
    injection Hrun as <-.
    rewrite initializeStructure_ok; simpl.
    + by rewrite <- (assoc_L (∪)), (idemp_L (∪)).
    + intros p n Hp [Hn|Hn]%structure_lookup; [eauto|].
      by rewrite (structure_dirs host global p n Hn Hp).
  - destruct (initializeStructure_blocked host global w Hblocked)
      as (d & w'' & _ & Hthrew & _). congruence.
Qed.

Lemma initializeStructure_repeatable_witness :
  (initializeStructure sampleHost false
     (initializeStructure sampleHost false (mkWorld ∅ [] [])).2).1 = Ok () ∧
  fs (initializeStructure sampleHost false
        (initializeStructure sampleHost false (mkWorld ∅ [] [])).2).2 =
  fs (initializeStructure sampleHost false (mkWorld ∅ [] [])).2.
Proof.
  apply (initializeStructure_repeatable sampleHost false (mkWorld ∅ [] [])).
  rewrite initializeStructure_ok; [reflexivity|].
  intros p n _ Hp. simpl in Hp. by rewrite lookup_empty in Hp.
Defined.

Lemma structure_present (disk : gmap string node) (l : list (string * node))
  (p : string) (n : node) :
  (p, n) ∈ l → is_Some ((disk ∪ list_to_map l) !! p).
Proof.
  intros Hin. apply lookup_union_is_Some. right.
  destruct (list_to_map l !! p) as [x|] eqn:Hp; [eauto|].
  apply not_elem_of_list_to_map in Hp. destruct Hp.
  apply list_elem_of_fmap. by exists (p, n).
Qed.

(** X20. After an initialisation that ended normally, the agents directory
    of the structure is the valid agents directory of its scope, the agent
    file of the structure is on the disk, and a generation for that scope
    does not stop for want of an agents directory. *)
Theorem initializeStructure_then_generate (host : Host) (global : bool)
  (w w' : World) :
  initializeStructure host global w = (Ok (), w') →
  getValidAgentsDirs host (if global then "user" else "project") w' =
    (Ok [if global then (getUserAgentsDir host, user)
         else (getProjectAgentsDir host, project)], w') ∧
  is_Some (fs w' !! (if global
                     then getUserAgentsDir host +:+ "/productivity-helper.md"
                     else getProjectAgentsDir host +:+ "/example-agent.md")) ∧
  ∀ dryRun force verbose,
    (generateCommands host
       (GenerateOptions.mk (if global then "user" else "project")
          dryRun force verbose) w').1 ≠ Ok NoAgentDirectories.
Proof.
  intros Hrun.
  destruct (dirs_free_or_blocked (fs w) (directoriesOf host global)) as [Hfree|Hblocked].
  2: { destruct (initializeStructure_blocked host global w Hblocked)
         as (d & w'' & _ & Hthrew & _). congruence. }
  rewrite (initializeStructure_ok host global w Hfree) in Hrun.
  injection Hrun as <-.
  set (w' := mkWorld _ _ _).
  assert (getValidAgentsDirs host (if global then "user" else "project") w' =
    (Ok [if global then (getUserAgentsDir host, user)
         else (getProjectAgentsDir host, project)], w')) as Hdirs.
  { rewrite getValidAgentsDirs_eq. destruct global.
    - rewrite (bool_decide_true (is_Some (fs w' !! getUserAgentsDir host)));
        [done|].
      apply (structure_present _ _ _ Directory). unfold structureOf, userStructure.
      set_solver.
    - rewrite (bool_decide_true (is_Some (fs w' !! getProjectAgentsDir host)));
        [done|].
      apply (structure_present _ _ _ Directory). unfold structureOf, projectStructure.
      set_solver. }
  split_and!.
  - done.
  - destruct global.
    + apply (structure_present _ _ _ (File productivityAgent true true)).
      unfold structureOf, userStructure. set_solver.
    + apply (structure_present _ _ _ (File exampleAgent true true)).
      unfold structureOf, projectStructure. set_solver.
  - intros dryRun force verbose.
    destruct (generateCommands_spec host
      (GenerateOptions.mk (if global then "user" else "project") dryRun force verbose) w')
      as (dirs & agents & w1 & report & w2 & Hd & _ & _ & -> & Hcases).
    { by destruct global. }
    simpl in Hd. rewrite Hdirs in Hd. injection Hd as <-. simpl.
    destruct Hcases as [(? & _)|[(_ & _ & -> & _)|[(_ & _ & _ & -> & _)|
      (_ & _ & _ & ? & ? & ? & -> & _)]]]; done.
Qed.

Lemma initializeStructure_then_generate_witness :
  getValidAgentsDirs sampleHost "project"
    (initializeStructure sampleHost false (mkWorld ∅ [] [])).2 =
  (Ok [("/work/.claude/agents", project)],
   (initializeStructure sampleHost false (mkWorld ∅ [] [])).2).
Proof.
  apply (initializeStructure_then_generate sampleHost false (mkWorld ∅ [] [])).
  rewrite initializeStructure_ok; [reflexivity|].
  intros p n _ Hp. simpl in Hp. by rewrite lookup_empty in Hp.
Defined.

Example initializeStructure_sample :
  (initializeStructure sampleHost false (mkWorld ∅ [] [])).1 = Ok () ∧
  fs (initializeStructure sampleHost false (mkWorld ∅ [] [])).2
    !! "/work/.claude/commands" = Some Directory ∧
  fs (initializeStructure sampleHost false (mkWorld ∅ [] [])).2
    !! "/work/.claude/agents/example-agent.md" = Some (File exampleAgent true true) ∧
  (AgentFile.name <$>
     match (discoverAgents sampleHost "project"
              (initializeStructure sampleHost false (mkWorld ∅ [] [])).2).1 with
     | Ok agents => agents
     | Threw _ => []
     end) = ["example-agent"] ∧
  (initializeStructure sampleHost false
     (mkWorld {[ "/work/.claude" := File "x" true true ]} [] [])).1 =
    Threw (JsError ("Failed to initialize: Error: EEXIST: file already exists, " +:+
                    "mkdir /work/.claude")).
Proof. split_and!; vm_compute; reflexivity. Qed.

(** ** Grouping of agents by directory *)

Lemma pushTo_keys (dir : string) (agent : AgentFile.t)
  (categories : list (string * list AgentFile.t)) :
  (pushTo dir agent categories).*1 =
  if decide (dir ∈ categories.*1) then categories.*1 else categories.*1 ++ [dir].
Proof.
  induction categories as [|[d l] cats IH]; [done|]. cbn [pushTo].
  destruct (String.eqb d dir) eqn:Hd.
  - apply String.eqb_eq in Hd as ->. rewrite !fmap_cons.
    rewrite decide_True by set_solver. done.
  - apply String.eqb_neq in Hd. rewrite !fmap_cons, IH. cbn [fst].
    destruct (decide (dir ∈ cats.*1)).
    + rewrite decide_True by set_solver. done.
    + rewrite decide_False by set_solver. done.
Qed.

Lemma pushTo_NoDup (dir : string) (agent : AgentFile.t)
  (categories : list (string * list AgentFile.t)) :
  NoDup categories.*1 → NoDup (pushTo dir agent categories).*1.
Proof.
  intros Hnd. rewrite pushTo_keys. destruct (decide _); [done|].
  apply NoDup_app. split_and!; [done|set_solver|apply NoDup_singleton].
Qed.

Lemma pushTo_elem (dir : string) (agent : AgentFile.t)
  (categories : list (string * list AgentFile.t)) (d : string)
  (l : list AgentFile.t) :
  NoDup categories.*1 →
  (d, l) ∈ pushTo dir agent categories ↔
  (d ≠ dir ∧ (d, l) ∈ categories) ∨
  (d = dir ∧ ((∃ l0, (dir, l0) ∈ categories ∧ l = l0 ++ [agent]) ∨
              ((dir ∉ categories.*1) ∧ l = [agent]))).
Proof.
  induction categories as [|[d0 l0] cats IH]; intros Hnd; cbn [pushTo].
  - rewrite list_elem_of_singleton. split.
    + intros [= -> ->]. right. split; [done|]. right. split; [|done].
      apply not_elem_of_nil.
    + intros [[_ H]|[-> [(l1 & H & _)|[_ ->]]]];
        [by apply elem_of_nil in H|by apply elem_of_nil in H|done].
  - rewrite fmap_cons in Hnd. cbn [fst] in Hnd.
    apply NoDup_cons in Hnd as [Hd0 Hnd]. specialize (IH Hnd).
    assert (∀ x, (d0, x) ∈ cats → False) as Hfresh.
    { intros x Hx. apply Hd0. apply list_elem_of_fmap. by exists (d0, x). }
    destruct (String.eqb d0 dir) eqn:Heq.
    + apply String.eqb_eq in Heq as ->. rewrite !elem_of_cons. split.
      * intros [[= -> ->]|Hin].
        -- right. split; [done|]. left. exists l0. split; [by left|done].
        -- left. split; [|by right]. intros ->. by apply (Hfresh l).
      * intros [[Hne [Heq|?]]|[-> [(l1 & [Heq|Hin]%elem_of_cons & ->)|[Hout _]]]].
        -- by injection Heq as -> ->.
        -- by right.
        -- injection Heq as <-. by left.
        -- by destruct (Hfresh l1).
        -- destruct Hout. rewrite fmap_cons. set_solver.
    + apply String.eqb_neq in Heq. rewrite fmap_cons. cbn [fst].
      rewrite !elem_of_cons, IH. split.
      * intros [Hhere|[[? ?]|[-> [(l1 & ? & ->)|[Hout ->]]]]].
        -- injection Hhere as -> ->. left. split; [done|by left].
        -- left. split; [done|by right].
        -- right. split; [done|]. left. exists l1. split; [by right|done].
        -- right. split; [done|]. right. split; [|done]. set_solver.
      * intros [[Hne [Hhere|?]]|[-> [(l1 & [Hhere|Hin]%elem_of_cons & ->)|[Hout ->]]]].
        -- by left.
        -- right. left. done.
        -- by injection Hhere as ->.
        -- right. right. split; [done|]. left. eauto.
        -- right. right. split; [done|]. right. split; [set_solver|done].
Qed.

Lemma pushTo_total (dir : string) (agent : AgentFile.t)
  (categories : list (string * list AgentFile.t)) :
  length (concat (pushTo dir agent categories).*2) =
  S (length (concat categories.*2)).
Proof.
  induction categories as [|[d l] cats IH]; [done|]. cbn [pushTo].
  destruct (String.eqb d dir); rewrite !fmap_cons; cbn [snd concat];
    rewrite !length_app.
  - simpl. lia.
  - rewrite IH. lia.
Qed.

(** The grouping after the agents [seen]: the categories are distinct and
    each holds, in order, the agents seen so far that belong to it. *)
Lemma categories_invariant (seen : list AgentFile.t)
  (categories : list (string * list AgentFile.t)) (agents : list AgentFile.t) :
  NoDup categories.*1 →
  (∀ d l, (d, l) ∈ categories ↔
          l ≠ [] ∧ l = filter (λ a, categoryOf a = d) seen) →
  length (concat categories.*2) = length seen →
  let result :=
    foldl (λ categories agent, pushTo (categoryOf agent) agent categories)
          categories agents in
  NoDup result.*1 ∧
  (∀ d l, (d, l) ∈ result ↔
          l ≠ [] ∧ l = filter (λ a, categoryOf a = d) (seen ++ agents)) ∧
  length (concat result.*2) = length (seen ++ agents).
Proof.
  revert seen categories. induction agents as [|x agents IH];
    intros seen cats Hnd Hcats Hlen; simpl.
  - by rewrite app_nil_r.
  - replace (seen ++ x :: agents) with ((seen ++ [x]) ++ agents)
      by (by rewrite <- app_assoc).
    apply IH.
    + by apply pushTo_NoDup.
    + intros d l. rewrite pushTo_elem by done. rewrite filter_app, filter_cons.
      setoid_rewrite Hcats. destruct (decide (categoryOf x = d)) as [<-|Hne].
      * rewrite filter_nil. split.
        -- intros [[? _]|[_ [(l0 & [_ ->] & ->)|[Hout ->]]]]; [done| |].
           ++ split; [by destruct (filter _ seen)|done].
           ++ split; [done|].
              destruct (filter (λ a, categoryOf a = categoryOf x) seen) as [|y l0] eqn:Hf;
                [done|].
              destruct Hout. apply list_elem_of_fmap. exists (categoryOf x, y :: l0).
              split; [done|]. apply Hcats. by rewrite Hf.
        -- intros [_ ->]. right. split; [done|].
           destruct (filter (λ a, categoryOf a = categoryOf x) seen) as [|y l0] eqn:Hf.
           ++ right. split; [|done].
              intros ([d' l'] & Hd & [Hl' Hl'']%Hcats)%list_elem_of_fmap.
              simpl in Hd. subst d'. congruence.
           ++ left. exists (y :: l0). done.
      * rewrite filter_nil, app_nil_r. split.
        -- intros [[_ ?]|[? _]]; [done|congruence].
        -- intros ?. left. split; [congruence|done].
    + rewrite pushTo_total, length_app. simpl. lia.
Qed.

(** The first segment of a path that has a slash. *)
Lemma head_split (c : ascii) (u v : string) :
  Js.all (notChar c) u = true →
  head (Js.split c (u +:+ String c v)) = Some u.
Proof. intros Hu. by rewrite split_app_line. Qed.

Lemma categoryOf_root (agent : AgentFile.t) :
  categoryOf agent = "root" ↔
  Js.includes "/" (AgentFile.relativePath agent) = false ∨
  Js.startsWith "root/" (AgentFile.relativePath agent) = true.
Proof.
  unfold categoryOf.
  destruct (Js.includes "/" (AgentFile.relativePath agent)) eqn:Hslash.
  - rewrite includes_char, negb_true_iff in Hslash.
    apply first_occurrence in Hslash as (u & v & -> & Hu).
    rewrite head_split by done. change (default EmptyString (Some u)) with u. split.
    + intros ->. by right.
    + intros [?|[t Ht]%startsWith_iff]; [done|].
      change ("root/" +:+ t) with ("root" +:+ String "/" t) in Ht.
      by apply first_occurrence_unique in Ht.
  - split; [by left|done].
Qed.

(** X21. The grouping of [exploreByCategory] files every agent under
    exactly one category: the categories are distinct, each holds, in the
    order of discovery, all the agents of that category and is not empty,
    and the groups together have as many entries as there are agents. The
    category of the top level also takes the agents of a directory that is
    itself called root. *)
Theorem categoriesOf_groups (agents : list AgentFile.t) :
  NoDup (categoriesOf agents).*1 ∧
  (∀ d l, (d, l) ∈ categoriesOf agents ↔
          l ≠ [] ∧ l = filter (λ a, categoryOf a = d) agents) ∧
  (∀ a, a ∈ agents → ∃ l, (categoryOf a, l) ∈ categoriesOf agents ∧ a ∈ l) ∧
  length (concat (categoriesOf agents).*2) = length agents ∧
  (∀ a, categoryOf a = "root" ↔
        Js.includes "/" (AgentFile.relativePath a) = false ∨
        Js.startsWith "root/" (AgentFile.relativePath a) = true).
Proof.
  destruct (categories_invariant [] [] agents) as (Hnd & Hgroups & Hlen).
  { apply NoDup_nil_2. }
  { intros d l. rewrite elem_of_nil, filter_nil. split; [done|]. by intros [? ->]. }
  { done. }
  rewrite app_nil_l in Hgroups, Hlen. split_and!; [done|done| |done|].
  - intros a Ha. exists (filter (λ x, categoryOf x = categoryOf a) agents).
    assert (a ∈ filter (λ x, categoryOf x = categoryOf a) agents) as Hin
      by (by apply list_elem_of_filter).
    split; [|done]. apply Hgroups. split; [|done]. intros Hnil.
    rewrite Hnil in Hin. by apply elem_of_nil in Hin.
  - apply categoryOf_root.
Qed.

Example categoriesOf_sample :
  categoriesOf
    [AgentFile.mk "/a/x.md" "x.md" (AgentFrontmatter.mk "x" "d" None None) "X" project;
     AgentFile.mk "/a/dev/y.md" "dev/y.md" (AgentFrontmatter.mk "y" "d" None None) "Y"
       project;
     AgentFile.mk "/a/root/z.md" "root/z.md" (AgentFrontmatter.mk "z" "d" None None) "Z"
       project] =
  [("root",
    [AgentFile.mk "/a/x.md" "x.md" (AgentFrontmatter.mk "x" "d" None None) "X" project;
     AgentFile.mk "/a/root/z.md" "root/z.md" (AgentFrontmatter.mk "z" "d" None None) "Z"
       project]);
   ("dev",
    [AgentFile.mk "/a/dev/y.md" "dev/y.md" (AgentFrontmatter.mk "y" "d" None None) "Y"
       project])].
Proof. reflexivity. Qed.
